(** * HeadHunter -> Bitrix24 synchronisation engine: a shallow embedding

    The development follows [src/main.py], class
    [HeadHunterBitrixIntegration].  Every method that takes part in the
    synchronisation cycle is translated into a function of a small
    state-and-exception monad [M]:

    - the instance attributes, the three files the program touches and the
      wall clock form the [State];
    - everything the program cannot decide by itself (what an HTTP call
      answers, how long it takes, whether a file operation succeeds, how
      long a wait the platform lets [time.sleep] take) is read from a
      [World], indexed by the number of calls made so far;
    - a ghost [log] records the outbound calls, the sleeps and the entries
      of the methods the properties talk about.

    Conventions.  Times are integer numbers of milliseconds.  A text is kept
    as the bytes of its UTF-8 encoding, which is also how the files hold it;
    the white space of [str.strip] is all of [str.isspace], one to three
    bytes a character.  JSON payloads are decoded into typed records: the
    text of an identifier is what [str(d.get('id', ''))] yields, and the
    empty string stands for an absent or falsy value.  A file operation
    either completes or raises without any effect; reading a file that does
    not decode and writing a text that does not encode are file operations
    that raise; a line break is written as LF.  The candidate data of a
    negotiation is kept opaque, and taken to be data from which
    [create_bitrix_lead] builds its payload without an error (what that
    takes is spelled out with [lead_data], further down); [expires_in] is
    taken to be within what [timedelta] and [datetime] hold.  The [timeout]
    keyword and the wording of log and Telegram messages are left out. *)

From Stdlib Require Import ZArith String Ascii List Lia.
From stdpp Require Import base gmap strings list pretty.

Local Open Scope Z_scope.

(** ** Text: [str.strip], text-mode reading, [readlines] *)

Module Text.

Definition LF : ascii := ascii_of_nat 10.
Definition CR : ascii := ascii_of_nat 13.

Definition is_lf (c : ascii) : bool := Nat.eqb (nat_of_ascii c) 10.
Definition is_cr (c : ascii) : bool := Nat.eqb (nat_of_ascii c) 13.

(** A byte between two bounds. *)
Definition between (lo hi : nat) (c : ascii) : bool :=
  Nat.leb lo (nat_of_ascii c) && Nat.leb (nat_of_ascii c) hi.

Definition continuation (c : ascii) : bool := between 128 191 c.

(** The second byte of a character of three bytes that starts with [a],
    and of one of four: no overlong form, no surrogate, nothing beyond
    U+10FFFF. *)
Definition second_of_three (a b : ascii) : bool :=
  if Nat.eqb (nat_of_ascii a) 224 then between 160 191 b
  else if Nat.eqb (nat_of_ascii a) 237 then between 128 159 b
  else continuation b.

Definition second_of_four (a b : ascii) : bool :=
  if Nat.eqb (nat_of_ascii a) 240 then between 144 191 b
  else if Nat.eqb (nat_of_ascii a) 244 then between 128 143 b
  else continuation b.

(** The bytes are the UTF-8 encoding of a text, that is of a [str] that can
    be written to a file. *)
Fixpoint utf8 (s : string) : bool :=
  match s with
  | EmptyString => true
  | String a s1 =>
      if between 0 127 a then utf8 s1
      else
        match s1 with
        | String b s2 =>
            if between 194 223 a then continuation b && utf8 s2
            else
              match s2 with
              | String c s3 =>
                  if between 224 239 a then
                    second_of_three a b && continuation c && utf8 s3
                  else
                    match s3 with
                    | String d s4 =>
                        between 240 244 a && second_of_four a b
                        && continuation c && continuation d && utf8 s4
                    | EmptyString => false
                    end
              | EmptyString => false
              end
        | EmptyString => false
        end
  end.

(** The characters [str.isspace] accepts, by the bytes of their UTF-8
    encoding.  In one byte: TAB, LF, VT, FF, CR, the four separators
    0x1c..0x1f and the space. *)
Definition is_space (c : ascii) : bool :=
  let n := nat_of_ascii c in
  (Nat.leb 9 n && Nat.leb n 13) || (Nat.leb 28 n && Nat.leb n 32).

(** In two bytes: U+0085 (c2 85) and U+00A0 (c2 a0). *)
Definition is_space2 (a b : ascii) : bool :=
  let y := nat_of_ascii b in
  Nat.eqb (nat_of_ascii a) 194 && (Nat.eqb y 133 || Nat.eqb y 160).

(** In three bytes: U+1680 (e1 9a 80), U+2000..U+200A (e2 80 80..8a),
    U+2028, U+2029 and U+202F (e2 80 a8, a9, af), U+205F (e2 81 9f) and
    U+3000 (e3 80 80). *)
Definition is_space3 (a b c : ascii) : bool :=
  let x := nat_of_ascii a in
  let y := nat_of_ascii b in
  let z := nat_of_ascii c in
  (Nat.eqb x 225 && Nat.eqb y 154 && Nat.eqb z 128)
  || (Nat.eqb x 226 && Nat.eqb y 128
      && ((Nat.leb 128 z && Nat.leb z 138)
          || Nat.eqb z 168 || Nat.eqb z 169 || Nat.eqb z 175))
  || (Nat.eqb x 226 && Nat.eqb y 129 && Nat.eqb z 159)
  || (Nat.eqb x 227 && Nat.eqb y 128 && Nat.eqb z 128).

(** The text is one white-space character. *)
Definition is_white (s : string) : bool :=
  match s with
  | String a EmptyString => is_space a
  | String a (String b EmptyString) => is_space2 a b
  | String a (String b (String c EmptyString)) => is_space3 a b c
  | _ => false
  end.

(** What follows the white-space character the text starts with, if it
    starts with one. *)
Definition leading_space (s : string) : option string :=
  match s with
  | String a s1 =>
      if is_space a then Some s1
      else
        match s1 with
        | String b s2 =>
            if is_space2 a b then Some s2
            else
              match s2 with
              | String c s3 => if is_space3 a b c then Some s3 else None
              | EmptyString => None
              end
        | EmptyString => None
        end
  | EmptyString => None
  end.

(** [s.lstrip()]: the white-space characters at the start are dropped. *)
Fixpoint lstrip (s : string) : string :=
  match s with
  | EmptyString => EmptyString
  | String a s1 =>
      if is_space a then lstrip s1
      else
        match s1 with
        | String b s2 =>
            if is_space2 a b then lstrip s2
            else
              match s2 with
              | String c s3 => if is_space3 a b c then lstrip s3 else s
              | EmptyString => s
              end
        | EmptyString => s
        end
  end.

(** [s.rstrip()]: going from the end of the text, what is left of the
    rest is extended by one byte, and dropped when the result is one
    white-space character. *)
Fixpoint rstrip (s : string) : string :=
  match s with
  | EmptyString => EmptyString
  | String c s' =>
      let r := String c (rstrip s') in
      if is_white r then EmptyString else r
  end.

(** [s.strip()] *)
Definition strip (s : string) : string := rstrip (lstrip s).

(** Reading in text mode with the default [newline=None]: the terminators
    CR LF and CR both arrive as LF. *)
Fixpoint universal_newlines (s : string) : string :=
  match s with
  | EmptyString => EmptyString
  | String c s' =>
      if is_cr c then
        String LF
          match s' with
          | EmptyString => EmptyString
          | String c' s'' =>
              if is_lf c' then universal_newlines s'' else universal_newlines s'
          end
      else String c (universal_newlines s')
  end.

(** Cutting a text after every LF, the terminator staying on its line. *)
Fixpoint split_lines (s : string) : list string :=
  match s with
  | EmptyString => []
  | String c s' =>
      if is_lf c then String c EmptyString :: split_lines s'
      else
        match split_lines s' with
        | [] => [String c EmptyString]
        | l :: ls => String c l :: ls
        end
  end.

(** [f.readlines()], which is also what [for line in f] enumerates. *)
Definition readlines (content : string) : list string :=
  split_lines (universal_newlines content).

(** [f.writelines(lines)] on a file opened with ['w'] *)
Definition writelines (lines : list string) : string :=
  fold_right String.append EmptyString lines.

(** [set(line.strip() for line in lines if line.strip())] *)
Definition ids_of_lines (lines : list string) : gset string :=
  list_to_set (filter (λ l, l ≠ EmptyString) (map strip lines)).

(** [lines[-n:]] for a positive [n] *)
Definition last_n {A} (n : nat) (l : list A) : list A :=
  skipn (length l - n) l.

(** The line [save_processed_id] appends for an identifier. *)
Definition id_line (id : string) : string := id +:+ String LF EmptyString.

(** No CR and no LF in the text. *)
Fixpoint no_line_break (s : string) : bool :=
  match s with
  | EmptyString => true
  | String c s' => negb (is_lf c) && negb (is_cr c) && no_line_break s'
  end.

(** An identifier that reads back from its own line as itself: no line
    break inside, no white space at either end, not empty. *)
Definition clean_id (id : string) : bool :=
  no_line_break id
  && bool_decide (strip id = id)
  && negb (bool_decide (id = EmptyString)).

(** The ledger file that holds the given identifiers, one per line. *)
Definition ledger_of (ids : list string) : string :=
  fold_right (λ id rest, id_line id +:+ rest) EmptyString ids.

(** A text made of [n] times the character [c]. *)
Fixpoint string_repeat (n : nat) (c : ascii) : string :=
  match n with
  | O => EmptyString
  | S n' => String c (string_repeat n' c)
  end.

End Text.
Export Text.

(** ** Payloads *)

(** One element of the [items] of [/negotiations]. *)
Record Negotiation := {
  neg_id : string;        (* str(negotiation.get('id', '')) *)
  neg_resume : string     (* the candidate data, opaque here *)
}.

(** One element of the [items] of [/vacancies]. *)
Record Vacancy := {
  vac_id : string;            (* vacancy.get('id'); empty when falsy *)
  vac_name : option string    (* vacancy.get('name') *)
}.

(** An element of the list [get_hh_applications] returns. *)
Record Application := {
  negotiation : Negotiation;
  vacancy_name : string
}.

(** [lead_data['fields']] of [create_bitrix_lead]. *)
Record LeadFields := {
  lead_title : string;
  lead_source : Negotiation
}.

Inductive Message :=
| MsgSuccess (fields : LeadFields) (lead_id : Z)
| MsgError (reason : string)
| MsgLog (text : string)
| MsgSummary (processed succeeded failed : nat).

Inductive Grant :=
| RefreshGrant (refresh_token : string).

(** The calls the program makes through [session.request].  The token is
    the one placed in the [Authorization] header. *)
Inductive Request :=
| GetMe (token : option string)
| GetVacancies (token : option string) (employer_id : string) (per_page page : Z)
| GetNegotiations (token : option string) (vacancy_id : string) (per_page page : Z)
| PostToken (grant : Grant)
| PostLead (fields : LeadFields)
| PostTelegram (m : Message).

(** [int(response.headers.get('Retry-After', default))]: the header is
    absent, holds something [int] rejects, or holds an integer. *)
Inductive RetryAfter :=
| NoRetryAfter
| BadRetryAfter
| RetryAfterSeconds (n : Z).

(** What [response.json()] yields, by shape.  [BadJson] is a body on which
    [json()] or the first [.get] raises. *)
Inductive Body :=
| BadJson
| EmptyObject
| TokenBody (access_token refresh_token : option string) (expires_in : option Z)
| MeBody (is_employer : bool) (email : string) (id : string)
| VacanciesBody (items : list Vacancy)
| NegotiationsBody (items : list Negotiation)
| LeadBody (result : option Z).

Record Response := {
  status_code : Z;
  retry_after : RetryAfter;
  body : Body
}.

(** [session.request] returns a response or raises a
    [requests.exceptions.RequestException]. *)
Inductive Outcome :=
| Fails
| Answers (r : Response).

(** ** World, state, events *)

Record World := {
  http : nat → Request → Outcome;   (* what the n-th outbound call gets *)
  latency : nat → Z;                (* how long the n-th outbound call takes *)
  io_ok : nat → bool;               (* whether the n-th file operation succeeds *)
  sleep_limit : Z                   (* the longest wait the system lets a sleep take *)
}.

Inductive SleepKind := Pacing | RateLimited | Backoff | BatchPause | Idle.

Inductive Event :=
| EvRequest (t : Z) (r : Request)     (* session.request begins at time t *)
| EvSleep (k : SleepKind) (d : Z)     (* time.sleep(d) *)
| EvRefresh                           (* refresh_access_token is entered *)
| EvTestApi                           (* test_api_access is entered *)
| EvCreateLead (a : Application)      (* create_bitrix_lead is entered *)
| EvRecord (id : string).             (* save_processed_id is entered *)

(** The [HEADHUNTER] token options of the configuration. *)
Record Credentials := {
  cfg_access_token : string;
  cfg_refresh_token : string;
  cfg_token_expires_at : option Z
}.

Record State := {
  (* instance attributes *)
  hh_access_token : option string;
  hh_refresh_token : string;
  token_expires_at : option Z;
  processed_ids : gset string;
  last_request_time : Z;
  config : Credentials;
  (* files: processed_applications.txt, its dated backups, config.ini *)
  ledger_file : option string;
  backup_files : gmap Z string;
  config_file : Credentials;
  (* clock, call counters, ghost log *)
  now : Z;
  n_requests : nat;
  n_io : nat;
  log : list Event
}.

Inductive Exn :=
| RequestException
| ValueError
| OverflowError         (* time.sleep given more than its clock holds *)
| OSError
| TokenRefreshFailed.   (* the Exception raised by get_auth_headers *)

(** The last case is the embedding running out of recursion depth; no
    handler catches it. *)
Inductive Res (A : Type) :=
| Ok (a : A)
| Raise (e : Exn)
| OutOfFuel.
Arguments Ok {A} a.
Arguments Raise {A} e.
Arguments OutOfFuel {A}.

Definition M (A : Type) : Type := State → Res A * State.

Definition ret {A} (a : A) : M A := λ s, (Ok a, s).

Definition bind {A B} (m : M A) (f : A → M B) : M B :=
  λ s, match m s with
       | (Ok a, s') => f a s'
       | (Raise e, s') => (Raise e, s')
       | (OutOfFuel, s') => (OutOfFuel, s')
       end.

Definition raise {A} (e : Exn) : M A := λ s, (Raise e, s).

Definition out_of_fuel {A} : M A := λ s, (OutOfFuel, s).

(** [try: m  except E: h] where [handles] tells the exceptions of class E *)
Definition try_except {A} (m : M A) (handles : Exn → bool) (h : M A) : M A :=
  λ s, match m s with
       | (Raise e, s') => if handles e then h s' else (Raise e, s')
       | r => r
       end.

Definition gets {A} (f : State → A) : M A := λ s, (Ok (f s), s).
Definition modify (f : State → State) : M unit := λ s, (Ok tt, f s).

Declare Scope m_scope.
Delimit Scope m_scope with M.
Notation "'do' x <- m ; k" := (bind m (λ x, k))
  (at level 10, x pattern, m at level 100, k at level 200) : m_scope.
Notation "m ;;; k" := (bind m (λ _, k))
  (at level 100, k at level 200, right associativity) : m_scope.
Local Open Scope m_scope.

(** [except Exception] and [except requests.exceptions.RequestException] *)
Definition any_exception (e : Exn) : bool := true.
Definition request_exception (e : Exn) : bool :=
  match e with RequestException => true | _ => false end.

(** ** Field updates *)

Definition with_tokens (a : option string) (r : string) (e : option Z)
    (c : Credentials) (s : State) : State :=
  {| hh_access_token := a; hh_refresh_token := r; token_expires_at := e;
     processed_ids := processed_ids s;
     last_request_time := last_request_time s; config := c;
     ledger_file := ledger_file s; backup_files := backup_files s;
     config_file := config_file s; now := now s;
     n_requests := n_requests s; n_io := n_io s; log := log s |}.

Definition with_processed_ids (p : gset string) (s : State) : State :=
  {| hh_access_token := hh_access_token s;
     hh_refresh_token := hh_refresh_token s;
     token_expires_at := token_expires_at s; processed_ids := p;
     last_request_time := last_request_time s; config := config s;
     ledger_file := ledger_file s; backup_files := backup_files s;
     config_file := config_file s; now := now s;
     n_requests := n_requests s; n_io := n_io s; log := log s |}.

Definition with_last_request_time (t : Z) (s : State) : State :=
  {| hh_access_token := hh_access_token s;
     hh_refresh_token := hh_refresh_token s;
     token_expires_at := token_expires_at s;
     processed_ids := processed_ids s;
     last_request_time := t; config := config s;
     ledger_file := ledger_file s; backup_files := backup_files s;
     config_file := config_file s; now := now s;
     n_requests := n_requests s; n_io := n_io s; log := log s |}.

Definition with_files (l : option string) (b : gmap Z string)
    (c : Credentials) (s : State) : State :=
  {| hh_access_token := hh_access_token s;
     hh_refresh_token := hh_refresh_token s;
     token_expires_at := token_expires_at s;
     processed_ids := processed_ids s;
     last_request_time := last_request_time s; config := config s;
     ledger_file := l; backup_files := b; config_file := c; now := now s;
     n_requests := n_requests s; n_io := n_io s; log := log s |}.

Definition with_clock (t : Z) (nr nio : nat) (s : State) : State :=
  {| hh_access_token := hh_access_token s;
     hh_refresh_token := hh_refresh_token s;
     token_expires_at := token_expires_at s;
     processed_ids := processed_ids s;
     last_request_time := last_request_time s; config := config s;
     ledger_file := ledger_file s; backup_files := backup_files s;
     config_file := config_file s; now := t;
     n_requests := nr; n_io := nio; log := log s |}.

Definition with_log (l : list Event) (s : State) : State :=
  {| hh_access_token := hh_access_token s;
     hh_refresh_token := hh_refresh_token s;
     token_expires_at := token_expires_at s;
     processed_ids := processed_ids s;
     last_request_time := last_request_time s; config := config s;
     ledger_file := ledger_file s; backup_files := backup_files s;
     config_file := config_file s; now := now s;
     n_requests := n_requests s; n_io := n_io s; log := l |}.

(** Adds an event at the end of the ghost log. *)
Definition emit (e : Event) : M unit :=
  modify (λ s, with_log (log s ++ [e]) s).

(** ** The request layer *)

(** A number of seconds, in milliseconds. *)
Definition seconds (n : Z) : Z := 1000 * n.

Definition min_request_interval : Z := seconds 1.
Definition max_retries : nat := 3.
Definition retry_delay : Z := seconds 5.

(** The longest wait the clock of [time.sleep] holds: 64 bits of
    nanoseconds, which is 9223372036 whole seconds. *)
Definition clock_limit : Z := seconds 9223372036.

(** The truth value of a [requests.Response] is [response.ok]
    ([Response.__bool__] returns [self.ok], which is false exactly when
    [raise_for_status] would raise, that is for a status code from 400 to
    599).  So [if not response] holds for the absent response ([None]) and
    for every client or server error; below it is written as a [match] on
    the option followed by [negb (response_ok _)]. *)
Definition response_ok (r : Response) : bool :=
  negb ((400 <=? status_code r) && (status_code r <? 600)).

(** Result of one round of a [for] loop: go to the next round, or leave the
    function with a value. *)
Inductive Loop (A : Type) :=
| Continue
| Return (a : A).
Arguments Continue {A}.
Arguments Return {A} a.

Section Program.

Variable w : World.

(** The state once [time.sleep(d)] has returned. *)
Definition slept (k : SleepKind) (d : Z) (s : State) : State :=
  with_clock (now s + d) (n_requests s) (n_io s)
    (with_log (log s ++ [EvSleep k d]) s).

(** [time.sleep(d)] for a wait the program computes itself, which the
    platform takes; a negative duration raises [ValueError]. *)
Definition sleep (k : SleepKind) (d : Z) : M unit :=
  if 0 <=? d then modify (slept k d) else raise ValueError.

(** [time.sleep(d)] for a wait that was read from outside.  The wait is
    first turned into the 64-bit count of nanoseconds of the clock: one
    that does not fit, of either sign, raises [OverflowError].  Then a
    negative wait raises [ValueError].  Then the system is asked to wait,
    and refuses, with an [OSError], a wait beyond what it takes; where that
    begins depends on the platform and is the [sleep_limit] of the world. *)
Definition sleep_for (k : SleepKind) (d : Z) : M unit :=
  if clock_limit <? Z.abs d then raise OverflowError
  else if d <? 0 then raise ValueError
  else if sleep_limit w <? d then raise OSError
  else modify (slept k d).

(** The state once the outbound call begun in [s] has come back. *)
Definition requested (req : Request) (s : State) : State :=
  with_clock (now s + latency w (n_requests s)) (S (n_requests s)) (n_io s)
    (with_log (log s ++ [EvRequest (now s) req]) s).

(** [self.session.request(method, url, **kwargs)] *)
Definition session_request (req : Request) : M Response :=
  λ s,
    match http w (n_requests s) req with
    | Fails => (Raise RequestException, requested req s)
    | Answers r => (Ok r, requested req s)
    end.

Definition rate_limit : M unit :=
  do current_time <- gets now;
  do last <- gets last_request_time;
  let time_since_last := current_time - last in
  (if time_since_last <? min_request_interval
   then sleep Pacing (min_request_interval - time_since_last)
   else ret tt) ;;;
  do t <- gets now;
  modify (with_last_request_time t).

(** [int(response.headers.get('Retry-After', self.retry_delay))] *)
Definition retry_after_seconds (r : Response) : M Z :=
  match retry_after r with
  | NoRetryAfter => ret retry_delay
  | BadRetryAfter => raise ValueError
  | RetryAfterSeconds n => ret (seconds n)
  end.

(** The body of [for attempt in range(self.max_retries)] in [make_request]. *)
Definition attempt_request (req : Request) (attempt : nat)
    : M (Loop (option Response)) :=
  try_except
    (rate_limit ;;;
     do response <- session_request req;
     if status_code response =? 429 then
       do retry_after <- retry_after_seconds response;
       sleep_for RateLimited retry_after ;;;
       ret Continue
     else ret (Return (Some response)))
    request_exception
    (if Nat.eqb attempt (max_retries - 1) then ret (Return None)
     else
       sleep Backoff (retry_delay * Z.of_nat (attempt + 1)) ;;;
       ret Continue).

Fixpoint for_attempts (req : Request) (attempts : list nat)
    : M (option Response) :=
  match attempts with
  | [] => ret None
  | attempt :: rest =>
      do c <- attempt_request req attempt;
      match c with
      | Continue => for_attempts req rest
      | Return r => ret r
      end
  end.

Definition make_request (req : Request) : M (option Response) :=
  for_attempts req (seq 0 max_retries).

(** [response.json()] *)
Definition json (r : Response) : M Body :=
  match body r with
  | BadJson => raise ValueError
  | b => ret b
  end.

(** ** Notifications *)

Definition send_telegram_message (m : Message) : M unit :=
  try_except
    (do response <- make_request (PostTelegram m); ret tt)
    any_exception
    (ret tt).

Definition send_telegram_success (fields : LeadFields) (lead_id : Z) : M unit :=
  send_telegram_message (MsgSuccess fields lead_id).

Definition send_telegram_error (reason : string) : M unit :=
  send_telegram_message (MsgError reason).

Definition send_telegram_log (text : string) : M unit :=
  send_telegram_message (MsgLog text).

(** ** Files *)

(** One file operation: it goes through or raises [OSError]. *)
Definition file_op : M unit :=
  λ s,
    let s' := with_clock (now s) (n_requests s) (S (n_io s)) s in
    if io_ok w (n_io s) then (Ok tt, s') else (Raise OSError, s').

Definition file_content (f : option string) : string :=
  match f with
  | None => EmptyString
  | Some c => c
  end.

(** [set(line.strip() for line in f if line.strip())] *)
Definition parse_ids (content : string) : gset string :=
  ids_of_lines (readlines content).

Definition load_processed_ids : M (gset string) :=
  try_except
    (do f <- gets ledger_file;
     match f with
     | Some content => file_op ;;; ret (parse_ids content)
     | None => ret ∅
     end)
    any_exception
    (ret ∅).

Definition save_processed_id (app_id : string) : M unit :=
  emit (EvRecord app_id) ;;;
  try_except
    (file_op ;;;
     modify (λ s, with_files
                    (Some (file_content (ledger_file s) +:+ id_line app_id))
                    (backup_files s) (config_file s) s) ;;;
     modify (λ s, with_processed_ids (processed_ids s ∪ {[ app_id ]}) s))
    any_exception
    (send_telegram_error "ID saqlashda xatolik").

(** ** Token life cycle *)

(** Truth value of an optional text: absent and empty are falsy. *)
Definition truthy_str (o : option string) : bool :=
  match o with
  | Some (String _ _) => true
  | _ => false
  end.

Definition truthy_int (o : option Z) : bool :=
  match o with
  | Some n => negb (n =? 0)
  | None => false
  end.

Definition set_config (c : Credentials) (s : State) : State :=
  with_tokens (hh_access_token s) (hh_refresh_token s) (token_expires_at s) c s.

Definition save_token_to_config (access_token : string)
    (refresh_token : option string) (expires_in : option Z) : M unit :=
  try_except
    (modify (λ s, set_config
                    {| cfg_access_token := access_token;
                       cfg_refresh_token := cfg_refresh_token (config s);
                       cfg_token_expires_at := cfg_token_expires_at (config s) |} s) ;;;
     (if truthy_str refresh_token then
        modify (λ s, set_config
                       {| cfg_access_token := cfg_access_token (config s);
                          cfg_refresh_token := default EmptyString refresh_token;
                          cfg_token_expires_at := cfg_token_expires_at (config s) |} s)
      else ret tt) ;;;
     (if truthy_int expires_in then
        do t <- gets now;
        let expires_at := t + seconds (default 0 expires_in) in
        modify (λ s, with_tokens (hh_access_token s) (hh_refresh_token s)
                       (Some expires_at)
                       {| cfg_access_token := cfg_access_token (config s);
                          cfg_refresh_token := cfg_refresh_token (config s);
                          cfg_token_expires_at := Some expires_at |} s)
      else ret tt) ;;;
     file_op ;;;
     modify (λ s, with_files (ledger_file s) (backup_files s) (config s) s))
    any_exception
    (ret tt).

(** [timedelta(minutes=5)] *)
Definition refresh_margin : Z := seconds 300.

Definition is_token_expired : M bool :=
  do expires <- gets token_expires_at;
  match expires with
  | None => ret false
  | Some expires_at =>
      do t <- gets now;
      ret (expires_at - refresh_margin <=? t)
  end.

Definition token_fields (b : Body) : option string * option string * option Z :=
  match b with
  | TokenBody a r e => (a, r, e)
  | _ => (None, None, None)
  end.

Definition refresh_access_token : M bool :=
  emit EvRefresh ;;;
  do current <- gets hh_refresh_token;
  if bool_decide (current = EmptyString) then ret false
  else
    try_except
      (do response <- make_request (PostToken (RefreshGrant current));
       match response with
       | None => ret false
       | Some response =>
           if negb (response_ok response) then ret false
           else
             do refreshed <-
               (if status_code response =? 200 then
                  do token_data <- json response;
                  let '(access_token, refresh_token, expires_in) :=
                    token_fields token_data in
                  if truthy_str access_token then
                    save_token_to_config (default EmptyString access_token)
                      refresh_token expires_in ;;;
                    modify (λ s, with_tokens access_token (hh_refresh_token s)
                                   (token_expires_at s) (config s) s) ;;;
                    (if truthy_str refresh_token then
                       modify (λ s, with_tokens (hh_access_token s)
                                      (default EmptyString refresh_token)
                                      (token_expires_at s) (config s) s)
                     else ret tt) ;;;
                    send_telegram_log "Token muvaffaqiyatli yangilandi" ;;;
                    ret true
                  else ret false
                else ret false);
             if (refreshed : bool) then ret true
             else
               send_telegram_error "Token yangilashda xatolik" ;;;
               ret false
         end)
      any_exception
      (send_telegram_error "Token yangilashda xatolik" ;;; ret false).

(** The headers, reduced to the token of [Authorization: Bearer ...]. *)
Definition get_auth_headers : M (option string) :=
  do expired <- is_token_expired;
  (if (expired : bool) then
     do ok <- refresh_access_token;
     if (ok : bool) then ret tt else raise TokenRefreshFailed
   else ret tt) ;;;
  gets hh_access_token.

Definition me_fields (b : Body) : bool * string * string :=
  match b with
  | MeBody is_employer email id => (is_employer, email, id)
  | _ => (false, "N/A"%string, EmptyString)
  end.

Fixpoint test_api_access (depth : nat) : M (bool * string) :=
  match depth with
  | O => out_of_fuel
  | S depth' =>
      emit EvTestApi ;;;
      do token <- gets hh_access_token;
      if negb (truthy_str token) then
        ret (false, "Access token bo'sh yoki mavjud emas"%string)
      else
        try_except
          (do headers <- get_auth_headers;
           do response <- make_request (GetMe headers);
           match response with
           | None => ret (false, "API ga so'rov yuborib bo'lmadi"%string)
           | Some response =>
               if negb (response_ok response) then
                 ret (false, "API ga so'rov yuborib bo'lmadi"%string)
               else
                 if status_code response =? 200 then
                   do user_data <- json response;
                   let '(is_employer, email, _) := me_fields user_data in
                   if (is_employer : bool) then
                     ret (true, "Employer account tasdiqlandi: " +:+ email)
                   else
                     ret (false, "Bu account employer emas: " +:+ email)
                 else if status_code response =? 401 then
                   do current <- gets hh_refresh_token;
                   if bool_decide (current = EmptyString) then
                     ret (false, "Access token yaroqsiz yoki muddati tugagan"%string)
                   else
                     do ok <- refresh_access_token;
                     if (ok : bool) then test_api_access depth'
                     else
                       ret (false, "Access token yaroqsiz yoki muddati tugagan"%string)
                 else if status_code response =? 403 then
                   ret (false, "Ruxsat yo'q"%string)
                 else if status_code response =? 404 then
                   ret (false, "API endpoint topilmadi - URL'ni tekshiring"%string)
                 else ret (false, "API xatolik"%string)
             end)
          any_exception
          (ret (false, "API test xatolik"%string))
  end.

(** ** Fetching the new applications *)

Definition vacancies_of (b : Body) : list Vacancy :=
  match b with
  | VacanciesBody items => items
  | _ => []
  end.

Definition negotiations_of (b : Body) : list Negotiation :=
  match b with
  | NegotiationsBody items => items
  | _ => []
  end.

(** The inner [for negotiation in negotiations]. *)
Fixpoint collect_negotiations (processed : gset string) (vacancy_name : string)
    (negotiations : list Negotiation) (applications : list Application)
    : list Application :=
  match negotiations with
  | [] => applications
  | negotiation :: rest =>
      let app_id := neg_id negotiation in
      if negb (bool_decide (app_id = EmptyString))
         && negb (bool_decide (app_id ∈ processed))
      then
        collect_negotiations processed vacancy_name rest
          (applications ++ [ {| negotiation := negotiation;
                                vacancy_name := vacancy_name |} ])
      else collect_negotiations processed vacancy_name rest applications
  end.

(** The body of [for vacancy in vacancies]. *)
Definition fetch_negotiations (headers : option string) (vacancy : Vacancy)
    (applications : list Application) : M (list Application) :=
  let vacancy_id := vac_id vacancy in
  let vacancy_name := default "Noma'lum vakansiya"%string (vac_name vacancy) in
  if bool_decide (vacancy_id = EmptyString) then ret applications
  else
    try_except
      (do negotiations_response <-
         make_request (GetNegotiations headers vacancy_id 100 0);
       match negotiations_response with
       | Some r =>
           if response_ok r && (status_code r =? 200) then
             do negotiations_data <- json r;
             do processed <- gets processed_ids;
             ret (collect_negotiations processed vacancy_name
                    (negotiations_of negotiations_data) applications)
           else ret applications
       | None => ret applications
       end)
      any_exception
      (ret applications).

Fixpoint for_vacancies (headers : option string) (vacancies : list Vacancy)
    (applications : list Application) : M (list Application) :=
  match vacancies with
  | [] => ret applications
  | vacancy :: rest =>
      do applications' <- fetch_negotiations headers vacancy applications;
      for_vacancies headers rest applications'
  end.

Definition get_hh_applications : M (list Application) :=
  do token <- gets hh_access_token;
  if negb (truthy_str token) then
    send_telegram_error "Access token mavjud emas!" ;;; ret []
  else
    try_except
      (do headers <- get_auth_headers;
       do me_response <- make_request (GetMe headers);
       match me_response with
       | None =>
           send_telegram_error "Employer ID olishda xatolik" ;;; ret []
       | Some me_r =>
           if negb (response_ok me_r) || negb (status_code me_r =? 200) then
             send_telegram_error "Employer ID olishda xatolik" ;;; ret []
           else
             do employer_data <- json me_r;
             let '(_, _, employer_id) := me_fields employer_data in
             if bool_decide (employer_id = EmptyString) then
               send_telegram_error "Employer ID topilmadi!" ;;; ret []
             else
               do vacancies_response <-
                 make_request (GetVacancies headers employer_id 100 0);
               match vacancies_response with
               | None =>
                   send_telegram_error "Vakansiyalarni olishda xatolik" ;;;
                   ret []
               | Some v_r =>
                   if negb (response_ok v_r) || negb (status_code v_r =? 200)
                   then
                     send_telegram_error "Vakansiyalarni olishda xatolik" ;;;
                     ret []
                   else
                     do vacancies_data <- json v_r;
                     match vacancies_of vacancies_data with
                     | [] => ret []
                     | vacancies => for_vacancies headers vacancies []
                     end
               end
       end)
      any_exception
      (send_telegram_error "HH API ga murojaat qilishda xatolik" ;;; ret []).

(** ** Creating a lead *)

Definition lead_fields_of (a : Application) : LeadFields :=
  {| lead_title := vacancy_name a; lead_source := negotiation a |}.

Definition lead_result (b : Body) : option Z :=
  match b with
  | LeadBody r => r
  | _ => None
  end.

Definition create_bitrix_lead (application : Application) : M bool :=
  emit (EvCreateLead application) ;;;
  try_except
    (let fields := lead_fields_of application in
     do response <- make_request (PostLead fields);
     match response with
     | None =>
         send_telegram_error "Bitrix24 ga so'rov yuborib bo'lmadi" ;;;
         ret false
     | Some r =>
         if negb (response_ok r) then
           send_telegram_error "Bitrix24 ga so'rov yuborib bo'lmadi" ;;;
           ret false
         else if status_code r =? 200 then
           do result <- json r;
           if truthy_int (lead_result result) then
             send_telegram_success fields (default 0%Z (lead_result result)) ;;;
             ret true
           else
             send_telegram_error "Bitrix xatolik" ;;; ret false
         else
           send_telegram_error "Bitrix API xatolik" ;;; ret false
     end)
    any_exception
    (send_telegram_error "Lead yaratishda xatolik" ;;; ret false).

(** ** The synchronisation cycle *)

(** [try: m except Exception: ...] around one statement, telling whether it
    went through. *)
Definition caught {A} (m : M A) : M (option A) :=
  try_except (do a <- m; ret (Some a)) any_exception (ret None).

(** The body of [for application in applications]; [counts] holds
    [processed_count] and [success_count]. *)
Definition process_one (application : Application) (counts : nat * nat)
    : M (nat * nat) :=
  let '(processed_count, success_count) := counts in
  let app_id := neg_id (negotiation application) in
  do seen <- gets (λ s, bool_decide (app_id ∈ processed_ids s));
  if (seen : bool) then ret counts
  else
    do created <- caught (create_bitrix_lead application);
    match created with
    | None => ret counts
    | Some ok =>
        let success_count :=
          if (ok : bool) then S success_count else success_count in
        do saved <- caught (save_processed_id app_id);
        match saved with
        | None => ret (processed_count, success_count)
        | Some _ =>
            do _ <- caught (sleep BatchPause (seconds 2));
            ret (S processed_count, success_count)
        end
    end.

Fixpoint for_applications (applications : list Application)
    (counts : nat * nat) : M (nat * nat) :=
  match applications with
  | [] => ret counts
  | application :: rest =>
      do counts' <- process_one application counts;
      for_applications rest counts'
  end.

(** The loop over the fetched applications and the report that follows. *)
Definition process_batch (applications : list Application) : M unit :=
  do counts <- for_applications applications (O, O);
  let '(processed_count, success_count) := counts in
  if Nat.ltb 0 processed_count then
    send_telegram_message
      (MsgSummary processed_count success_count
         (processed_count - success_count))
  else ret tt.

Definition process_applications (depth : nat) : M unit :=
  try_except
    (do access <- test_api_access depth;
     let '(api_ok, api_message) := access in
     if negb api_ok then
       send_telegram_error ("API ga kira olmayapman: " +:+ api_message)
     else
       do applications <- get_hh_applications;
       match applications with
       | [] => ret tt
       | _ => process_batch applications
       end)
    any_exception
    (send_telegram_error "Asosiy jarayonda xatolik").

(** ** Compaction of the ledger *)

Definition max_ledger_bytes : Z := 10 * 1024 * 1024.
Definition max_ledger_lines : Z := 10000.

(** [os.path.getsize] *)
Definition file_size (content : string) : Z := Z.of_nat (String.length content).

(** The date in the name of the backup file, as a day number. *)
Definition today (s : State) : Z := now s / seconds 86400.

(** [lines[-10000:] if len(lines) > 10000 else lines] *)
Definition keep_lines (lines : list string) : list string :=
  if max_ledger_lines <? Z.of_nat (length lines)
  then last_n (Z.to_nat max_ledger_lines) lines
  else lines.

Definition cleanup_old_processed_ids : M unit :=
  try_except
    (do f <- gets ledger_file;
     match f with
     | None => ret tt
     | Some _ =>
         do backup_file <- gets today;
         do existing <- gets (λ s, backup_files s !! backup_file);
         match existing with
         | Some _ => ret tt
         | None =>
             file_op ;;;
             do src <- gets (λ s, universal_newlines (file_content (ledger_file s)));
             file_op ;;;
             modify (λ s, with_files (ledger_file s)
                            (<[backup_file := src]> (backup_files s))
                            (config_file s) s)
         end ;;;
         file_op ;;;
         do size <- gets (λ s, file_size (file_content (ledger_file s)));
         if max_ledger_bytes <? size then
           file_op ;;;
           do lines <- gets (λ s, readlines (file_content (ledger_file s)));
           let kept := keep_lines lines in
           file_op ;;;
           modify (λ s, with_files (Some (writelines kept))
                          (backup_files s) (config_file s) s) ;;;
           modify (with_processed_ids (ids_of_lines kept))
         else ret tt
     end)
    any_exception
    (ret tt).

(** ** Start of the process: [__init__] *)

Definition startup : M unit :=
  modify (λ s,
    let c := config_file s in
    let raw_token := strip (cfg_access_token c) in
    with_tokens
      (if bool_decide (raw_token = EmptyString) then None else Some raw_token)
      (strip (cfg_refresh_token c)) (cfg_token_expires_at c) c s) ;;;
  do ids <- load_processed_ids;
  modify (with_processed_ids ids) ;;;
  modify (with_last_request_time 0).

End Program.

(** * Observations on runs *)

(** The state a computation ends in. *)
Definition exec {A} (m : M A) (s : State) : State := (m s).2.

Definition request_of (e : Event) : option Request :=
  match e with
  | EvRequest _ r => Some r
  | _ => None
  end.

Definition start_of (e : Event) : option Z :=
  match e with
  | EvRequest t _ => Some t
  | _ => None
  end.

Definition lead_of (e : Event) : option Application :=
  match e with
  | EvCreateLead a => Some a
  | _ => None
  end.

Definition record_of (e : Event) : option string :=
  match e with
  | EvRecord id => Some id
  | _ => None
  end.

Definition refresh_of (e : Event) : option unit :=
  match e with
  | EvRefresh => Some tt
  | _ => None
  end.

Definition test_of (e : Event) : option unit :=
  match e with
  | EvTestApi => Some tt
  | _ => None
  end.

(** Everything but the pacing sleeps of [rate_limit] and the method entries. *)
Definition transport_of (e : Event) : option Event :=
  match e with
  | EvRequest _ _ => Some e
  | EvSleep Pacing _ => None
  | EvSleep _ _ => Some e
  | _ => None
  end.

(** The outbound calls of a log, oldest first. *)
Definition attempts (l : list Event) : list Request := omap request_of l.

(** The times at which the outbound calls of a log began. *)
Definition request_starts (l : list Event) : list Z := omap start_of l.

(** The applications handed to [create_bitrix_lead]. *)
Definition leads (l : list Event) : list Application := omap lead_of l.

Definition app_id (a : Application) : string := neg_id (negotiation a).

Definition lead_ids (l : list Event) : list string := map app_id (leads l).

(** The identifiers handed to [save_processed_id]. *)
Definition records (l : list Event) : list string := omap record_of l.

(** How many times [refresh_access_token] was entered. *)
Definition refreshes (l : list Event) : nat := length (omap refresh_of l).

(** How many times [test_api_access] was entered. *)
Definition access_tests (l : list Event) : nat := length (omap test_of l).

Definition transport_trace (l : list Event) : list Event := omap transport_of l.

(** A computation keeps a relation between the state it starts from and the
    state it ends in. *)
Definition preserves {A} (R : State → State → Prop) (m : M A) : Prop :=
  ∀ s, R s (exec m s).

(** ** The request layer, step by step *)

(** The state [rate_limit] leaves. *)
Definition stamped (s : State) : State :=
  let time_since_last := now s - last_request_time s in
  let s1 := if time_since_last <? min_request_interval
            then slept Pacing (min_request_interval - time_since_last) s
            else s in
  with_last_request_time (now s1) s1.

Arguments stamped : simpl never.

(** The state after [rate_limit] and the outbound call that follows it. *)
Definition called (w : World) (req : Request) (s : State) : State :=
  requested w req (stamped s).

Arguments called : simpl never.

(** What [time.sleep] makes of a wait read from outside: it takes it, or
    raises. *)
Definition accepted_wait (w : World) (d : Z) : Exn + Z :=
  if clock_limit <? Z.abs d then inl OverflowError
  else if d <? 0 then inl ValueError
  else if sleep_limit w <? d then inl OSError
  else inr d.

(** What the 429 branch of [make_request] comes to for an answer: the time
    it sleeps, or the exception that [int] or [time.sleep] raises there. *)
Definition retry_after_wait (w : World) (r : Response) : Exn + Z :=
  match retry_after r with
  | NoRetryAfter => accepted_wait w retry_delay
  | BadRetryAfter => inl ValueError
  | RetryAfterSeconds n => accepted_wait w (seconds n)
  end.

(** The [n]-th outbound call, made for [req], is one after which the loop
    of [make_request] goes on to its next round: the transport failed, or
    the answer was a 429 whose wait was slept. *)
Definition goes_on (w : World) (req : Request) (n : nat) : Prop :=
  http w n req = Fails
  ∨ ∃ r d, http w n req = Answers r ∧ status_code r = 429
           ∧ retry_after_wait w r = inr d.

Definition rate_limit_answer (n : Z) : Response :=
  {| status_code := 429; retry_after := RetryAfterSeconds n; body := EmptyObject |}.

Definition answer (code : Z) (b : Body) : Response :=
  {| status_code := code; retry_after := NoRetryAfter; body := b |}.

Definition no_credentials : Credentials :=
  {| cfg_access_token := EmptyString; cfg_refresh_token := EmptyString;
     cfg_token_expires_at := None |}.

Definition stored_credentials : Credentials :=
  {| cfg_access_token := "token"; cfg_refresh_token := "refresh";
     cfg_token_expires_at := None |}.

(** A process that has just started with a token and an empty ledger. *)
Definition fresh_state : State :=
  {| hh_access_token := Some "token"%string;
     hh_refresh_token := "refresh"%string;
     token_expires_at := None;
     processed_ids := ∅;
     last_request_time := 0;
     config := stored_credentials;
     ledger_file := None;
     backup_files := ∅;
     config_file := stored_credentials;
     now := seconds 1700000000;
     n_requests := 0; n_io := 0; log := [] |}.

(** An upstream whose first [k] calls fail at the transport level and which
    answers 200 afterwards. *)
Definition failing_first (k : nat) : World :=
  {| http := λ n _, if Nat.ltb n k then Fails else Answers (answer 200 EmptyObject);
     latency := λ _, 250;
     io_ok := λ _, true;
     sleep_limit := clock_limit |}.

(** An upstream that answers every call with 429 and [Retry-After: 7]. *)
Definition always_rate_limited : World :=
  {| http := λ _ _, Answers (rate_limit_answer 7);
     latency := λ _, 250;
     io_ok := λ _, true;
     sleep_limit := clock_limit |}.

(** An upstream that answers 429 once and 200 afterwards. *)
Definition rate_limited_once : World :=
  {| http := λ n _, if Nat.eqb n 0 then Answers (rate_limit_answer 7)
                    else Answers (answer 200 EmptyObject);
     latency := λ _, 250;
     io_ok := λ _, true;
     sleep_limit := clock_limit |}.

(** ** Pacing *)

(** Any two elements of a list of times, the later at least [gap] after the
    earlier. *)
Definition pairwise_spaced (gap : Z) (l : list Z) : Prop :=
  ∀ i j ti tj, (i < j)%nat → l !! i = Some ti → l !! j = Some tj →
    ti + gap ≤ tj.

(** The outbound calls made so far are paced, and none began after the time
    [rate_limit] recorded last. *)
Definition paced (s : State) : Prop :=
  pairwise_spaced min_request_interval (request_starts (log s))
  ∧ Forall (λ t, t ≤ last_request_time s) (request_starts (log s)).

(** A client of the request layer: one call after the other, with idle time
    in between; what a call returns or raises does not stop the next. *)
Fixpoint call_sequence (w : World) (calls : list (Z * Request)) : M unit :=
  match calls with
  | [] => ret tt
  | (idle, req) :: rest =>
      do _ <- caught (sleep Idle idle);
      do _ <- caught (make_request w req);
      call_sequence w rest
  end.

(** An upstream that answers at once, so that only [rate_limit] separates
    the calls. *)
Definition instant_upstream : World :=
  {| http := λ n _, if Nat.eqb n 1 then Fails else Answers (answer 200 EmptyObject);
     latency := λ _, 0;
     io_ok := λ _, true;
     sleep_limit := clock_limit |}.

(** ** Outcomes *)

(** A computation that does not stop for lack of recursion depth. *)
Definition safe {A} (m : M A) : Prop := ∀ s, (m s).1 ≠ OutOfFuel.

(** A computation that always returns a value: it raises nothing. *)
Definition returns {A} (m : M A) : Prop := ∀ s, ∃ a, (m s).1 = Ok a.

(** ** Tokens *)

Definition with_expiry (e : option Z) (s : State) : State :=
  with_tokens (hh_access_token s) (hh_refresh_token s) e (config s) s.

(** The token expires two minutes from now. *)
Definition expiring_state : State :=
  with_expiry (Some (now fresh_state + seconds 120)) fresh_state.

(** The token expires one hour from now. *)
Definition valid_state : State :=
  with_expiry (Some (now fresh_state + seconds 3600)) fresh_state.

(** An upstream that grants every refresh with a token good for an hour,
    and answers 200 with an empty object to everything else. *)
Definition granting_upstream : World :=
  {| http := λ _ req,
       match req with
       | PostToken _ =>
           Answers (answer 200 (TokenBody (Some "renewed"%string)
                                  (Some "refresh-2"%string) (Some 3600)))
       | _ => Answers (answer 200 EmptyObject)
       end;
     latency := λ _, 250;
     io_ok := λ _, true;
     sleep_limit := clock_limit |}.

(** Whenever the computation returns a value, the value satisfies [Q]. *)
Definition yields {A} (Q : A → Prop) (m : M A) : Prop :=
  ∀ s a s', m s = (Ok a, s') → Q a.

(** ** The access test and the fetch *)

(** An upstream that answers 401 to [/me], would grant a token refresh, and
    answers 200 to everything else. *)
Definition unauthorized_upstream : World :=
  {| http := λ _ req,
       match req with
       | GetMe _ => Answers (answer 401 EmptyObject)
       | PostToken _ =>
           Answers (answer 200 (TokenBody (Some "renewed"%string)
                                  (Some "refresh-2"%string) (Some 3600)))
       | _ => Answers (answer 200 EmptyObject)
       end;
     latency := λ _, 250;
     io_ok := λ _, true;
     sleep_limit := clock_limit |}.

(** A listing call that asks for the first page, a hundred items long. *)
Definition first_page_only (e : Event) : Prop :=
  match e with
  | EvRequest _ (GetVacancies _ _ per_page page)
  | EvRequest _ (GetNegotiations _ _ per_page page) =>
      per_page = 100 ∧ page = 0
  | _ => True
  end.

(** The log has grown by events that all satisfy [P]. *)
Definition extends_with (P : Event → Prop) (s s' : State) : Prop :=
  ∃ new, log s' = log s ++ new ∧ Forall P new.

(** The application was built from a negotiation that the upstream served
    on the first page of some posting. *)
Definition from_first_page (w : World) (a : Application) : Prop :=
  ∃ n h vacancy_id r,
    http w n (GetNegotiations h vacancy_id 100 0) = Answers r
    ∧ negotiation a ∈ negotiations_of (body r).

(** The same, and the identifier is not empty. *)
Definition fetched (w : World) (a : Application) : Prop :=
  from_first_page w a ∧ neg_id (negotiation a) ≠ EmptyString.

(** The token is in place and not due for a refresh. *)
Definition token_ready (s : State) (token : string) : Prop :=
  hh_access_token s = Some token
  ∧ token ≠ EmptyString
  ∧ match token_expires_at s with
    | Some expires_at => now s < expires_at - refresh_margin
    | None => True
    end.

(** Whenever it is asked, the upstream answers the request with a 200
    that carries the body [b]. *)
Definition answers_with (w : World) (req : Request) (b : Body) : Prop :=
  ∀ n, ∃ r, http w n req = Answers r ∧ status_code r = 200 ∧ body r = b.

(** An upstream that is up: asked with [headers], it tells the account
    [employer_id], the first page of its postings, [vacancies], and the
    first page of the negotiations of each of them. *)
Definition serves (w : World) (headers : option string) (employer_id : string)
    (vacancies : list Vacancy) (negotiations : string → list Negotiation)
    : Prop :=
  employer_id ≠ EmptyString
  ∧ (∃ is_employer email,
       answers_with w (GetMe headers) (MeBody is_employer email employer_id))
  ∧ answers_with w (GetVacancies headers employer_id 100 0)
      (VacanciesBody vacancies)
  ∧ ∀ v, v ∈ vacancies →
         answers_with w (GetNegotiations headers (vac_id v) 100 0)
           (NegotiationsBody (negotiations (vac_id v))).

(** The postings of a page that have an identifier. *)
Definition with_id (vacancies : list Vacancy) : list Vacancy :=
  filter (λ v, vac_id v ≠ EmptyString) vacancies.

(** The negotiations of a page that are new: the identifier is not empty
    and not in the set.  Each comes with the name of its posting. *)
Definition new_applications (processed : gset string) (vacancy : Vacancy)
    (negotiations : list Negotiation) : list Application :=
  map (λ n, {| negotiation := n;
               vacancy_name := default "Noma'lum vakansiya"%string
                                 (vac_name vacancy) |})
      (filter (λ n, neg_id n ≠ EmptyString ∧ neg_id n ∉ processed)
         negotiations).

(** Everything new on the first pages, posting after posting. *)
Definition first_page_applications (processed : gset string)
    (vacancies : list Vacancy) (negotiations : string → list Negotiation)
    : list Application :=
  flat_map (λ v, new_applications processed v (negotiations (vac_id v)))
    (with_id vacancies).

(** The calls that read the first pages of the negotiations. *)
Definition negotiation_calls (headers : option string)
    (vacancies : list Vacancy) : list Request :=
  map (λ v, GetNegotiations headers (vac_id v) 100 0) (with_id vacancies).

Definition candidate (n : nat) : Negotiation :=
  {| neg_id := pretty n; neg_resume := "resume"%string |}.

(** Page [page] of a listing served [per_page] items at a time. *)
Definition page_of {A} (all : list A) (per_page page : Z) : list A :=
  take (Z.to_nat per_page) (drop (Z.to_nat (page * per_page)) all).

Definition paged_vacancies : list Vacancy :=
  [ {| vac_id := "v1"; vac_name := Some "Engineer"%string |} ].

(** An employer with one posting and 101 negotiations on it, served in
    pages of the size asked for. *)
Definition paged_upstream : World :=
  {| http := λ _ req,
       match req with
       | GetMe _ => Answers (answer 200 (MeBody true "hr@example.org" "77"))
       | GetVacancies _ _ per_page page =>
           Answers (answer 200 (VacanciesBody
             (page_of paged_vacancies per_page page)))
       | GetNegotiations _ _ per_page page =>
           Answers (answer 200 (NegotiationsBody
             (page_of (map candidate (seq 1 101)) per_page page)))
       | _ => Answers (answer 200 EmptyObject)
       end;
     latency := λ _, 250;
     io_ok := λ _, true;
     sleep_limit := clock_limit |}.

(** ** Compaction *)

Definition with_backups (b : gmap Z string) (s : State) : State :=
  with_files (ledger_file s) b (config_file s) s.

Definition with_io (k : nat) (s : State) : State :=
  with_clock (now s) (n_requests s) k s.

(** Every file operation goes through. *)
Definition reliable_files (w : World) : Prop := ∀ n, io_ok w n = true.

(** A state whose ledger holds three identifiers. *)
Definition small_ledger_state : State :=
  with_processed_ids {[ "11"%string; "12"%string; "13"%string ]}
    (with_files (Some (id_line "11" +:+ id_line "12" +:+ id_line "13"))
       ∅ no_credentials fresh_state).

(** A world where nothing fails and every call is answered 200. *)
Definition calm_world : World :=
  {| http := λ _ _, Answers (answer 200 EmptyObject);
     latency := λ _, 250;
     io_ok := λ _, true;
     sleep_limit := clock_limit |}.

(** An identifier six million characters long, and a ledger of two such
    lines: more than 10MB in two lines. *)
Definition huge_id : string := string_repeat (Z.to_nat 6000000) "x"%char.

Definition huge_ledger : string := id_line huge_id +:+ id_line huge_id.

Definition large_ledger_state : State :=
  with_files (Some huge_ledger) ∅ no_credentials fresh_state.

(** The same, with a backup of today's date already on disk. *)
Definition backed_up_state : State :=
  with_files (Some huge_ledger) {[ today fresh_state := "stale"%string ]}
    no_credentials fresh_state.

(** ** The ledger during a cycle *)

Definition ledger_of_event (e : Event) : option Event :=
  match e with
  | EvCreateLead _ | EvRecord _ => Some e
  | _ => None
  end.

(** The entries of [create_bitrix_lead] and [save_processed_id], in the
    order they happened. *)
Definition ledger_trace (l : list Event) : list Event := omap ledger_of_event l.

(** The in-memory set, the ledger file, and the deliveries and recordings
    made so far. *)
Definition ledger_view (s : State) : gset string * option string * list Event :=
  (processed_ids s, ledger_file s, ledger_trace (log s)).

Definition ledger_untouched (s s' : State) : Prop :=
  ledger_view s' = ledger_view s.

(** The applications of a fetched list that a cycle tries to deliver: the
    first occurrence of every identifier that is not in the set yet (every
    attempt is recorded before the next application is looked at). *)
Fixpoint attempted (seen : gset string) (apps : list Application)
    : list Application :=
  match apps with
  | [] => []
  | a :: rest =>
      if bool_decide (app_id a ∈ seen) then attempted seen rest
      else a :: attempted (seen ∪ {[ app_id a ]}) rest
  end.

(** The applications of a fetched list that the loop of a cycle takes up:
    those whose identifier is not in the set when their turn comes, the
    others being skipped. *)
Fixpoint taken_up (w : World) (apps : list Application) (s : State)
    : list Application :=
  match apps with
  | [] => []
  | a :: rest =>
      if bool_decide (app_id a ∈ processed_ids s) then taken_up w rest s
      else a :: taken_up w rest (exec (process_one w a (O, O)) s)
  end.

(** What [save_processed_id] records of an application that is taken up
    in state [s]: its identifier, when the append that follows the
    delivery goes through. *)
Definition recorded_of (w : World) (a : Application) (s : State) : list string :=
  if io_ok w (n_io (exec (create_bitrix_lead w a) s)) then [app_id a] else [].

(** The identifiers that the loop of a cycle records. *)
Fixpoint recorded_ids (w : World) (apps : list Application) (s : State)
    : list string :=
  match apps with
  | [] => []
  | a :: rest =>
      if bool_decide (app_id a ∈ processed_ids s) then recorded_ids w rest s
      else recorded_of w a s
           ++ recorded_ids w rest (exec (process_one w a (O, O)) s)
  end.

(** What one attempted application leaves in the ledger trace. *)
Definition delivery (a : Application) : list Event :=
  [EvCreateLead a; EvRecord (app_id a)].

Definition succeeded_count (ok : bool) : nat := if ok then 1%nat else 0%nat.

(** An employer with one posting and one negotiation on it, whose leads the
    sink accepts; [disk_ok] tells whether file operations go through. *)
Definition one_candidate (id : string) (disk_ok : bool) : World :=
  {| http := λ _ req,
       match req with
       | GetMe _ => Answers (answer 200 (MeBody true "hr@example.org" "77"))
       | GetVacancies _ _ _ _ =>
           Answers (answer 200 (VacanciesBody
             [ {| vac_id := "v1"; vac_name := Some "Engineer"%string |} ]))
       | GetNegotiations _ _ _ _ =>
           Answers (answer 200 (NegotiationsBody
             [ {| neg_id := id; neg_resume := "resume" |} ]))
       | PostLead _ => Answers (answer 200 (LeadBody (Some 501)))
       | _ => Answers (answer 200 EmptyObject)
       end;
     latency := λ _, 250;
     io_ok := λ _, disk_ok;
     sleep_limit := clock_limit |}.

Definition application (id : string) : Application :=
  {| negotiation := {| neg_id := id; neg_resume := "resume" |};
     vacancy_name := "Engineer" |}.

(** A sink that accepts the lead of candidate 1 and answers every other
    lead with a 200 whose body carries no result. *)
Definition rejecting_sink : World :=
  {| http := λ _ req,
       match req with
       | PostLead f =>
           if String.eqb (neg_id (lead_source f)) "1"
           then Answers (answer 200 (LeadBody (Some 501)))
           else Answers (answer 200 EmptyObject)
       | _ => Answers (answer 200 EmptyObject)
       end;
     latency := λ _, 250;
     io_ok := λ _, true;
     sleep_limit := clock_limit |}.

(** ** Cycles, compactions and restarts *)

(** What the ledger goes through in the life of the process: the two jobs
    of [start_scheduler] that reach it, and the start of the process. *)
Inductive Step :=
| Cycle (depth : nat)     (* one run of process_applications *)
| Cleanup                 (* the daily run of cleanup_old_processed_ids *)
| Restart.                (* the process stops and starts again *)

Definition step (w : World) (st : Step) : M unit :=
  match st with
  | Cycle depth => process_applications w depth
  | Cleanup => cleanup_old_processed_ids w
  | Restart => startup w
  end.

Fixpoint run (w : World) (steps : list Step) (s : State) : State :=
  match steps with
  | [] => s
  | st :: rest => run w rest (exec (step w st) s)
  end.

(** The ledger file is one that compaction leaves whole: no larger than
    10MB, or of no more than 10000 lines. *)
Definition within_limits (s : State) : Prop :=
  file_size (file_content (ledger_file s)) ≤ max_ledger_bytes
  ∨ Z.of_nat (length (readlines (file_content (ledger_file s))))
    ≤ max_ledger_lines.

(** No compaction of the run throws an identifier away: whenever
    [cleanup_old_processed_ids] runs, the ledger file is within limits. *)
Fixpoint keeps_all_ids (w : World) (steps : list Step) (s : State) : Prop :=
  match steps with
  | [] => True
  | st :: rest =>
      match st with
      | Cleanup => within_limits s
      | _ => True
      end
      ∧ keeps_all_ids w rest (exec (step w st) s)
  end.

(** Every negotiation the upstream serves has an identifier that is empty,
    or is a text that reads back from a ledger line as itself. *)
Definition clean_upstream (w : World) : Prop :=
  ∀ n req r neg,
    http w n req = Answers r → neg ∈ negotiations_of (body r) →
    neg_id neg ≠ EmptyString →
    utf8 (neg_id neg) = true ∧ clean_id (neg_id neg) = true.

(** The ledger file is a list of clean identifiers, one per line, the set
    in memory holds the same identifiers, and every application delivered so
    far was delivered once and is in the set. *)
Definition consistent (s : State) : Prop :=
  (∃ ids, Forall (λ id, clean_id id = true) ids
          ∧ file_content (ledger_file s) = ledger_of ids
          ∧ processed_ids s = list_to_set ids)
  ∧ NoDup (lead_ids (log s))
  ∧ (∀ id, id ∈ lead_ids (log s) → id ∈ processed_ids s).

(** * Further observations *)

(** ** The request layer *)

(** The [n]-th outbound call, made for [req], is one after which
    [make_request] goes round its loop again: the transport failed, or the
    answer was a 429. *)
Definition retried (w : World) (req : Request) (n : nat) : Prop :=
  http w n req = Fails
  ∨ ∃ r, http w n req = Answers r ∧ status_code r = 429.

(** An upstream that answers every call with a 429 whose [Retry-After]
    header holds a date, which [int] rejects. *)
Definition dated_retry_after : World :=
  {| http := λ _ _, Answers {| status_code := 429; retry_after := BadRetryAfter;
                               body := EmptyObject |};
     latency := λ _, 250;
     io_ok := λ _, true;
     sleep_limit := clock_limit |}.

(** An upstream that answers every call with a 429 that asks for a wait of
    10^20 seconds. *)
Definition endless_retry_after : World :=
  {| http := λ _ _, Answers (rate_limit_answer (10 ^ 20));
     latency := λ _, 250;
     io_ok := λ _, true;
     sleep_limit := clock_limit |}.

(** ** What a process holds *)

(** Everything a process holds apart from the clock, the pacing stamp and
    the counters: the token attributes, the set of processed identifiers,
    the configuration and the files. *)
Definition holdings (s : State)
    : option string * string * option Z * gset string * Credentials
      * option string * gmap Z string * Credentials :=
  (hh_access_token s, hh_refresh_token s, token_expires_at s,
   processed_ids s, config s, ledger_file s, backup_files s, config_file s).

(** An upstream that grants every refresh with a token and says nothing of
    its lifetime, and answers 200 with an empty object to everything else. *)
Definition silent_on_expiry : World :=
  {| http := λ _ req,
       match req with
       | PostToken _ =>
           Answers (answer 200 (TokenBody (Some "renewed"%string) None None))
       | _ => Answers (answer 200 EmptyObject)
       end;
     latency := λ _, 250;
     io_ok := λ _, true;
     sleep_limit := clock_limit |}.

(** ** The ledger *)

(** Between [s] and [s'] the ledger has only grown, by the identifiers
    [ids]: they were added to the set in memory and appended to the file,
    one line each, and each of them was handed to [create_bitrix_lead] in
    between. *)
Definition ledger_grows_by (ids : list string) (s s' : State) : Prop :=
  processed_ids s' = processed_ids s ∪ list_to_set ids
  ∧ file_content (ledger_file s')
    = file_content (ledger_file s) +:+ ledger_of ids
  ∧ ∃ more, lead_ids (log s') = lead_ids (log s) ++ more
            ∧ Forall (λ id, id ∈ more) ids.

(** The same, for some identifiers. *)
Definition ledger_grows (s s' : State) : Prop := ∃ ids, ledger_grows_by ids s s'.

(** ** Outcomes that say something of the upstream *)

(** The message of a successful access test tells the account of an
    employer that the upstream returned for [/me]. *)
Definition confirmed_by (w : World) (access : bool * string) : Prop :=
  access.1 = true →
  ∃ n token r email id,
    http w n (GetMe token) = Answers r
    ∧ status_code r = 200
    ∧ body r = MeBody true email id
    ∧ access.2 = "Employer account tasdiqlandi: " +:+ email.

(** A delivery reported as successful was accepted by the sink: it answered
    the lead with a 200 whose body carries a result that is not zero. *)
Definition accepted_by (w : World) (a : Application) (ok : bool) : Prop :=
  ok = true →
  ∃ n r lead_id,
    http w n (PostLead (lead_fields_of a)) = Answers r
    ∧ status_code r = 200
    ∧ body r = LeadBody (Some lead_id)
    ∧ lead_id ≠ 0.

(** Started with [P] as the set of processed identifiers, the computation
    leaves the set as it is, and a value it returns satisfies [Q]. *)
Definition fetches {A} (P : gset string) (Q : A → Prop) (m : M A) : Prop :=
  ∀ s, processed_ids s = P →
       processed_ids (exec m s) = P ∧ ∀ a s', m s = (Ok a, s') → Q a.

(** An application with an identifier, which is not in the set. *)
Definition new_to (P : gset string) (a : Application) : Prop :=
  app_id a ≠ EmptyString ∧ app_id a ∉ P.

(** ** Shapes of text *)

(** A text that is empty or ends with a line feed. *)
Fixpoint line_terminated (s : string) : bool :=
  match s with
  | EmptyString => true
  | String c s' =>
      match s' with
      | EmptyString => is_lf c
      | String _ _ => line_terminated s'
      end
  end.

(** No CR in the text. *)
Fixpoint no_cr (s : string) : bool :=
  match s with
  | EmptyString => true
  | String c s' => negb (is_cr c) && no_cr s'
  end.

(** A line as reading in text mode yields it: no CR in it, and no LF but
    possibly at its end. *)
Definition line_shaped (l : string) : Prop :=
  ∃ stem, no_line_break stem = true
          ∧ (l = stem ∨ l = stem +:+ String LF EmptyString).

(** Lines as [readlines] yields them: none is empty, every one but the last
    ends with its LF, and none holds a CR, or an LF elsewhere. *)
Fixpoint well_lined (lines : list string) : Prop :=
  match lines with
  | [] => True
  | l :: rest =>
      match rest with
      | [] => line_shaped l ∧ l ≠ EmptyString
      | _ :: _ =>
          (∃ stem, no_line_break stem = true
                   ∧ l = stem +:+ String LF EmptyString)
          ∧ well_lined rest
      end
  end.

(** * The lead payload, field by field

    [create_bitrix_lead] and [format_comments] take the negotiation apart
    with [dict.get]; here the decoded JSON is kept as it is.  Numbers are
    integers.  A Python dict is the list of its items, each key once.
    [None] as a result stands for the exception that ends the computation:
    the [AttributeError] of a [.get] on a value that is not a dict, or the
    error of an index that is not there. *)

#[warnings="-register-all"]
Inductive Json :=
| JNull
| JBool (b : bool)
| JNum (n : Z)
| JStr (s : string)
| JList (items : list Json)
| JObj (fields : list (string * Json)).

(** [bool(v)] *)
Definition truthy (v : Json) : bool :=
  match v with
  | JNull => false
  | JBool b => b
  | JNum n => negb (n =? 0)
  | JStr s => negb (bool_decide (s = EmptyString))
  | JList items => negb (bool_decide (items = []))
  | JObj fields => negb (bool_decide (fields = []))
  end.

(** [isinstance(v, dict)] and [isinstance(v, list)] *)
Definition is_dict (v : Json) : bool :=
  match v with JObj _ => true | _ => false end.

Definition is_list (v : Json) : bool :=
  match v with JList _ => true | _ => false end.

(** [v == text] for a string literal [text] *)
Definition is_str (text : string) (v : Json) : bool :=
  match v with JStr s => bool_decide (s = text) | _ => false end.

Fixpoint item (key : string) (fields : list (string * Json)) : option Json :=
  match fields with
  | [] => None
  | (k, v) :: rest => if bool_decide (k = key) then Some v else item key rest
  end.

(** [d.get(key, fallback)] *)
Definition dict_get (d : Json) (key : string) (fallback : Json) : option Json :=
  match d with
  | JObj fields => Some (default fallback (item key fields))
  | _ => None
  end.

(** [v[0]] *)
Definition first_of (v : Json) : option Json :=
  match v with
  | JList (x :: _) => Some x
  | JStr (String c _) => Some (JStr (String c EmptyString))
  | _ => None
  end.

(** [sep.join(parts)] *)
Fixpoint join (sep : string) (parts : list string) : string :=
  match parts with
  | [] => EmptyString
  | [p] => p
  | p :: rest => p +:+ sep +:+ join sep rest
  end.

Definition newline : string := String LF EmptyString.

Section Payload.

(** [repr] of a list or of a dict, which is what an f-string shows of one. *)
Variable repr : Json → string.

(** [f"{v}"] *)
Definition py_str (v : Json) : string :=
  match v with
  | JNull => "None"
  | JBool true => "True"
  | JBool false => "False"
  | JNum n => pretty n
  | JStr s => s
  | JList _ | JObj _ => repr v
  end.

(** [if v: comments.append(f"{label}{v}")] *)
Definition comment (label : string) (v : Json) : list string :=
  if truthy v then [label +:+ py_str v] else [].

(** The part of [format_comments] on the salary. *)
Definition salary_comment (salary : Json) : option (list string) :=
  if truthy salary then
    salary_from ← dict_get salary "from" JNull;
    salary_to ← dict_get salary "to" JNull;
    currency ← dict_get salary "currency" (JStr "UZS");
    let salary_text :=
      if truthy salary_from && truthy salary_to then
        "Maosh: " +:+ py_str salary_from +:+ "-" +:+ py_str salary_to
          +:+ " " +:+ py_str currency
      else if truthy salary_from then
        "Maosh: " +:+ "dan " +:+ py_str salary_from +:+ " " +:+ py_str currency
      else if truthy salary_to then
        "Maosh: " +:+ "gacha " +:+ py_str salary_to +:+ " " +:+ py_str currency
      else "Maosh: " in
    Some (if bool_decide (salary_text = "Maosh: ") then [] else [salary_text])
  else Some [].

Definition format_comments (negotiation : Json) : option string :=
  resume ← dict_get negotiation "resume" (JObj []);
  alternate_url ← dict_get resume "alternate_url" JNull;
  created_at ← dict_get negotiation "created_at" JNull;
  title ← dict_get resume "title" JNull;
  age ← dict_get resume "age" JNull;
  area ← dict_get resume "area" (JObj []);
  area_name ← dict_get area "name" JNull;
  salary ← dict_get resume "salary" JNull;
  salary_lines ← salary_comment salary;
  Some (join newline
          (comment "CV: " alternate_url
           ++ comment "Ariza vaqti: " created_at
           ++ comment "Kasb: " title
           ++ comment "Yoshi: " age
           ++ comment "Joylashuv: " area_name
           ++ salary_lines)).

(** The body of [for contact in contacts]; [found] holds [email] and
    [phone]. *)
Definition read_contact (found : Json * Json) (contact : Json)
    : option (Json * Json) :=
  let '(email, phone) := found in
  contact_type ← dict_get contact "type" (JObj []);
  if is_dict contact_type then
    id ← dict_get contact_type "id" JNull;
    if is_str "email" id then
      value ← dict_get contact "value" (JStr "");
      Some (value, phone)
    else if is_str "cell" id || is_str "phone" id then
      value ← dict_get contact "value" (JStr "");
      Some (email, value)
    else Some found
  else Some found.

Fixpoint for_contacts (contacts : list Json) (found : Json * Json)
    : option (Json * Json) :=
  match contacts with
  | [] => Some found
  | contact :: rest =>
      found' ← read_contact found contact;
      for_contacts rest found'
  end.

(** [[{'VALUE': v, 'VALUE_TYPE': 'WORK'}] if v else []] *)
Definition work_value (v : Json) : Json :=
  if truthy v
  then JList [JObj [("VALUE"%string, v); ("VALUE_TYPE"%string, JStr "WORK")]]
  else JList [].

(** [lead_data] as [create_bitrix_lead] builds it from [application_data]. *)
Definition lead_data (application_data : Json) : option Json :=
  negotiation ← dict_get application_data "negotiation" (JObj []);
  vacancy_name ←
    dict_get application_data "vacancy_name" (JStr "Noma'lum vakansiya");
  resume ← dict_get negotiation "resume" (JObj []);
  first_name ← dict_get resume "first_name" (JStr "");
  last_name ← dict_get resume "last_name" (JStr "");
  contact ← dict_get resume "contact" JNull;
  found ←
    (if truthy contact then
       match contact with
       | JList contacts => for_contacts contacts (JStr "", JStr "")
       | _ => Some (JStr "", JStr "")
       end
     else Some (JStr "", JStr ""));
  let '(email, phone) := found in
  comments ← format_comments negotiation;
  Some (JObj [("fields"%string,
          JObj [("NAME"%string, first_name);
                ("LAST_NAME"%string, last_name);
                ("EMAIL"%string, work_value email);
                ("PHONE"%string, work_value phone);
                ("TITLE"%string, vacancy_name);
                ("COMMENTS"%string, JStr comments);
                ("SOURCE_ID"%string, JStr "OTHER");
                ("SOURCE_DESCRIPTION"%string, JStr "HeadHunter.uz");
                ("ASSIGNED_BY_ID"%string, JNum 1)])]).

End Payload.

(** [lead_data.get(key, [{}])[0].get('VALUE', 'N/A') if lead_data.get(key)
    else 'N/A'], the e-mail address and the telephone number that
    [send_telegram_success] shows. *)
Definition shown_value (key : string) (lead_fields : Json) : option Json :=
  present ← dict_get lead_fields key JNull;
  if truthy present then
    values ← dict_get lead_fields key (JList [JObj []]);
    first ← first_of values;
    dict_get first "VALUE" (JStr "N/A")
  else Some (JStr "N/A").

Definition email_value : Json → option Json := shown_value "EMAIL".
Definition phone_value : Json → option Json := shown_value "PHONE".

(** ** What the payload is read for *)

(** The value under [key] of a dict, when there is one. *)
Definition member (key : string) (d : Json) : option Json :=
  match d with
  | JObj fields => item key fields
  | _ => None
  end.

(** [contact['type']['id']] where both are there, [None] otherwise. *)
Definition contact_kind (contact : Json) : Json :=
  match member "type" contact with
  | Some contact_type => default JNull (member "id" contact_type)
  | None => JNull
  end.

Definition is_email (contact : Json) : bool := is_str "email" (contact_kind contact).

Definition is_phone (contact : Json) : bool :=
  is_str "cell" (contact_kind contact) || is_str "phone" (contact_kind contact).

(** [contact.get('value', '')] *)
Definition contact_value (contact : Json) : Json :=
  default (JStr "") (member "value" contact).

(** The shape of [application_data] that [create_bitrix_lead] can read:
    the negotiation and its resume are dicts, every entry of a list of
    contacts is a dict, the area is a dict where there is one, and so is a
    salary that is not falsy. *)
Definition readable (application_data : Json) : Prop :=
  ∃ negotiation resume,
    is_dict application_data = true
    ∧ default (JObj []) (member "negotiation" application_data) = JObj negotiation
    ∧ default (JObj []) (item "resume" negotiation) = JObj resume
    ∧ (∀ contacts, item "contact" resume = Some (JList contacts) →
                   Forall (λ contact, is_dict contact = true) contacts)
    ∧ (∀ area, item "area" resume = Some area → is_dict area = true)
    ∧ (∀ salary, item "salary" resume = Some salary → truthy salary = true →
                 is_dict salary = true).

(** Two e-mail addresses and a telephone number. *)
Definition sample_contacts : list Json :=
  [JObj [("type"%string, JObj [("id"%string, JStr "email")]);
         ("value"%string, JStr "old@example.org")];
   JObj [("type"%string, JObj [("id"%string, JStr "cell")]);
         ("value"%string, JStr "+998901234567")];
   JObj [("type"%string, JObj [("id"%string, JStr "email")]);
         ("value"%string, JStr "new@example.org")]].

(** An application whose resume holds these contacts. *)
Definition sample_application : Json :=
  JObj [("negotiation"%string,
         JObj [("id"%string, JStr "7");
               ("created_at"%string, JStr "2024-05-01");
               ("resume"%string,
                JObj [("first_name"%string, JStr "Ali");
                      ("last_name"%string, JStr "Valiyev");
                      ("age"%string, JNum 30);
                      ("salary"%string,
                       JObj [("from"%string, JNum 0); ("to"%string, JNum 900);
                             ("currency"%string, JStr "USD")]);
                      ("contact"%string, JList sample_contacts)])]);
        ("vacancy_name"%string, JStr "Engineer")].

(** A negotiation whose resume is [null]. *)
Definition hidden_resume_application : Json :=
  JObj [("negotiation"%string,
         JObj [("id"%string, JStr "8"); ("resume"%string, JNull)]);
        ("vacancy_name"%string, JStr "Engineer")].

(** A [repr] for the examples, which hold no list or dict where one is
    shown. *)
Definition no_repr (v : Json) : string := EmptyString.

(** * The authorization URL

    [urllib.parse.urlencode] with its defaults quotes every key and value
    with [quote_plus]: the text is taken as its UTF-8 bytes, a byte among
    the letters, the digits and [_.-~] stands for itself, a space becomes
    [+], and any other byte becomes [%] and its two upper-case hexadecimal
    digits. *)

Definition always_safe (c : ascii) : bool :=
  let n := nat_of_ascii c in
  (Nat.leb 65 n && Nat.leb n 90) || (Nat.leb 97 n && Nat.leb n 122)
  || (Nat.leb 48 n && Nat.leb n 57)
  || Nat.eqb n 95 || Nat.eqb n 46 || Nat.eqb n 45 || Nat.eqb n 126.

Definition hex_digit (n : nat) : ascii :=
  nth n (list_ascii_of_string "0123456789ABCDEF") "0"%char.

(** ['%{:02X}'.format(b)] *)
Definition percent_encoded (c : ascii) : string :=
  let n := nat_of_ascii c in
  String "%" (String (hex_digit (n / 16)) (String (hex_digit (n mod 16)) EmptyString)).

Definition quoted (c : ascii) : string :=
  if always_safe c then String c EmptyString
  else if Nat.eqb (nat_of_ascii c) 32 then "+"
  else percent_encoded c.

Fixpoint quote_plus (s : string) : string :=
  match s with
  | EmptyString => EmptyString
  | String c s' => quoted c +:+ quote_plus s'
  end.

(** [urlencode(params)] for a dict of texts, given as its items in order *)
Definition urlencode (params : list (string * string)) : string :=
  join "&" (map (λ '(k, v), quote_plus k +:+ "=" +:+ quote_plus v) params).

Definition hh_oauth_base : string := "https://hh.ru".

Definition get_hh_authorization_url (hh_client_id hh_redirect_uri : string)
    : string :=
  let params :=
    [("response_type", "code"); ("client_id", hh_client_id);
     ("redirect_uri", hh_redirect_uri);
     ("scope", "employer_vacancies employer_negotiations")]%string in
  hh_oauth_base +:+ "/oauth/authorize?" +:+ urlencode params.

(** How many times a character occurs in a text. *)
Fixpoint occurrences (c : ascii) (s : string) : nat :=
  match s with
  | EmptyString => 0
  | String d s' => (if Ascii.eqb c d then 1 else 0) + occurrences c s'
  end.

(** The value of a hexadecimal digit. *)
Definition hex_value (c : ascii) : nat :=
  let n := nat_of_ascii c in
  if Nat.leb 65 n then n - 55 else n - 48.

(** * Reasoning about the monad *)

Lemma exec_ret {A} (a : A) s : exec (ret a) s = s.
Proof. reflexivity. Qed.

Lemma exec_modify f s : exec (modify f) s = f s.
Proof. reflexivity. Qed.

Lemma bind_ok {A B} (m : M A) (f : A → M B) s a s' :
  m s = (Ok a, s') → bind m f s = f a s'.
Proof. unfold bind. now intros ->. Qed.

Lemma bind_raise {A B} (m : M A) (f : A → M B) s e s' :
  m s = (Raise e, s') → bind m f s = (Raise e, s').
Proof. unfold bind. now intros ->. Qed.

Lemma try_ok {A} (m : M A) handles h s a s' :
  m s = (Ok a, s') → try_except m handles h s = (Ok a, s').
Proof. unfold try_except. now intros ->. Qed.

Lemma try_raise {A} (m : M A) handles h s e s' :
  m s = (Raise e, s') → handles e = true → try_except m handles h s = h s'.
Proof. unfold try_except. now intros -> ->. Qed.

Lemma bind_ext {A B} (m : M A) (f g : A → M B) s :
  (∀ a s', f a s' = g a s') → bind m f s = bind m g s.
Proof. intros H. unfold bind. destruct (m s) as [[a|e|] s1]; auto. Qed.

Lemma try_ext {A} (m m' : M A) handles h s :
  (∀ s', m s' = m' s') → try_except m handles h s = try_except m' handles h s.
Proof. intros H. unfold try_except. now rewrite H. Qed.

Lemma omap_snoc_None {A B} (f : A → option B) l e :
  f e = None → omap f (l ++ [e]) = omap f l.
Proof. intros H. rewrite omap_app; simpl. now rewrite H, app_nil_r. Qed.

Lemma omap_snoc_Some {A B} (f : A → option B) l e b :
  f e = Some b → omap f (l ++ [e]) = omap f l ++ [b].
Proof. intros H. rewrite omap_app; simpl. now rewrite H. Qed.

Section Frame.

Variable w : World.
Variable R : State → State → Prop.
Hypothesis R_refl : ∀ s, R s s.
Hypothesis R_trans : ∀ s1 s2 s3, R s1 s2 → R s2 s3 → R s1 s3.

Lemma preserves_ret {A} (a : A) : preserves R (ret a).
Proof. intros s. apply R_refl. Qed.

Lemma preserves_raise {A} e : preserves R (@raise A e).
Proof. intros s. apply R_refl. Qed.

Lemma preserves_out_of_fuel {A} : preserves R (@out_of_fuel A).
Proof. intros s. apply R_refl. Qed.

Lemma preserves_gets {A} (f : State → A) : preserves R (gets f).
Proof. intros s. apply R_refl. Qed.

Lemma preserves_bind {A B} (m : M A) (f : A → M B) :
  preserves R m → (∀ a, preserves R (f a)) → preserves R (bind m f).
Proof.
  intros Hm Hf s. specialize (Hm s). unfold exec, bind in *.
  destruct (m s) as [[a|e|] s1]; simpl in *; auto.
  eapply R_trans; [exact Hm | apply Hf].
Qed.

Lemma preserves_try {A} (m : M A) handles (h : M A) :
  preserves R m → preserves R h → preserves R (try_except m handles h).
Proof.
  intros Hm Hh s. specialize (Hm s). unfold exec, try_except in *.
  destruct (m s) as [[a|e|] s1]; simpl in *; auto.
  destruct (handles e); simpl; auto.
  eapply R_trans; [exact Hm | apply Hh].
Qed.

Lemma preserves_caught {A} (m : M A) : preserves R m → preserves R (caught m).
Proof.
  intros Hm. unfold caught. apply preserves_try.
  - apply preserves_bind; [exact Hm | intros; apply preserves_ret].
  - apply preserves_ret.
Qed.

(** What the relation has to allow. *)
Variable allowed : Event → Prop.
Variable allowed_req : Request → Prop.
Hypothesis R_clock : ∀ s t nr nio, R s (with_clock t nr nio s).
Hypothesis R_log : ∀ s e, allowed e → R s (with_log (log s ++ [e]) s).
Hypothesis R_tokens : ∀ s a r e c, R s (with_tokens a r e c s).
Hypothesis R_config_file :
  ∀ s c, R s (with_files (ledger_file s) (backup_files s) c s).
Hypothesis R_call :
  ∀ req, allowed_req req →
    preserves R (rate_limit ;;; session_request w req).
Hypothesis allowed_sleep : ∀ k d, allowed (EvSleep k d).

Lemma preserves_sleep k d : preserves R (sleep k d).
Proof.
  intros s. unfold sleep. destruct (0 <=? d); [|apply R_refl].
  unfold exec, modify, slept; simpl.
  eapply R_trans; [apply R_log, allowed_sleep | apply R_clock].
Qed.

Lemma preserves_sleep_for k d : preserves R (sleep_for w k d).
Proof.
  unfold sleep_for.
  destruct (clock_limit <? _); [apply preserves_raise|].
  destruct (d <? 0); [apply preserves_raise|].
  destruct (sleep_limit w <? d); [apply preserves_raise|].
  intros s. unfold exec, modify, slept; simpl.
  eapply R_trans; [apply R_log, allowed_sleep | apply R_clock].
Qed.

Lemma preserves_file_op : preserves R (file_op w).
Proof.
  intros s. unfold exec, file_op. destruct (io_ok w (n_io s)); apply R_clock.
Qed.

(** A call goes through [rate_limit] first; the two are taken together. *)
Lemma preserves_call {A} req (k : Response → M A) :
  allowed_req req → (∀ r, preserves R (k r)) →
  preserves R (rate_limit ;;; do r <- session_request w req; k r).
Proof.
  intros Hreq Hk s. specialize (R_call req Hreq s). unfold exec, bind in *.
  destruct (rate_limit s) as [[[]|e|] s1]; simpl in *; auto.
  destruct (session_request w req s1) as [[r|e|] s2]; simpl in *; auto.
  eapply R_trans; [exact R_call | apply Hk].
Qed.

Lemma preserves_attempt_request req attempt :
  allowed_req req → preserves R (attempt_request w req attempt).
Proof.
  intros Hreq. unfold attempt_request. apply preserves_try.
  - apply preserves_call; [exact Hreq|]. intros r.
    destruct (status_code r =? 429); [|apply preserves_ret].
    apply preserves_bind.
    + unfold retry_after_seconds. destruct (retry_after r);
        first [apply preserves_ret | apply preserves_raise].
    + intros d. apply preserves_bind; [apply preserves_sleep_for|].
      intros _. apply preserves_ret.
  - destruct (Nat.eqb attempt (max_retries - 1)); [apply preserves_ret|].
    apply preserves_bind; [apply preserves_sleep|]. intros _. apply preserves_ret.
Qed.

Lemma preserves_for_attempts req attempts :
  allowed_req req → preserves R (for_attempts w req attempts).
Proof.
  intros Hreq. induction attempts as [|a rest IH]; simpl.
  - apply preserves_ret.
  - apply preserves_bind; [now apply preserves_attempt_request|].
    intros [|r]; [exact IH | apply preserves_ret].
Qed.

Lemma preserves_make_request req :
  allowed_req req → preserves R (make_request w req).
Proof. intros. now apply preserves_for_attempts. Qed.

Lemma preserves_json r : preserves R (json r).
Proof.
  unfold json. destruct (body r);
    first [apply preserves_raise | apply preserves_ret].
Qed.

Lemma preserves_modify (f : State → State) :
  (∀ s, R s (f s)) → preserves R (modify f).
Proof. intros H s. apply H. Qed.

Lemma preserves_emit e : allowed e → preserves R (emit e).
Proof. intros H. apply preserves_modify. intros s. now apply R_log. Qed.

Ltac frame_steps tac :=
  repeat first
    [ progress intros
    | tac
    | simple apply preserves_ret | simple apply preserves_raise
    | simple apply preserves_gets | simple apply preserves_out_of_fuel
    | simple apply preserves_sleep | simple apply preserves_file_op
    | simple apply preserves_bind | simple apply preserves_try
    | simple apply preserves_caught | simple apply preserves_modify
    | simple apply preserves_emit | simple apply preserves_json
    | match goal with
      | |- preserves _ (if ?b then _ else _) => destruct b
      | |- preserves _ (match ?x with _ => _ end) => destruct x
      end ].

Hypothesis allowed_telegram : ∀ m, allowed_req (PostTelegram m).

Lemma preserves_send_telegram_message m :
  preserves R (send_telegram_message w m).
Proof.
  unfold send_telegram_message.
  frame_steps ltac:(apply preserves_make_request, allowed_telegram).
Qed.

Lemma preserves_send_telegram_error reason :
  preserves R (send_telegram_error w reason).
Proof. apply preserves_send_telegram_message. Qed.

Lemma preserves_send_telegram_log text :
  preserves R (send_telegram_log w text).
Proof. apply preserves_send_telegram_message. Qed.

Lemma preserves_send_telegram_success fields lead_id :
  preserves R (send_telegram_success w fields lead_id).
Proof. apply preserves_send_telegram_message. Qed.

Lemma preserves_save_token_to_config a r e :
  preserves R (save_token_to_config w a r e).
Proof.
  unfold save_token_to_config, set_config.
  frame_steps ltac:(first [apply R_tokens | apply R_config_file]).
Qed.

Hypothesis allowed_refresh : allowed EvRefresh.
Hypothesis allowed_token : ∀ g, allowed_req (PostToken g).

Lemma preserves_refresh_access_token : preserves R (refresh_access_token w).
Proof.
  unfold refresh_access_token.
  frame_steps ltac:(first
    [ apply allowed_refresh
    | apply preserves_make_request, allowed_token
    | apply preserves_save_token_to_config
    | apply preserves_send_telegram_log
    | apply preserves_send_telegram_error
    | apply R_tokens ]).
Qed.

(** [refresh_access_token] is the logging of its entry followed by a body
    that needs no permission for that entry. *)
Lemma refresh_access_token_split :
  ∃ body, refresh_access_token w = (emit EvRefresh ;;; body) ∧ preserves R body.
Proof.
  eexists. split; [reflexivity|].
  frame_steps ltac:(first
    [ apply preserves_make_request, allowed_token
    | apply preserves_save_token_to_config
    | apply preserves_send_telegram_log
    | apply preserves_send_telegram_error
    | apply R_tokens ]).
Qed.

Lemma preserves_get_auth_headers : preserves R (get_auth_headers w).
Proof.
  unfold get_auth_headers, is_token_expired.
  frame_steps ltac:(apply preserves_refresh_access_token).
Qed.

Hypothesis allowed_test : allowed EvTestApi.
Hypothesis allowed_me : ∀ h, allowed_req (GetMe h).

Lemma preserves_test_api_access depth : preserves R (test_api_access w depth).
Proof.
  induction depth as [|depth IH]; simpl.
  - apply preserves_out_of_fuel.
  - frame_steps ltac:(first
      [ apply allowed_test
      | apply preserves_get_auth_headers
      | apply preserves_make_request, allowed_me
      | apply preserves_refresh_access_token
      | exact IH
      ]).
Qed.

Hypothesis allowed_vacancies :
  ∀ h employer_id, allowed_req (GetVacancies h employer_id 100 0).
Hypothesis allowed_negotiations :
  ∀ h vacancy_id, allowed_req (GetNegotiations h vacancy_id 100 0).

Lemma preserves_fetch_negotiations h vacancy applications :
  preserves R (fetch_negotiations w h vacancy applications).
Proof.
  unfold fetch_negotiations.
  frame_steps ltac:(first
    [ apply preserves_make_request, allowed_negotiations ]).
Qed.

Lemma preserves_for_vacancies h vacancies applications :
  preserves R (for_vacancies w h vacancies applications).
Proof.
  revert applications. induction vacancies as [|v rest IH]; intros; simpl.
  - apply preserves_ret.
  - apply preserves_bind; [apply preserves_fetch_negotiations | intros; apply IH].
Qed.

Lemma preserves_get_hh_applications : preserves R (get_hh_applications w).
Proof.
  unfold get_hh_applications.
  frame_steps ltac:(first
    [ apply preserves_send_telegram_error
    | apply preserves_get_auth_headers
    | apply preserves_make_request, allowed_me
    | apply preserves_make_request, allowed_vacancies
    | apply preserves_for_vacancies
    ]).
Qed.

Hypothesis allowed_lead : ∀ f, allowed_req (PostLead f).

Lemma create_bitrix_lead_split a :
  ∃ body, create_bitrix_lead w a = (emit (EvCreateLead a) ;;; body)
          ∧ preserves R body.
Proof.
  eexists. split; [reflexivity|].
  frame_steps ltac:(first
    [ apply preserves_make_request, allowed_lead
    | apply preserves_send_telegram_error
    | apply preserves_send_telegram_success ]).
Qed.

Lemma preserves_create_bitrix_lead a :
  allowed (EvCreateLead a) → preserves R (create_bitrix_lead w a).
Proof.
  intros Ha. unfold create_bitrix_lead.
  frame_steps ltac:(first
    [ exact Ha
    | apply preserves_make_request, allowed_lead
    | apply preserves_send_telegram_error
    | apply preserves_send_telegram_success
    ]).
Qed.

End Frame.

(** * Which methods always return *)

Section Totality.

Variable w : World.

Lemma returns_safe {A} (m : M A) : returns m → safe m.
Proof. intros H s. destruct (H s) as [a ->]. discriminate. Qed.

Lemma safe_ret {A} (a : A) : safe (ret a).
Proof. intros s. discriminate. Qed.

Lemma safe_raise {A} e : safe (@raise A e).
Proof. intros s. discriminate. Qed.

Lemma safe_gets {A} (f : State → A) : safe (gets f).
Proof. intros s. discriminate. Qed.

Lemma safe_modify f : safe (modify f).
Proof. intros s. discriminate. Qed.

Lemma safe_bind {A B} (m : M A) (f : A → M B) :
  safe m → (∀ a, safe (f a)) → safe (bind m f).
Proof.
  intros Hm Hf s. specialize (Hm s). unfold bind.
  destruct (m s) as [[a|e|] s1]; simpl in *; [apply Hf | discriminate | congruence].
Qed.

Lemma safe_try {A} (m : M A) handles (h : M A) :
  safe m → safe h → safe (try_except m handles h).
Proof.
  intros Hm Hh s. specialize (Hm s). unfold try_except.
  destruct (m s) as [[a|e|] s1]; simpl in *; [discriminate | | congruence].
  destruct (handles e); [apply Hh | discriminate].
Qed.

Lemma safe_sleep k d : safe (sleep k d).
Proof. intros s. unfold sleep. destruct (0 <=? d); discriminate. Qed.

Lemma safe_sleep_for k d : safe (sleep_for w k d).
Proof.
  unfold sleep_for.
  destruct (clock_limit <? _); [apply safe_raise|].
  destruct (d <? 0); [apply safe_raise|].
  destruct (sleep_limit w <? d); [apply safe_raise | apply safe_modify].
Qed.

Lemma safe_file_op : safe (file_op w).
Proof. intros s. unfold file_op. destruct (io_ok w (n_io s)); discriminate. Qed.

Lemma safe_session_request req : safe (session_request w req).
Proof.
  intros s. unfold session_request. destruct (http w (n_requests s) req); discriminate.
Qed.

Lemma safe_json r : safe (json r).
Proof. intros s. unfold json. destruct (body r); discriminate. Qed.

Lemma returns_ret {A} (a : A) : returns (ret a).
Proof. intros s. now exists a. Qed.

Lemma returns_gets {A} (f : State → A) : returns (gets f).
Proof. intros s. now exists (f s). Qed.

Lemma returns_modify f : returns (modify f).
Proof. intros s. now exists tt. Qed.

Lemma returns_bind {A B} (m : M A) (f : A → M B) :
  returns m → (∀ a, returns (f a)) → returns (bind m f).
Proof.
  intros Hm Hf s. destruct (Hm s) as [a Ha]. unfold bind.
  destruct (m s) as [[a'|e|] s1]; simpl in *; try discriminate. apply Hf.
Qed.

(** [try: m except Exception: h] returns as soon as the handler does. *)
Lemma returns_try {A} (m : M A) (h : M A) :
  safe m → returns h → returns (try_except m any_exception h).
Proof.
  intros Hm Hh s. specialize (Hm s). unfold try_except.
  destruct (m s) as [[a|e|] s1]; simpl in *;
    [now exists a | apply Hh | congruence].
Qed.

Lemma returns_caught {A} (m : M A) : safe m → returns (caught m).
Proof.
  intros Hm. unfold caught. apply returns_try; [|apply returns_ret].
  apply safe_bind; [exact Hm | intros; apply safe_ret].
Qed.

Ltac total_steps tac :=
  repeat first
    [ progress intros
    | tac
    | simple apply returns_ret | simple apply returns_gets
    | simple apply returns_modify | simple apply returns_bind
    | simple apply returns_try | simple apply returns_caught
    | simple apply safe_ret | simple apply safe_raise | simple apply safe_gets
    | simple apply safe_modify | simple apply safe_sleep
    | simple apply safe_sleep_for
    | simple apply safe_file_op | simple apply safe_session_request
    | simple apply safe_json
    | simple apply safe_bind | simple apply safe_try
    | match goal with
      | |- returns (if ?b then _ else _) => destruct b
      | |- returns (match ?x with _ => _ end) => destruct x
      | |- safe (if ?b then _ else _) => destruct b
      | |- safe (match ?x with _ => _ end) => destruct x
      end ].

Lemma safe_rate_limit : safe rate_limit.
Proof. unfold rate_limit. total_steps fail. Qed.

Lemma safe_attempt_request req attempt : safe (attempt_request w req attempt).
Proof. unfold attempt_request, retry_after_seconds. total_steps ltac:(apply safe_rate_limit). Qed.

Lemma safe_make_request req : safe (make_request w req).
Proof.
  unfold make_request. induction (seq 0 max_retries) as [|a l IH]; simpl.
  - apply safe_ret.
  - total_steps ltac:(first [apply safe_attempt_request | exact IH]).
Qed.

Lemma returns_send_telegram_message m : returns (send_telegram_message w m).
Proof. unfold send_telegram_message. total_steps ltac:(apply safe_make_request). Qed.

Lemma send_telegram_message_ok m s :
  send_telegram_message w m s = (Ok tt, exec (send_telegram_message w m) s).
Proof.
  destruct (returns_send_telegram_message m s) as [[] H].
  unfold exec. destruct (send_telegram_message w m s) as [r s']. simpl in *.
  now subst.
Qed.

Lemma returns_send_telegram_error reason : returns (send_telegram_error w reason).
Proof. apply returns_send_telegram_message. Qed.

Lemma returns_save_token_to_config a r e : returns (save_token_to_config w a r e).
Proof. unfold save_token_to_config. total_steps fail. Qed.

Lemma returns_refresh_access_token : returns (refresh_access_token w).
Proof.
  unfold refresh_access_token, emit.
  total_steps ltac:(first
    [ apply safe_make_request
    | apply returns_safe, returns_save_token_to_config
    | apply returns_safe, returns_send_telegram_message
    | apply returns_send_telegram_message ]).
Qed.

Lemma returns_create_bitrix_lead a : returns (create_bitrix_lead w a).
Proof.
  unfold create_bitrix_lead, emit.
  total_steps ltac:(first
    [ apply safe_make_request
    | apply returns_safe, returns_send_telegram_message
    | apply returns_send_telegram_message ]).
Qed.

Lemma returns_save_processed_id id : returns (save_processed_id w id).
Proof.
  unfold save_processed_id, emit.
  total_steps ltac:(apply returns_send_telegram_message).
Qed.

Lemma safe_get_auth_headers : safe (get_auth_headers w).
Proof.
  unfold get_auth_headers, is_token_expired.
  total_steps ltac:(apply returns_safe, returns_refresh_access_token).
Qed.

Lemma safe_fetch_negotiations h v apps : safe (fetch_negotiations w h v apps).
Proof. unfold fetch_negotiations. total_steps ltac:(apply safe_make_request). Qed.

Lemma safe_for_vacancies h vs apps : safe (for_vacancies w h vs apps).
Proof.
  revert apps. induction vs as [|v rest IH]; intros; simpl.
  - apply safe_ret.
  - apply safe_bind; [apply safe_fetch_negotiations | intros; apply IH].
Qed.

Lemma returns_get_hh_applications : returns (get_hh_applications w).
Proof.
  unfold get_hh_applications.
  total_steps ltac:(first
    [ apply safe_make_request
    | apply safe_get_auth_headers
    | apply safe_for_vacancies
    | apply returns_safe, returns_send_telegram_message
    | apply returns_send_telegram_message ]).
Qed.

End Totality.

(** * Lines of the ledger file *)

Module TextFacts.

Lemma append_cons c (a b : string) : String c a +:+ b = String c (a +:+ b).
Proof. reflexivity. Qed.

Lemma append_nil_l (b : string) : EmptyString +:+ b = b.
Proof. reflexivity. Qed.

Lemma append_assoc (a b c : string) : (a +:+ b) +:+ c = a +:+ (b +:+ c).
Proof.
  induction a as [|x a IH]; [reflexivity|].
  rewrite !append_cons. now rewrite IH.
Qed.

Lemma append_nil_r (a : string) : a +:+ EmptyString = a.
Proof.
  induction a as [|x a IH]; [reflexivity|].
  rewrite append_cons. now rewrite IH.
Qed.

Lemma length_append (a b : string) :
  String.length (a +:+ b) = (String.length a + String.length b)%nat.
Proof.
  induction a as [|x a IH]; [reflexivity|].
  rewrite append_cons. simpl. now rewrite IH.
Qed.

Lemma length_string_repeat n c : String.length (string_repeat n c) = n.
Proof. induction n as [|n IH]; simpl; [reflexivity | now rewrite IH]. Qed.

Lemma is_lf_LF : is_lf LF = true.
Proof. reflexivity. Qed.

Lemma is_cr_LF : is_cr LF = false.
Proof. reflexivity. Qed.

Lemma is_space_LF : is_space LF = true.
Proof. reflexivity. Qed.

(** Reading a line without CR or LF, followed by LF, leaves it as it is. *)
Lemma universal_newlines_line s rest :
  no_line_break s = true →
  universal_newlines (s +:+ String LF rest)
  = s +:+ String LF (universal_newlines rest).
Proof.
  induction s as [|c s IH]; intros H.
  - rewrite append_nil_l. cbn [universal_newlines]. rewrite is_cr_LF. reflexivity.
  - cbn [no_line_break] in H. apply andb_prop in H as [Hc Hs].
    apply andb_prop in Hc as [_ Hcr]. apply negb_true_iff in Hcr.
    rewrite append_cons. cbn [universal_newlines]. rewrite Hcr. now rewrite IH.
Qed.

Lemma split_lines_line s rest :
  no_line_break s = true →
  split_lines (s +:+ String LF rest) = (s +:+ String LF EmptyString) :: split_lines rest.
Proof.
  induction s as [|c s IH]; intros H.
  - rewrite append_nil_l. cbn [split_lines]. rewrite is_lf_LF. reflexivity.
  - cbn [no_line_break] in H. apply andb_prop in H as [Hc Hs].
    apply andb_prop in Hc as [Hlf _]. apply negb_true_iff in Hlf.
    rewrite append_cons. cbn [split_lines]. rewrite Hlf. now rewrite IH.
Qed.

Lemma readlines_line id rest :
  no_line_break id = true →
  readlines (id_line id +:+ rest) = id_line id :: readlines rest.
Proof.
  intros H. unfold readlines, id_line.
  rewrite append_assoc, append_cons, append_nil_l.
  rewrite universal_newlines_line by exact H. now rewrite split_lines_line.
Qed.

Lemma no_line_break_app a b :
  no_line_break (a +:+ b) = no_line_break a && no_line_break b.
Proof.
  induction a as [|x a IH]; [reflexivity|].
  rewrite append_cons. cbn [no_line_break]. rewrite IH. now rewrite andb_assoc.
Qed.

(** Induction on the length of a text. *)
Lemma string_length_ind (P : string → Prop) :
  (∀ s, (∀ t, (String.length t < String.length s)%nat → P t) → P s) →
  ∀ s, P s.
Proof.
  intros H s. remember (String.length s) as n eqn:E. revert s E.
  induction n as [n IH] using lt_wf_ind. intros s ->.
  apply H. intros t Ht. exact (IH _ Ht t eq_refl).
Qed.

(** ** White space *)

(** The white-space characters of more than one byte are made of bytes
    above the ASCII range. *)
Lemma is_space2_high a b :
  is_space2 a b = true → (128 ≤ nat_of_ascii a)%nat ∧ (128 ≤ nat_of_ascii b)%nat.
Proof.
  unfold is_space2. cbv zeta.
  rewrite andb_true_iff, orb_true_iff, !Nat.eqb_eq. lia.
Qed.

Lemma is_space3_high a b c :
  is_space3 a b c = true →
  (128 ≤ nat_of_ascii a)%nat ∧ (128 ≤ nat_of_ascii b)%nat
  ∧ (128 ≤ nat_of_ascii c)%nat.
Proof.
  unfold is_space3. cbv zeta.
  rewrite !orb_true_iff, !andb_true_iff, !orb_true_iff, !andb_true_iff,
    !Nat.eqb_eq, !Nat.leb_le. lia.
Qed.

Lemma is_space_low c : is_space c = true → (nat_of_ascii c < 128)%nat.
Proof.
  unfold is_space. cbv zeta.
  rewrite orb_true_iff, !andb_true_iff, !Nat.leb_le. lia.
Qed.

Lemma is_space2_LF a : is_space2 a LF = false.
Proof.
  destruct (is_space2 a LF) eqn:E; [|reflexivity].
  apply is_space2_high in E as [_ E]. change (nat_of_ascii LF) with 10%nat in E. lia.
Qed.

Lemma is_space3_LF a b : is_space3 a b LF = false.
Proof.
  destruct (is_space3 a b LF) eqn:E; [|reflexivity].
  apply is_space3_high in E as (_ & _ & E).
  change (nat_of_ascii LF) with 10%nat in E. lia.
Qed.

Lemma lstrip_unfold s :
  lstrip s = match leading_space s with
             | Some rest => lstrip rest
             | None => s
             end.
Proof.
  destruct s as [|a [|b [|c s3]]]; cbn [lstrip leading_space];
    try reflexivity; destruct (is_space a); try reflexivity;
    destruct (is_space2 a b); try reflexivity;
    destruct (is_space3 a b c); reflexivity.
Qed.

(** What [leading_space] cuts off is one white-space character. *)
Lemma leading_space_cut s rest :
  leading_space s = Some rest → ∃ p, s = p +:+ rest ∧ is_white p = true.
Proof.
  destruct s as [|a s1]; [discriminate|]. cbn [leading_space].
  destruct (is_space a) eqn:E1.
  { intros [= <-]. now exists (String a EmptyString). }
  destruct s1 as [|b s2]; [discriminate|].
  destruct (is_space2 a b) eqn:E2.
  { intros [= <-]. now exists (String a (String b EmptyString)). }
  destruct s2 as [|c s3]; [discriminate|].
  destruct (is_space3 a b c) eqn:E3; [|discriminate].
  intros [= <-]. now exists (String a (String b (String c EmptyString))).
Qed.

Lemma is_white_nonempty p : is_white p = true → p ≠ EmptyString.
Proof. now destruct p. Qed.

Lemma length_leading_space s rest :
  leading_space s = Some rest → (String.length rest < String.length s)%nat.
Proof.
  intros H. apply leading_space_cut in H as (p & -> & Hp).
  rewrite length_append. destruct p; [discriminate|]. simpl. lia.
Qed.

(** [lstrip] gives an end of the text. *)
Lemma lstrip_suffix s : ∃ p, s = p +:+ lstrip s.
Proof.
  induction s as [s IH] using string_length_ind.
  rewrite lstrip_unfold. destruct (leading_space s) as [rest|] eqn:E.
  - destruct (IH rest (length_leading_space _ _ E)) as [q Hq].
    apply leading_space_cut in E as (p & -> & _).
    exists (p +:+ q). now rewrite append_assoc, <- Hq.
  - now exists EmptyString.
Qed.

Lemma length_lstrip s : (String.length (lstrip s) ≤ String.length s)%nat.
Proof.
  destruct (lstrip_suffix s) as [p Hp]. rewrite Hp at 2.
  rewrite length_append. lia.
Qed.

Lemma lstrip_same_length s :
  String.length (lstrip s) = String.length s → lstrip s = s.
Proof.
  intros H. destruct (lstrip_suffix s) as [p Hp].
  assert (L : String.length p = 0%nat).
  { apply (f_equal String.length) in Hp. rewrite length_append in Hp. lia. }
  destruct p; [|discriminate L]. now rewrite Hp at 2.
Qed.

(** A text that [lstrip] leaves alone does not start with white space, and
    conversely. *)
Lemma lstrip_fixed s : lstrip s = s ↔ leading_space s = None.
Proof.
  split; intros H.
  - destruct (leading_space s) as [rest|] eqn:E; [|reflexivity].
    rewrite lstrip_unfold, E in H.
    pose proof (length_lstrip rest). pose proof (length_leading_space _ _ E).
    rewrite H in *. lia.
  - now rewrite lstrip_unfold, H.
Qed.

Lemma leading_space_lstrip s : leading_space (lstrip s) = None.
Proof.
  induction s as [s IH] using string_length_ind.
  rewrite lstrip_unfold. destruct (leading_space s) as [rest|] eqn:E.
  - apply IH, (length_leading_space _ _ E).
  - exact E.
Qed.

(** What a text starts with, a longer text starts with. *)
Lemma leading_space_app p q rest :
  leading_space p = Some rest → leading_space (p +:+ q) = Some (rest +:+ q).
Proof.
  destruct p as [|a s1]; [discriminate|]. rewrite append_cons.
  cbn [leading_space]. destruct (is_space a).
  { now intros [= <-]. }
  destruct s1 as [|b s2]; [discriminate|]. rewrite append_cons.
  destruct (is_space2 a b).
  { now intros [= <-]. }
  destruct s2 as [|c s3]; [discriminate|]. rewrite append_cons.
  destruct (is_space3 a b c); [|discriminate]. now intros [= <-].
Qed.

(** The line feed that ends a line does not make its start white. *)
Lemma leading_space_line s :
  s ≠ EmptyString → leading_space s = None →
  leading_space (s +:+ String LF EmptyString) = None.
Proof.
  destruct s as [|a s1]; [congruence|]. intros _. rewrite append_cons.
  cbn [leading_space]. destruct (is_space a); [discriminate|].
  destruct s1 as [|b s2].
  { intros _. rewrite append_nil_l. now rewrite is_space2_LF. }
  rewrite append_cons. destruct (is_space2 a b); [discriminate|].
  destruct s2 as [|c s3].
  { intros _. rewrite append_nil_l. now rewrite is_space3_LF. }
  rewrite append_cons. now destruct (is_space3 a b c).
Qed.

(** [rstrip] gives a start of the text. *)
Lemma rstrip_prefix s : ∃ q, s = rstrip s +:+ q.
Proof.
  induction s as [|c s [q IH]]; [now exists EmptyString|].
  cbn [rstrip]. cbv zeta. destruct (is_white _).
  - now exists (String c s).
  - exists q. rewrite append_cons. now rewrite <- IH.
Qed.

Lemma length_rstrip s : (String.length (rstrip s) ≤ String.length s)%nat.
Proof.
  destruct (rstrip_prefix s) as [q Hq]. rewrite Hq at 2.
  rewrite length_append. lia.
Qed.

(** A text that [strip] leaves alone is left alone by both halves of it. *)
Lemma strip_fixed s : strip s = s → lstrip s = s ∧ rstrip s = s.
Proof.
  intros H. unfold strip in H.
  assert (L : lstrip s = s).
  { apply lstrip_same_length. pose proof (length_lstrip s).
    pose proof (length_rstrip (lstrip s)). rewrite H in *. lia. }
  split; [exact L|]. now rewrite L in H.
Qed.

Lemma rstrip_line s : rstrip (s +:+ String LF EmptyString) = rstrip s.
Proof.
  induction s as [|c s IH].
  - reflexivity.
  - rewrite append_cons. cbn [rstrip]. now rewrite IH.
Qed.

Lemma lstrip_line s :
  s ≠ EmptyString → lstrip s = s →
  lstrip (s +:+ String LF EmptyString) = s +:+ String LF EmptyString.
Proof.
  intros Hne H. apply lstrip_fixed. apply leading_space_line; [exact Hne|].
  now apply lstrip_fixed.
Qed.

Lemma clean_id_spec id :
  clean_id id = true →
  no_line_break id = true ∧ strip (id_line id) = id ∧ id ≠ EmptyString.
Proof.
  unfold clean_id. intros H. apply andb_prop in H as [H Hne].
  apply andb_prop in H as [Hb Hs].
  apply bool_decide_eq_true in Hs. apply negb_true_iff, bool_decide_eq_false in Hne.
  destruct (strip_fixed id Hs) as [Hl Hr].
  repeat split; [exact Hb | | exact Hne].
  unfold strip, id_line. rewrite lstrip_line by assumption.
  now rewrite rstrip_line.
Qed.

Lemma ids_of_lines_cons_clean id lines :
  clean_id id = true →
  ids_of_lines (id_line id :: lines) = {[ id ]} ∪ ids_of_lines lines.
Proof.
  intros H. destruct (clean_id_spec id H) as (_ & Hs & Hne).
  unfold ids_of_lines. cbn [map]. rewrite Hs.
  rewrite filter_cons_True by exact Hne. reflexivity.
Qed.

(** Loading a ledger written one clean identifier per line gives back the
    identifiers. *)
Lemma parse_ledger ids :
  Forall (λ id, clean_id id = true) ids →
  ids_of_lines (readlines (ledger_of ids)) = list_to_set ids.
Proof.
  induction 1 as [|id ids Hid _ IH]; [reflexivity|].
  destruct (clean_id_spec id Hid) as (Hb & _ & _).
  cbn [ledger_of fold_right]. fold (ledger_of ids).
  rewrite readlines_line by exact Hb.
  rewrite ids_of_lines_cons_clean by exact Hid. now rewrite IH.
Qed.

Lemma ledger_of_snoc ids id :
  ledger_of (ids ++ [id]) = ledger_of ids +:+ id_line id.
Proof.
  induction ids as [|x ids IH]; cbn [ledger_of fold_right app].
  - now rewrite append_nil_r.
  - fold (ledger_of (ids ++ [id])). fold (ledger_of ids).
    now rewrite IH, append_assoc.
Qed.

Lemma ledger_of_app ids ids' :
  ledger_of (ids ++ ids') = ledger_of ids +:+ ledger_of ids'.
Proof.
  induction ids as [|x ids IH]; [reflexivity|].
  cbn [app ledger_of fold_right]. fold (ledger_of (ids ++ ids')). fold (ledger_of ids).
  now rewrite IH, append_assoc.
Qed.

Lemma no_line_break_repeat n c :
  is_lf c = false → is_cr c = false → no_line_break (string_repeat n c) = true.
Proof.
  intros Hl Hc. induction n as [|n IH]; simpl; [reflexivity|].
  now rewrite Hl, Hc, IH.
Qed.

Lemma elem_of_ids_of_lines id lines :
  id ∈ ids_of_lines lines ↔ id ≠ EmptyString ∧ ∃ line, line ∈ lines ∧ strip line = id.
Proof.
  unfold ids_of_lines. rewrite elem_of_list_to_set, list_elem_of_filter, list_elem_of_fmap.
  split.
  - intros [Hne (line & -> & Hin)]. split; [exact Hne|]. now exists line.
  - intros [Hne (line & Hin & <-)]. split; [exact Hne|]. now exists line.
Qed.

End TextFacts.
Import TextFacts.

(** * The request layer: retries, rate-limit answers *)

Section Transport.

Variable w : World.

Lemma rate_limit_stamped s : rate_limit s = (Ok tt, stamped s).
Proof.
  unfold rate_limit, stamped, bind, gets, modify, sleep, ret; simpl.
  destruct (now s - last_request_time s <? min_request_interval) eqn:E;
    [|reflexivity].
  apply Z.ltb_lt in E.
  destruct (0 <=? min_request_interval - (now s - last_request_time s)) eqn:F;
    [reflexivity|].
  apply Z.leb_gt in F. lia.
Qed.

Lemma n_requests_stamped s : n_requests (stamped s) = n_requests s.
Proof.
  unfold stamped. now destruct (_ <? _).
Qed.

Lemma n_requests_called req s : n_requests (called w req s) = S (n_requests s).
Proof.
  transitivity (S (n_requests (stamped s))); [reflexivity|].
  now rewrite n_requests_stamped.
Qed.

Lemma transport_trace_stamped s :
  transport_trace (log (stamped s)) = transport_trace (log s).
Proof.
  unfold stamped, transport_trace. destruct (_ <? _); simpl; [|reflexivity].
  rewrite omap_app; simpl. apply app_nil_r.
Qed.

Lemma transport_trace_called req s :
  transport_trace (log (called w req s)) =
  transport_trace (log s) ++ [EvRequest (now (stamped s)) req].
Proof.
  rewrite <- (transport_trace_stamped s).
  change (log (called w req s))
    with (log (stamped s) ++ [EvRequest (now (stamped s)) req]).
  unfold transport_trace. now rewrite omap_app.
Qed.

Lemma transport_trace_slept k d s :
  k ≠ Pacing →
  transport_trace (log (slept k d s)) = transport_trace (log s) ++ [EvSleep k d].
Proof.
  intros Hk. unfold slept, transport_trace; simpl. rewrite omap_app; simpl.
  now destruct k.
Qed.

Lemma backoff_accepted attempt :
  (0 <=? retry_delay * Z.of_nat (attempt + 1)) = true.
Proof. apply Z.leb_le. unfold retry_delay, seconds. lia. Qed.

(** [time.sleep] on a wait read from outside. *)
Lemma sleep_for_accepted k d s :
  sleep_for w k d s
  = match accepted_wait w d with
    | inr d' => (Ok tt, slept k d' s)
    | inl e => (Raise e, s)
    end.
Proof.
  unfold sleep_for, accepted_wait.
  destruct (clock_limit <? Z.abs d); [reflexivity|].
  destruct (d <? 0); [reflexivity|].
  now destruct (sleep_limit w <? d).
Qed.

(** One round of the loop of [make_request], by what the call gets. *)
Lemma attempt_request_unfold req attempt s :
  attempt_request w req attempt s =
  match http w (n_requests s) req with
  | Fails =>
      if Nat.eqb attempt (max_retries - 1)
      then (Ok (Return None), called w req s)
      else (Ok Continue,
            slept Backoff (retry_delay * Z.of_nat (attempt + 1)) (called w req s))
  | Answers r =>
      if status_code r =? 429 then
        match retry_after_wait w r with
        | inr d => (Ok Continue, slept RateLimited d (called w req s))
        | inl e => (Raise e, called w req s)
        end
      else (Ok (Return (Some r)), called w req s)
  end.
Proof.
  unfold attempt_request, try_except, bind at 1. rewrite rate_limit_stamped.
  unfold bind at 1, session_request. rewrite n_requests_stamped.
  fold (called w req s).
  destruct (http w (n_requests s) req) as [|r]; cbn [request_exception].
  - destruct (Nat.eqb attempt (max_retries - 1)); [reflexivity|].
    unfold bind, sleep. now rewrite backoff_accepted.
  - destruct (status_code r =? 429); [|reflexivity].
    unfold retry_after_wait, retry_after_seconds, bind.
    destruct (retry_after r) as [| |n]; try reflexivity; unfold ret;
      rewrite sleep_for_accepted; unfold accepted_wait;
      (destruct (clock_limit <? _); [reflexivity|]);
      (destruct (_ <? 0); [reflexivity|]);
      now destruct (sleep_limit w <? _).
Qed.

Lemma make_request_unfold req s :
  make_request w req s =
  (do c <- attempt_request w req 0;
   match c with
   | Return r => ret r
   | Continue =>
       do c <- attempt_request w req 1;
       match c with
       | Return r => ret r
       | Continue =>
           do c <- attempt_request w req 2;
           match c with
           | Return r => ret r
           | Continue => ret None
           end
       end
   end) s.
Proof. reflexivity. Qed.

(** A call answered at once with something else than 429. *)
Lemma make_request_answered req s r :
  http w (n_requests s) req = Answers r → status_code r ≠ 429 →
  make_request w req s = (Ok (Some r), called w req s).
Proof.
  intros H Hs. rewrite make_request_unfold. unfold bind at 1.
  rewrite attempt_request_unfold, H.
  apply Z.eqb_neq in Hs. now rewrite Hs.
Qed.

Lemma for_attempts_cons req a rest s :
  for_attempts w req (a :: rest) s =
  match attempt_request w req a s with
  | (Ok Continue, s') => for_attempts w req rest s'
  | (Ok (Return r), s') => (Ok r, s')
  | (Raise e, s') => (Raise e, s')
  | (OutOfFuel, s') => (OutOfFuel, s')
  end.
Proof.
  cbn [for_attempts]. unfold bind.
  destruct (attempt_request w req a s) as [[[|r]|e|] s']; reflexivity.
Qed.

Lemma make_request_rounds req s :
  make_request w req s = for_attempts w req [0; 1; 2]%nat s.
Proof. reflexivity. Qed.

Lemma n_requests_slept k d s : n_requests (slept k d s) = n_requests s.
Proof. reflexivity. Qed.

(** A round whose call fails, before the last round. *)
Lemma round_fails req a rest s :
  http w (n_requests s) req = Fails → Nat.eqb a (max_retries - 1) = false →
  for_attempts w req (a :: rest) s =
  for_attempts w req rest
    (slept Backoff (retry_delay * Z.of_nat (a + 1)) (called w req s)).
Proof.
  intros H Ha. rewrite for_attempts_cons, attempt_request_unfold, H, Ha.
  reflexivity.
Qed.

(** The last round, its call failing. *)
Lemma round_fails_last req a rest s :
  http w (n_requests s) req = Fails → Nat.eqb a (max_retries - 1) = true →
  for_attempts w req (a :: rest) s = (Ok None, called w req s).
Proof.
  intros H Ha. rewrite for_attempts_cons, attempt_request_unfold, H, Ha.
  reflexivity.
Qed.

(** A round whose call is answered with something else than 429. *)
Lemma round_answered req a rest s r :
  http w (n_requests s) req = Answers r → status_code r ≠ 429 →
  for_attempts w req (a :: rest) s = (Ok (Some r), called w req s).
Proof.
  intros H Hr. apply Z.eqb_neq in Hr.
  rewrite for_attempts_cons, attempt_request_unfold, H, Hr. reflexivity.
Qed.

(** A round whose call is answered 429. *)
Lemma round_rate_limited req a rest s r d :
  http w (n_requests s) req = Answers r → status_code r = 429 →
  retry_after_wait w r = inr d →
  for_attempts w req (a :: rest) s =
  for_attempts w req rest (slept RateLimited d (called w req s)).
Proof.
  intros H Hr Hd. apply Z.eqb_eq in Hr.
  rewrite for_attempts_cons, attempt_request_unfold, H, Hr, Hd. reflexivity.
Qed.

End Transport.

(** C4.  [make_request] retries a call that fails at the transport level:
    when the first two attempts fail, it waits [retry_delay * 1] after the
    first and [retry_delay * 2] after the second and makes a third attempt.
    If the third attempt is answered (with anything but 429) the answer is
    returned after exactly three attempts; if it fails too, the result is
    [None], and nothing is raised. *)
Theorem make_request_retries_transport_failures
    (w : World) (req : Request) (s : State) :
  http w (n_requests s) req = Fails →
  http w (S (n_requests s)) req = Fails →
  (∀ r, http w (S (S (n_requests s))) req = Answers r →
        status_code r ≠ 429 →
        ∃ s' t1 t2 t3,
          make_request w req s = (Ok (Some r), s') ∧
          n_requests s' = (n_requests s + 3)%nat ∧
          transport_trace (log s') =
            transport_trace (log s) ++
            [EvRequest t1 req; EvSleep Backoff (retry_delay * 1);
             EvRequest t2 req; EvSleep Backoff (retry_delay * 2);
             EvRequest t3 req])
  ∧ (http w (S (S (n_requests s))) req = Fails →
        ∃ s' t1 t2 t3,
          make_request w req s = (Ok None, s') ∧
          n_requests s' = (n_requests s + 3)%nat ∧
          transport_trace (log s') =
            transport_trace (log s) ++
            [EvRequest t1 req; EvSleep Backoff (retry_delay * 1);
             EvRequest t2 req; EvSleep Backoff (retry_delay * 2);
             EvRequest t3 req]).
Proof.
  intros H1 H2.
  assert (E : make_request w req s =
              for_attempts w req [2%nat]
                (slept Backoff (retry_delay * 2)
                   (called w req
                      (slept Backoff (retry_delay * 1) (called w req s))))).
  { rewrite make_request_rounds.
    rewrite round_fails by (exact H1 || reflexivity).
    rewrite round_fails; [reflexivity| |reflexivity].
    rewrite n_requests_slept, n_requests_called. exact H2. }
  split.
  - intros r H3 Hr. eexists _, _, _, _. rewrite E. split; [|split].
    + apply round_answered; [|exact Hr].
      rewrite !n_requests_slept, !n_requests_called, !n_requests_slept,
        !n_requests_called. exact H3.
    + rewrite !n_requests_called, !n_requests_slept, !n_requests_called,
        !n_requests_slept, !n_requests_called. lia.
    + rewrite transport_trace_called.
      rewrite transport_trace_slept by discriminate.
      rewrite transport_trace_called.
      rewrite transport_trace_slept by discriminate.
      rewrite transport_trace_called. rewrite <- !app_assoc. reflexivity.
  - intros H3. eexists _, _, _, _. rewrite E. split; [|split].
    + apply round_fails_last; [|reflexivity].
      rewrite !n_requests_slept, !n_requests_called, !n_requests_slept,
        !n_requests_called. exact H3.
    + rewrite !n_requests_called, !n_requests_slept, !n_requests_called,
        !n_requests_slept, !n_requests_called. lia.
    + rewrite transport_trace_called.
      rewrite transport_trace_slept by discriminate.
      rewrite transport_trace_called.
      rewrite transport_trace_slept by discriminate.
      rewrite transport_trace_called. rewrite <- !app_assoc. reflexivity.
Qed.

(** The theorem at work: an upstream whose first two calls fail, and one
    whose first three calls fail. *)
Lemma make_request_retries_transport_failures_witness :
  (∃ s' t1 t2 t3,
     make_request (failing_first 2) (GetMe None) fresh_state
       = (Ok (Some (answer 200 EmptyObject)), s') ∧
     n_requests s' = 3%nat ∧
     transport_trace (log s') =
       [EvRequest t1 (GetMe None); EvSleep Backoff (retry_delay * 1);
        EvRequest t2 (GetMe None); EvSleep Backoff (retry_delay * 2);
        EvRequest t3 (GetMe None)])
  ∧ (∃ s' t1 t2 t3,
       make_request (failing_first 3) (GetMe None) fresh_state = (Ok None, s') ∧
       n_requests s' = 3%nat ∧
       transport_trace (log s') =
         [EvRequest t1 (GetMe None); EvSleep Backoff (retry_delay * 1);
          EvRequest t2 (GetMe None); EvSleep Backoff (retry_delay * 2);
          EvRequest t3 (GetMe None)]).
Proof.
  split.
  - apply (proj1 (make_request_retries_transport_failures
                    (failing_first 2) (GetMe None) fresh_state
                    eq_refl eq_refl) (answer 200 EmptyObject)).
    + reflexivity.
    + discriminate.
  - apply (proj2 (make_request_retries_transport_failures
                    (failing_first 3) (GetMe None) fresh_state
                    eq_refl eq_refl)).
    reflexivity.
Defined.

(** ** What a call can come to *)

Section Outcomes.

Variable w : World.

Lemma attempts_called req s :
  attempts (log (called w req s)) = attempts (log s) ++ [req].
Proof.
  change (log (called w req s))
    with (log (stamped s) ++ [EvRequest (now (stamped s)) req]).
  unfold attempts. rewrite (omap_snoc_Some _ _ _ req) by reflexivity.
  f_equal. unfold stamped. destruct (_ <? _); [|reflexivity].
  change (log (with_last_request_time ?t ?x)) with (log x).
  unfold slept. cbn [log with_clock with_log].
  now rewrite omap_snoc_None.
Qed.

Lemma attempts_slept k d s : attempts (log (slept k d s)) = attempts (log s).
Proof.
  unfold slept, attempts. cbn [log with_clock with_log].
  now rewrite omap_snoc_None.
Qed.

(** The rounds of the loop, whatever the list of attempt numbers: [k] calls
    are made, all for [req]; all but the last were retried; the last decides
    the outcome. *)
Lemma for_attempts_outcome req l s res s' :
  for_attempts w req l s = (res, s') →
  ∃ k, (k ≤ length l)%nat
    ∧ n_requests s' = (n_requests s + k)%nat
    ∧ attempts (log s') = attempts (log s) ++ replicate k req
    ∧ (∀ i, (S i < k)%nat → retried w req (n_requests s + i))
    ∧ match res with
      | Ok (Some r) =>
          (0 < k)%nat ∧ http w (n_requests s + pred k) req = Answers r
          ∧ status_code r ≠ 429
      | Ok None =>
          (∀ i, (i < k)%nat → retried w req (n_requests s + i))
          ∧ (k = length l
             ∨ ((0 < k)%nat ∧ l !! pred k = Some (max_retries - 1)%nat))
      | Raise e =>
          (0 < k)%nat
          ∧ ∃ r, http w (n_requests s + pred k) req = Answers r
                 ∧ status_code r = 429 ∧ retry_after_wait w r = inl e
      | OutOfFuel => False
      end.
Proof.
  revert s. induction l as [|a rest IH]; intros s E.
  - injection E as <- <-. exists 0%nat. rewrite Nat.add_0_r, app_nil_r.
    split; [simpl; lia|]. split; [reflexivity|]. split; [reflexivity|].
    split; [intros; lia|]. split; [intros; lia|]. now left.
  - rewrite for_attempts_cons, attempt_request_unfold in E.
    assert (Hshift : ∀ s1, n_requests s1 = S (n_requests s) →
              attempts (log s1) = attempts (log s) ++ [req] →
              retried w req (n_requests s) →
              for_attempts w req rest s1 = (res, s') →
              ∃ k, (k ≤ length (a :: rest))%nat
                ∧ n_requests s' = (n_requests s + k)%nat
                ∧ attempts (log s') = attempts (log s) ++ replicate k req
                ∧ (∀ i, (S i < k)%nat → retried w req (n_requests s + i))
                ∧ match res with
                  | Ok (Some r) =>
                      (0 < k)%nat ∧ http w (n_requests s + pred k) req = Answers r
                      ∧ status_code r ≠ 429
                  | Ok None =>
                      (∀ i, (i < k)%nat → retried w req (n_requests s + i))
                      ∧ (k = length (a :: rest)
                         ∨ ((0 < k)%nat
                            ∧ (a :: rest) !! pred k = Some (max_retries - 1)%nat))
                  | Raise e =>
                      (0 < k)%nat
                      ∧ ∃ r, http w (n_requests s + pred k) req = Answers r
                             ∧ status_code r = 429
                             ∧ retry_after_wait w r = inl e
                  | OutOfFuel => False
                  end).
    { intros s1 Hn Ha Hr E1.
      destruct (IH _ E1) as (k & Hk & Hn' & Ha' & Hre & Hres).
      assert (Hre' : ∀ i, (S i < S k)%nat → retried w req (n_requests s + i)).
      { intros [|i] Hi; [now rewrite Nat.add_0_r|].
        replace (n_requests s + S i)%nat with (n_requests s1 + i)%nat by lia.
        apply Hre. lia. }
      exists (S k). split; [simpl; lia|]. split; [lia|]. split.
      { rewrite Ha', Ha, <- app_assoc. reflexivity. }
      split; [exact Hre'|].
      destruct res as [[r|]|e|].
      - destruct Hres as (Hpos & Hh & Hs). split; [lia|]. split; [|exact Hs].
        replace (n_requests s + pred (S k))%nat
          with (n_requests s1 + pred k)%nat by lia. exact Hh.
      - destruct Hres as (Hall' & Hend). split.
        + intros [|i] Hi; [now rewrite Nat.add_0_r|].
          replace (n_requests s + S i)%nat with (n_requests s1 + i)%nat by lia.
          apply Hall'. lia.
        + destruct Hend as [->|[Hpos Hl]]; [now left|].
          right. split; [lia|]. destruct k; [lia|]. exact Hl.
      - destruct Hres as (Hpos & r & Hh & Hs & Hd).
        split; [lia|]. exists r.
        replace (n_requests s + pred (S k))%nat
          with (n_requests s1 + pred k)%nat by lia. auto.
      - exact Hres. }
    assert (Hone : ∀ P : Prop, P →
              n_requests (called w req s) = (n_requests s + 1)%nat
              ∧ attempts (log (called w req s))
                = attempts (log s) ++ replicate 1 req
              ∧ (∀ i, (S i < 1)%nat → retried w req (n_requests s + i)) ∧ P).
    { intros P HP. rewrite n_requests_called, attempts_called.
      split; [lia|]. split; [reflexivity|]. split; [intros; lia | exact HP]. }
    destruct (http w (n_requests s) req) as [|r] eqn:Hh.
    + destruct (Nat.eqb a (max_retries - 1)) eqn:Ha.
      * injection E as <- <-. exists 1%nat. split; [simpl; lia|].
        apply Hone. split.
        -- intros i Hi. replace i with 0%nat by lia. rewrite Nat.add_0_r.
           now left.
        -- right. split; [lia|]. simpl. apply Nat.eqb_eq in Ha. now rewrite Ha.
      * apply Hshift in E; auto.
        -- now rewrite n_requests_slept, n_requests_called.
        -- now rewrite attempts_slept, attempts_called.
        -- now left.
    + destruct (status_code r =? 429) eqn:Hs.
      * apply Z.eqb_eq in Hs.
        destruct (retry_after_wait w r) as [e|d] eqn:Hd.
        -- injection E as <- <-. exists 1%nat. split; [simpl; lia|].
           apply Hone. split; [lia|].
           exists r. rewrite Nat.add_0_r. auto.
        -- apply Hshift in E; auto.
           ++ now rewrite n_requests_slept, n_requests_called.
           ++ now rewrite attempts_slept, attempts_called.
           ++ right. eauto.
      * apply Z.eqb_neq in Hs. injection E as <- <-. exists 1%nat.
        split; [simpl; lia|]. apply Hone. split; [lia|].
        rewrite Nat.add_0_r. auto.
Qed.

End Outcomes.

Lemma make_request_outcome w req s res s' :
  make_request w req s = (res, s') →
  ∃ k, (k ≤ 3)%nat
    ∧ n_requests s' = (n_requests s + k)%nat
    ∧ attempts (log s') = attempts (log s) ++ replicate k req
    ∧ (∀ i, (S i < k)%nat → retried w req (n_requests s + i))
    ∧ match res with
      | Ok (Some r) =>
          (0 < k)%nat ∧ http w (n_requests s + pred k) req = Answers r
          ∧ status_code r ≠ 429
      | Ok None =>
          (∀ i, (i < k)%nat → retried w req (n_requests s + i)) ∧ k = 3%nat
      | Raise e =>
          (0 < k)%nat
          ∧ ∃ r, http w (n_requests s + pred k) req = Answers r
                 ∧ status_code r = 429 ∧ retry_after_wait w r = inl e
      | OutOfFuel => False
      end.
Proof.
  intros E. rewrite make_request_rounds in E.
  destruct (for_attempts_outcome w req _ s res s' E)
    as (k & Hk & Hn & Ha & Hre & Hres).
  exists k. repeat (split; [assumption|]).
  destruct res as [[r|]|e|]; try exact Hres.
  destruct Hres as (Hall & Hend). split; [exact Hall|].
  destruct Hend as [->|[Hpos Hl]]; [reflexivity|].
  simpl in Hk.
  destruct k as [|[|[|[|k]]]]; try lia; try discriminate Hl; reflexivity.
Qed.


(** ** Rate-limit answers *)

Section Rounds.

Variable w : World.

Lemma accepted_wait_raises d e :
  accepted_wait w d = inl e →
  e = ValueError ∨ e = OverflowError ∨ e = OSError.
Proof.
  unfold accepted_wait. destruct (clock_limit <? _); [intros [= <-]; auto|].
  destruct (d <? 0); [intros [= <-]; auto|].
  destruct (sleep_limit w <? d); [intros [= <-]; auto | discriminate].
Qed.

Lemma accepted_wait_spec d :
  (accepted_wait w d = inl OverflowError ↔ clock_limit < Z.abs d)
  ∧ (accepted_wait w d = inl ValueError ↔ d < 0 ∧ Z.abs d ≤ clock_limit)
  ∧ (accepted_wait w d = inl OSError
     ↔ 0 ≤ d ∧ d ≤ clock_limit ∧ sleep_limit w < d).
Proof.
  unfold accepted_wait.
  destruct (Z.ltb_spec clock_limit (Z.abs d));
    [|destruct (Z.ltb_spec d 0); [|destruct (Z.ltb_spec (sleep_limit w) d)]];
    repeat split;
    first [discriminate | reflexivity | lia | intros; lia | intros _; lia].
Qed.

Lemma retry_after_wait_raises r e :
  retry_after_wait w r = inl e →
  e = ValueError ∨ e = OverflowError ∨ e = OSError.
Proof.
  unfold retry_after_wait. destruct (retry_after r);
    [apply accepted_wait_raises | intros [= <-]; auto
    | apply accepted_wait_raises].
Qed.

(** The calls of a run of the loop only add up. *)
Lemma for_attempts_calls req l s :
  (n_requests s ≤ n_requests (exec (for_attempts w req l) s))%nat.
Proof.
  unfold exec. destruct (for_attempts w req l s) as [res s'] eqn:E.
  destruct (for_attempts_outcome w req l s res s' E) as (k & _ & Hn & _).
  simpl. lia.
Qed.

(** The first [k] rounds of the loop, when each of them goes on to the
    next: [k] calls are made, and the loop is at its round [k]. *)
Lemma rounds_go_on req k :
  ∀ j n s,
    (j + k ≤ 2)%nat →
    (∀ i, (i < k)%nat → goes_on w req (n_requests s + i)) →
    ∃ sk,
      n_requests sk = (n_requests s + k)%nat
      ∧ attempts (log sk) = attempts (log s) ++ replicate k req
      ∧ for_attempts w req (seq j (k + n)) s
        = for_attempts w req (seq (j + k) n) sk.
Proof.
  induction k as [|k IH]; intros j n s Hj Hgo.
  - exists s. rewrite !Nat.add_0_r, app_nil_r. auto.
  - assert (Hnext : ∀ s1,
              n_requests s1 = S (n_requests s) →
              attempts (log s1) = attempts (log s) ++ [req] →
              for_attempts w req (seq j (S k + n)) s
              = for_attempts w req (seq (S j) (k + n)) s1 →
              ∃ sk,
                n_requests sk = (n_requests s + S k)%nat
                ∧ attempts (log sk) = attempts (log s) ++ replicate (S k) req
                ∧ for_attempts w req (seq j (S k + n)) s
                  = for_attempts w req (seq (j + S k) n) sk).
    { intros s1 Hn Ha E.
      destruct (IH (S j) n s1) as (sk & Hn' & Ha' & E'); [lia| |].
      - intros i Hi. replace (n_requests s1 + i)%nat
          with (n_requests s + S i)%nat by lia. apply Hgo. lia.
      - exists sk. split; [lia|]. split.
        + rewrite Ha', Ha, <- app_assoc. reflexivity.
        + rewrite E, E'. f_equal. f_equal. lia. }
    assert (H0 : goes_on w req (n_requests s))
      by (rewrite <- (Nat.add_0_r (n_requests s)); apply Hgo; lia).
    destruct H0 as [Hf|(r & d & Hr & Hs & Hd)].
    + apply (Hnext (slept Backoff (retry_delay * Z.of_nat (j + 1))
                      (called w req s))).
      * now rewrite n_requests_slept, n_requests_called.
      * now rewrite attempts_slept, attempts_called.
      * cbn [Nat.add seq]. apply round_fails; [exact Hf|].
        apply Nat.eqb_neq. unfold max_retries. lia.
    + apply (Hnext (slept RateLimited d (called w req s))).
      * now rewrite n_requests_slept, n_requests_called.
      * now rewrite attempts_slept, attempts_called.
      * cbn [Nat.add seq]. now apply (round_rate_limited w req _ _ s r d).
Qed.

End Rounds.

(** C3, as the code has it.  Take any of the three rounds of the loop of
    [make_request], reached because every earlier round went on (its call
    failed, or was answered 429 with a wait that was slept), and let the
    call of this round be answered 429.  The wait is read from the
    [Retry-After] header ([retry_delay] when the header is absent).  When
    [int] rejects the header, or [time.sleep] the wait (negative, or more
    than its clock holds or the system takes), the exception ends
    [make_request] then and there.
    Otherwise the call is followed by a sleep of that wait and by the rounds
    that are left: at least one more call when this was the first or the
    second round, and the result [None] when it was the third.  So the
    rounds spent on 429 answers are rounds of the same loop of [max_retries]
    attempts as those spent on failures. *)
Theorem make_request_rate_limit_answers
    (w : World) (req : Request) (s : State) (k : nat) (r : Response) :
  (k < 3)%nat →
  (∀ i, (i < k)%nat → goes_on w req (n_requests s + i)) →
  http w (n_requests s + k) req = Answers r →
  status_code r = 429 →
  ∃ sk,
    n_requests sk = (n_requests s + k)%nat
    ∧ attempts (log sk) = attempts (log s) ++ replicate k req
    ∧ match retry_after_wait w r with
      | inl e =>
          (e = ValueError ∨ e = OverflowError ∨ e = OSError)
          ∧ make_request w req s = (Raise e, called w req sk)
      | inr d =>
          make_request w req s
          = for_attempts w req (seq (S k) (2 - k))
              (slept RateLimited d (called w req sk))
          ∧ ((k < 2)%nat →
             (n_requests s + k + 2
              ≤ n_requests (exec (make_request w req) s))%nat)
          ∧ (k = 2%nat →
             make_request w req s
             = (Ok None, slept RateLimited d (called w req sk)))
      end.
Proof.
  intros Hk Hgo Hr Hs.
  destruct (rounds_go_on w req k 0 (3 - k) s) as (sk & Hn & Ha & E);
    [lia | exact Hgo |].
  exists sk. split; [exact Hn|]. split; [exact Ha|].
  assert (E' : make_request w req s
               = for_attempts w req (k :: seq (S k) (2 - k)) sk).
  { rewrite make_request_rounds.
    change [0; 1; 2]%nat with (seq 0 3). replace 3%nat with (k + (3 - k))%nat at 1 by lia.
    rewrite E. cbn [Nat.add]. replace (3 - k)%nat with (S (2 - k)) by lia.
    reflexivity. }
  rewrite <- Hn in Hr. apply Z.eqb_eq in Hs.
  rewrite for_attempts_cons, attempt_request_unfold, Hr, Hs in E'.
  destruct (retry_after_wait w r) as [e|d] eqn:Hd.
  - split; [now apply (retry_after_wait_raises w r) | exact E'].
  - split; [exact E'|]. split.
    + intros Hk2. unfold exec. rewrite E'.
      replace (2 - k)%nat with (S (1 - k)) by lia. cbn [seq].
      set (s1 := slept RateLimited d (called w req sk)).
      assert (H1 : n_requests s1 = (n_requests s + k + 1)%nat)
        by (unfold s1; rewrite n_requests_slept, n_requests_called; lia).
      rewrite for_attempts_cons.
      pose proof (attempt_request_unfold w req (S k) s1) as U.
      destruct (attempt_request w req (S k) s1) as [res s2].
      assert (H2 : n_requests s2 = S (n_requests s1)).
      { destruct (http w (n_requests s1) req) as [|r'].
        - destruct (Nat.eqb (S k) (max_retries - 1)); injection U as _ ->;
            now rewrite ?n_requests_slept, n_requests_called.
        - destruct (status_code r' =? 429);
            [destruct (retry_after_wait w r')|]; injection U as _ ->;
            now rewrite ?n_requests_slept, n_requests_called. }
      destruct res as [[|r']|e|]; cbn [snd]; try lia.
      pose proof (for_attempts_calls w req (seq (S (S k)) (1 - k)) s2) as H3.
      unfold exec in H3. lia.
    + intros ->. exact E'.
Qed.

(** Three 429 answers in a row, each with [Retry-After: 7]: the third round
    sleeps its seven seconds and the call ends in [None]. *)
Lemma make_request_rate_limit_answers_witness :
  ∃ sk,
    n_requests sk = 2%nat
    ∧ make_request always_rate_limited (GetMe None) fresh_state
      = (Ok None,
         slept RateLimited (seconds 7)
           (called always_rate_limited (GetMe None) sk)).
Proof.
  destruct (make_request_rate_limit_answers always_rate_limited (GetMe None)
              fresh_state 2 (rate_limit_answer 7))
    as (sk & Hn & _ & H); [lia | | reflexivity | reflexivity |].
  - intros i _. right. exists (rate_limit_answer 7), (seconds 7).
    repeat split.
  - change (retry_after_wait always_rate_limited (rate_limit_answer 7))
      with (@inr Exn Z (seconds 7)) in H.
    destruct H as (_ & _ & H). exists sk. split; [exact Hn | now apply H].
Defined.

(** Against C3 as stated: three 429 answers in a row use up the three
    rounds of the loop, and the call ends in the no-response outcome. *)
Lemma rate_limit_answers_exhaust_the_call :
  (make_request always_rate_limited (GetMe None) fresh_state).1 = Ok None
  ∧ length (attempts
      (log (exec (make_request always_rate_limited (GetMe None)) fresh_state)))
    = 3%nat.
Proof. split; vm_compute; reflexivity. Qed.

(** * What the returned values are *)

Section Yields.

Lemma yields_ret {A} (Q : A → Prop) a : Q a → yields Q (ret a).
Proof. intros H s a' s' E. inversion E; now subst. Qed.

Lemma yields_raise {A} (Q : A → Prop) e : yields Q (raise e).
Proof. intros s a' s' E. discriminate. Qed.

Lemma yields_bind {A B} (P : A → Prop) (Q : B → Prop) (m : M A) (f : A → M B) :
  yields P m → (∀ a, P a → yields Q (f a)) → yields Q (bind m f).
Proof.
  intros Hm Hf s b s' E. unfold bind in E.
  destruct (m s) as [[a|e|] s1] eqn:Em; try discriminate.
  eapply Hf; [eapply Hm, Em | exact E].
Qed.

Lemma yields_any {A} (m : M A) : yields (λ _, True) m.
Proof. intros s a s' _. exact I. Qed.

Lemma yields_try {A} (Q : A → Prop) (m : M A) handles (h : M A) :
  yields Q m → yields Q h → yields Q (try_except m handles h).
Proof.
  intros Hm Hh s a s' E. unfold try_except in E.
  destruct (m s) as [[a'|e|] s1] eqn:Em; try discriminate.
  - inversion E; subst. eapply Hm, Em.
  - destruct (handles e); [eapply Hh, E | discriminate].
Qed.

Lemma yields_json r : yields (λ b, b = body r) (json r).
Proof.
  intros s b s' E. unfold json in E.
  destruct (body r); inversion E; reflexivity.
Qed.

End Yields.

Section Provenance.

Variable w : World.

(** A response that [make_request] returns is one the upstream gave to that
    very request. *)
Lemma make_request_answer_of_upstream req :
  yields (λ o, ∀ r, o = Some r → ∃ n, http w n req = Answers r)
         (make_request w req).
Proof.
  unfold make_request. induction (seq 0 max_retries) as [|a l IH]; simpl.
  - apply yields_ret. discriminate.
  - eapply yields_bind with
      (P := λ c, ∀ r, c = Return (Some r) → ∃ n, http w n req = Answers r).
    + intros s c s' E. rewrite attempt_request_unfold in E.
      destruct (http w (n_requests s) req) as [|r0] eqn:H.
      * destruct (Nat.eqb a (max_retries - 1)); inversion E; discriminate.
      * destruct (status_code r0 =? 429).
        -- destruct (retry_after_wait w r0); inversion E; discriminate.
        -- inversion E; subst. intros r Hr. inversion Hr; subst. eauto.
    + intros [|o] Hc; [exact IH|]. apply yields_ret.
      intros r ->. now apply Hc.
Qed.

Lemma collect_negotiations_from processed name (Q : Application → Prop) negs apps :
  Forall Q apps →
  (∀ n, n ∈ negs → neg_id n ≠ EmptyString →
        Q {| negotiation := n; vacancy_name := name |}) →
  Forall Q (collect_negotiations processed name negs apps).
Proof.
  revert apps. induction negs as [|n rest IH]; intros apps Ha Hn; simpl; [exact Ha|].
  destruct (negb (bool_decide (neg_id n = EmptyString))) eqn:Hne; simpl.
  - apply negb_true_iff, bool_decide_eq_false in Hne.
    destruct (negb (bool_decide (neg_id n ∈ processed))).
    + apply IH.
      * apply Forall_app. split; [exact Ha|]. constructor; [|constructor].
        apply Hn; [left | exact Hne].
      * intros n' Hn'. apply Hn. now right.
    + apply IH; [exact Ha|]. intros n' Hn'. apply Hn. now right.
  - apply IH; [exact Ha|]. intros n' Hn'. apply Hn. now right.
Qed.

Lemma fetch_negotiations_fetched h v apps :
  Forall (fetched w) apps →
  yields (Forall (fetched w)) (fetch_negotiations w h v apps).
Proof.
  intros Ha. unfold fetch_negotiations.
  destruct (bool_decide _); [now apply yields_ret|].
  apply yields_try; [|now apply yields_ret].
  eapply yields_bind; [apply make_request_answer_of_upstream|].
  intros [r|] Hr; [|now apply yields_ret].
  destruct (_ && _); [|now apply yields_ret].
  eapply yields_bind; [apply yields_json|]. intros b ->.
  eapply yields_bind; [apply yields_any|]. intros processed _.
  apply yields_ret. apply collect_negotiations_from; [exact Ha|].
  intros n Hn Hne. destruct (Hr r eq_refl) as [k Hk].
  split; [|exact Hne]. exists k, h, (vac_id v), r. split; [exact Hk | exact Hn].
Qed.

Lemma for_vacancies_fetched h vs apps :
  Forall (fetched w) apps →
  yields (Forall (fetched w)) (for_vacancies w h vs apps).
Proof.
  revert apps. induction vs as [|v rest IH]; intros apps Ha; simpl.
  - now apply yields_ret.
  - eapply yields_bind; [now apply fetch_negotiations_fetched|].
    intros apps' Ha'. now apply IH.
Qed.

Lemma get_hh_applications_fetched :
  yields (Forall (fetched w)) (get_hh_applications w).
Proof.
  unfold get_hh_applications.
  eapply yields_bind; [apply yields_any|]. intros token _.
  destruct (negb _).
  { eapply yields_bind; [apply yields_any|]. intros; now apply yields_ret. }
  apply yields_try.
  2:{ eapply yields_bind; [apply yields_any|]. intros; now apply yields_ret. }
  eapply yields_bind; [apply yields_any|]. intros headers _.
  eapply yields_bind; [apply yields_any|]. intros [me_r|] _.
  2:{ eapply yields_bind; [apply yields_any|]. intros; now apply yields_ret. }
  destruct (_ || _).
  { eapply yields_bind; [apply yields_any|]. intros; now apply yields_ret. }
  eapply yields_bind; [apply yields_any|]. intros data _.
  destruct (me_fields data) as [[? ?] employer_id].
  destruct (bool_decide _).
  { eapply yields_bind; [apply yields_any|]. intros; now apply yields_ret. }
  eapply yields_bind; [apply yields_any|]. intros [v_r|] _.
  2:{ eapply yields_bind; [apply yields_any|]. intros; now apply yields_ret. }
  destruct (_ || _).
  { eapply yields_bind; [apply yields_any|]. intros; now apply yields_ret. }
  eapply yields_bind; [apply yields_any|]. intros vdata _.
  destruct (vacancies_of vdata) as [|v vs]; [now apply yields_ret|].
  now apply for_vacancies_fetched.
Qed.

End Provenance.

(** * Pacing of the outbound calls *)

Lemma pairwise_spaced_snoc gap l t bound :
  pairwise_spaced gap l → Forall (λ x, x ≤ bound) l → bound + gap ≤ t →
  pairwise_spaced gap (l ++ [t]).
Proof.
  intros Hl Hb Ht i j ti tj Hij Hi Hj.
  assert (Hlen : (j < length (l ++ [t]))%nat) by (eapply lookup_lt_Some; eauto).
  rewrite length_app in Hlen; simpl in Hlen.
  assert (Hil : l !! i = Some ti) by (rewrite lookup_app_l in Hi by lia; exact Hi).
  destruct (decide (j < length l)%nat) as [Hjl|Hjl].
  - rewrite lookup_app_l in Hj by lia. exact (Hl i j ti tj Hij Hil Hj).
  - assert (j = length l) by lia; subst j.
    rewrite list_lookup_middle in Hj by reflexivity. inversion Hj; subst tj.
    rewrite Forall_forall in Hb. apply list_elem_of_lookup_2 in Hil.
    specialize (Hb _ Hil). simpl in Hb. lia.
Qed.

Lemma request_starts_stamped s :
  request_starts (log (stamped s)) = request_starts (log s).
Proof.
  unfold stamped, request_starts. destruct (_ <? _); simpl; [|reflexivity].
  rewrite omap_app; simpl. apply app_nil_r.
Qed.

(** [rate_limit] never records a time less than a full interval after the
    time it recorded before. *)
Lemma stamped_waits s :
  last_request_time (stamped s) = now (stamped s)
  ∧ last_request_time s + min_request_interval ≤ now (stamped s).
Proof.
  unfold stamped. destruct (_ <? _) eqn:E; simpl; split; try reflexivity.
  - lia.
  - apply Z.ltb_ge in E. lia.
Qed.

Lemma paced_called w req s : paced s → paced (called w req s).
Proof.
  intros [Hs Hb]. destruct (stamped_waits s) as [Hl Hw].
  assert (Hst : request_starts (log (called w req s)) =
                request_starts (log s) ++ [now (stamped s)]).
  { rewrite <- (request_starts_stamped s).
    change (log (called w req s))
      with (log (stamped s) ++ [EvRequest (now (stamped s)) req]).
    unfold request_starts. now rewrite omap_app. }
  assert (Hlast : last_request_time (called w req s) = now (stamped s))
    by (rewrite <- Hl; reflexivity).
  unfold paced. rewrite Hst, Hlast. split.
  - eapply pairwise_spaced_snoc; eauto.
  - apply Forall_app. split.
    + eapply Forall_impl; [exact Hb|]. cbv beta. intros t Ht.
      unfold min_request_interval, seconds in Hw. lia.
    + constructor; [lia | constructor].
Qed.

Lemma exec_call w req s :
  exec (rate_limit ;;; session_request w req) s = called w req s.
Proof.
  unfold exec, bind. rewrite rate_limit_stamped. unfold session_request.
  now destruct (http w (n_requests (stamped s)) req).
Qed.

Lemma make_request_paced w req : preserves (λ s s', paced s → paced s') (make_request w req).
Proof.
  apply preserves_make_request
    with (allowed := λ e, start_of e = None) (allowed_req := λ _, True); auto.
  - intros s e He [Hs Hb]. unfold paced, request_starts; simpl.
    rewrite omap_app; simpl. rewrite He, app_nil_r. now split.
  - intros r _ s Hs. rewrite exec_call. now apply paced_called.
Qed.

Lemma call_sequence_paced w calls s :
  paced s → paced (exec (call_sequence w calls) s).
Proof.
  revert s. induction calls as [|[idle req] rest IH]; intros s Hs; [exact Hs|].
  simpl. unfold exec, bind at 1.
  assert (H1 : paced (exec (caught (sleep Idle idle)) s)).
  { revert Hs. generalize s.
    apply (preserves_caught (λ s s', paced s → paced s')); auto.
    intros s0. unfold exec, sleep. destruct (0 <=? idle); [|auto].
    intros [Ha Hb]. unfold paced, request_starts, modify, slept; simpl.
    rewrite omap_app; simpl. rewrite app_nil_r. now split. }
  unfold exec in H1.
  destruct (caught (sleep Idle idle) s) as [[a|e|] s1]; simpl in *; auto.
  unfold bind at 1.
  assert (H2 : paced (exec (caught (make_request w req)) s1)).
  { revert H1. generalize s1.
    apply (preserves_caught (λ s s', paced s → paced s')); auto.
    apply make_request_paced. }
  unfold exec in H2.
  destruct (caught (make_request w req) s1) as [[a'|e|] s2]; simpl in *; auto.
  apply IH, H2.
Qed.

(** C5.  Whatever calls are made through [make_request], with whatever idle
    time between them and whatever the upstream does, any two outbound calls
    begin at least [min_request_interval] apart: before each call
    [rate_limit] sleeps for what remains of the interval since it last
    recorded a call. *)
Theorem outbound_calls_are_paced
    (w : World) (calls : list (Z * Request)) (s : State) :
  paced s →
  pairwise_spaced min_request_interval
    (request_starts (log (exec (call_sequence w calls) s))).
Proof. intros Hs. now apply call_sequence_paced. Qed.

(** Three calls with no idle time on an instant upstream whose second
    call fails once: four attempts, one second and more apart. *)
Lemma outbound_calls_are_paced_witness :
  pairwise_spaced min_request_interval
    (request_starts
       (log (exec (call_sequence instant_upstream
                     [(0, GetMe None); (0, GetMe None); (0, GetMe None)])
               fresh_state)))
  ∧ request_starts
      (log (exec (call_sequence instant_upstream
                    [(0, GetMe None); (0, GetMe None); (0, GetMe None)])
              fresh_state))
    = [seconds 1700000000; seconds 1700000001; seconds 1700000006;
       seconds 1700000007].
Proof.
  split.
  - apply (outbound_calls_are_paced instant_upstream
             [(0, GetMe None); (0, GetMe None); (0, GetMe None)] fresh_state).
    split; [|constructor]. intros i j ti tj _ Hi. discriminate Hi.
  - vm_compute. reflexivity.
Defined.

(** * Token freshness *)

Lemma exec_emit_bind {A} e (k : M A) s :
  exec (emit e ;;; k) s = exec k (with_log (log s ++ [e]) s).
Proof. reflexivity. Qed.

Lemma omap_log_called {B} (f : Event → option B) w req s :
  f (EvSleep Pacing (min_request_interval - (now s - last_request_time s))) = None →
  f (EvRequest (now (stamped s)) req) = None →
  omap f (log (called w req s)) = omap f (log s).
Proof.
  intros Hs Hr.
  change (log (called w req s))
    with (log (stamped s) ++ [EvRequest (now (stamped s)) req]).
  rewrite omap_snoc_None by exact Hr.
  unfold stamped. destruct (_ <? _); [|reflexivity].
  change (log (with_last_request_time ?t ?x)) with (log x).
  unfold slept. cbn [log with_clock with_log].
  now rewrite omap_snoc_None.
Qed.

(** Apart from its own entry, [refresh_access_token] logs no entry of
    itself: every run of it counts once. *)
Lemma refresh_access_token_counts_once w s :
  refreshes (log (exec (refresh_access_token w) s)) = S (refreshes (log s)).
Proof.
  destruct (refresh_access_token_split w
              (λ s s', omap refresh_of (log s') = omap refresh_of (log s)))
    with (allowed := λ e, refresh_of e = None) (allowed_req := λ _ : Request, True)
    as (body & Heq & Hbody); auto.
  - intros s1 s2 s3 H1 H2. now rewrite H2.
  - intros s0 e He. cbn [log with_log]. now apply omap_snoc_None.
  - intros req _ s0. rewrite exec_call. now apply omap_log_called.
  - rewrite Heq, exec_emit_bind. unfold refreshes. rewrite Hbody.
    cbn [log with_log]. rewrite (omap_snoc_Some _ _ _ tt) by reflexivity.
    rewrite length_app; simpl. lia.
Qed.

(** What [get_auth_headers] does, by the outcome of the expiry test. *)
Lemma get_auth_headers_unfold w s :
  get_auth_headers w s =
  match token_expires_at s with
  | Some expires_at =>
      if expires_at - refresh_margin <=? now s then
        match refresh_access_token w s with
        | (Ok true, s') => (Ok (hh_access_token s'), s')
        | (Ok false, s') => (Raise TokenRefreshFailed, s')
        | (Raise e, s') => (Raise e, s')
        | (OutOfFuel, s') => (OutOfFuel, s')
        end
      else (Ok (hh_access_token s), s)
  | None => (Ok (hh_access_token s), s)
  end.
Proof.
  unfold get_auth_headers, is_token_expired, bind, gets, ret.
  destruct (token_expires_at s) as [e|]; [|reflexivity].
  destruct (e - refresh_margin <=? now s); [|reflexivity].
  destruct (refresh_access_token w s) as [[[|]|x|] s']; reflexivity.
Qed.



(** * What the fetch asks the upstream for *)

Lemma extends_with_same_log P s s' : log s' = log s → extends_with P s s'.
Proof. intros H. exists []. split; [now rewrite app_nil_r | constructor]. Qed.

Lemma extends_with_refl P s : extends_with P s s.
Proof. now apply extends_with_same_log. Qed.

Lemma extends_with_trans P s1 s2 s3 :
  extends_with P s1 s2 → extends_with P s2 s3 → extends_with P s1 s3.
Proof.
  intros (n1 & E1 & F1) (n2 & E2 & F2). exists (n1 ++ n2). split.
  - now rewrite E2, E1, app_assoc.
  - apply Forall_app. now split.
Qed.

Lemma extends_with_called P w req s :
  (∀ d, P (EvSleep Pacing d)) → (∀ t, P (EvRequest t req)) →
  extends_with P s (called w req s).
Proof.
  intros Hs Hr. apply extends_with_trans with (stamped s).
  - unfold stamped. destruct (_ <? _); [|now apply extends_with_same_log].
    eexists [_]. split; [reflexivity|]. constructor; [apply Hs | constructor].
  - eexists [_]. split; [reflexivity|]. constructor; [apply Hr | constructor].
Qed.

Lemma get_hh_applications_first_page_only w :
  preserves (extends_with first_page_only) (get_hh_applications w).
Proof.
  apply preserves_get_hh_applications
    with (allowed := first_page_only)
         (allowed_req := λ req, ∀ t, first_page_only (EvRequest t req));
    try (intros; exact I); try (intros; simpl; auto; fail).
  - apply extends_with_refl.
  - apply extends_with_trans.
  - intros. now apply extends_with_same_log.
  - intros s e He. eexists [_]. split; [reflexivity|]. now constructor.
  - intros. now apply extends_with_same_log.
  - intros. now apply extends_with_same_log.
  - intros req Hreq s. rewrite exec_call. apply extends_with_called; auto.
    intros; exact I.
Qed.

Section FirstPages.

Variable w : World.

Lemma processed_ids_called req s : processed_ids (called w req s) = processed_ids s.
Proof. unfold called, requested, stamped. now destruct (_ <? _). Qed.

Lemma hh_access_token_called req s :
  hh_access_token (called w req s) = hh_access_token s.
Proof. unfold called, requested, stamped. now destruct (_ <? _). Qed.

(** A call that the upstream answers with a 200. *)
Lemma make_request_served req b s :
  answers_with w req b →
  ∃ r, make_request w req s = (Ok (Some r), called w req s)
       ∧ status_code r = 200 ∧ body r = b.
Proof.
  intros H. destruct (H (n_requests s)) as (r & Hr & Hs & Hb).
  exists r. split; [|now split].
  apply make_request_answered; [exact Hr|]. rewrite Hs. discriminate.
Qed.

Lemma ok_200 r : status_code r = 200 → response_ok r = true.
Proof. intros H. unfold response_ok. now rewrite H. Qed.

Lemma collect_negotiations_new_applications processed vacancy negs apps :
  collect_negotiations processed
    (default "Noma'lum vakansiya"%string (vac_name vacancy)) negs apps
  = apps ++ new_applications processed vacancy negs.
Proof.
  revert apps. induction negs as [|n rest IH]; intros apps.
  - cbn. now rewrite app_nil_r.
  - cbn [collect_negotiations]. unfold new_applications.
    destruct (decide (neg_id n ≠ EmptyString ∧ neg_id n ∉ processed))
      as [[H1 H2]|H].
    + rewrite filter_cons_True by (now split).
      rewrite bool_decide_eq_false_2 by exact H1.
      rewrite bool_decide_eq_false_2 by exact H2.
      cbn [negb andb map]. rewrite IH. unfold new_applications.
      now rewrite <- app_assoc.
    + rewrite filter_cons_False by exact H.
      assert (E : negb (bool_decide (neg_id n = EmptyString))
                  && negb (bool_decide (neg_id n ∈ processed)) = false).
      { destruct (bool_decide (neg_id n = EmptyString)) eqn:E1; [reflexivity|].
        destruct (bool_decide (neg_id n ∈ processed)) eqn:E2; [reflexivity|].
        apply bool_decide_eq_false in E1, E2. tauto. }
      rewrite E. apply IH.
Qed.

(** One posting with an identifier, on an upstream that serves its
    negotiations. *)
Lemma fetch_negotiations_served headers v negs apps s :
  vac_id v ≠ EmptyString →
  answers_with w (GetNegotiations headers (vac_id v) 100 0)
    (NegotiationsBody negs) →
  fetch_negotiations w headers v apps s
  = (Ok (apps ++ new_applications (processed_ids s) v negs),
     called w (GetNegotiations headers (vac_id v) 100 0) s).
Proof.
  intros Hid Hserved. unfold fetch_negotiations.
  rewrite bool_decide_eq_false_2 by exact Hid.
  destruct (make_request_served _ _ s Hserved) as (r & E & Hs & Hb).
  apply try_ok. unfold bind at 1. rewrite E.
  rewrite (ok_200 r Hs), Hs. cbn [andb Z.eqb Pos.eqb].
  unfold json. rewrite Hb. unfold bind, ret, gets.
  cbn [negotiations_of]. rewrite processed_ids_called.
  now rewrite collect_negotiations_new_applications.
Qed.

Lemma for_vacancies_served headers negotiations vacancies :
  ∀ apps s,
    (∀ v, v ∈ vacancies →
          answers_with w (GetNegotiations headers (vac_id v) 100 0)
            (NegotiationsBody (negotiations (vac_id v)))) →
    ∃ s',
      for_vacancies w headers vacancies apps s
      = (Ok (apps ++ first_page_applications (processed_ids s) vacancies
                       negotiations), s')
      ∧ processed_ids s' = processed_ids s
      ∧ attempts (log s')
        = attempts (log s) ++ negotiation_calls headers vacancies.
Proof.
  induction vacancies as [|v rest IH]; intros apps s Hserved.
  - exists s. cbn. now rewrite !app_nil_r.
  - assert (Hrest : ∀ v', v' ∈ rest →
              answers_with w (GetNegotiations headers (vac_id v') 100 0)
                (NegotiationsBody (negotiations (vac_id v'))))
      by (intros v' Hv'; apply Hserved; now right).
    cbn [for_vacancies]. unfold first_page_applications, negotiation_calls, with_id.
    destruct (decide (vac_id v = EmptyString)) as [Hid|Hid].
    + rewrite filter_cons_False by (intros H; now apply H).
      unfold bind at 1. unfold fetch_negotiations.
      rewrite bool_decide_eq_true_2 by exact Hid. unfold ret.
      apply (IH apps s Hrest).
    + rewrite filter_cons_True by exact Hid.
      unfold bind at 1.
      rewrite (fetch_negotiations_served headers v (negotiations (vac_id v)))
        by (first [exact Hid | apply Hserved; now left]).
      destruct (IH (apps ++ new_applications (processed_ids s) v
                              (negotiations (vac_id v)))
                  (called w (GetNegotiations headers (vac_id v) 100 0) s) Hrest)
        as (s' & E & Hp & Ha).
      rewrite processed_ids_called in E, Hp. rewrite attempts_called in Ha.
      exists s'. split; [|split; [exact Hp|]].
      * rewrite E. cbn [flat_map]. unfold first_page_applications, with_id.
        now rewrite <- app_assoc.
      * rewrite Ha. cbn [map]. unfold negotiation_calls, with_id.
        now rewrite <- app_assoc.
Qed.

(** The fetch on an upstream that is up, with a token in place. *)
Lemma get_hh_applications_served s token employer_id vacancies negotiations :
  token_ready s token →
  serves w (Some token) employer_id vacancies negotiations →
  (get_hh_applications w s).1
  = Ok (first_page_applications (processed_ids s) vacancies negotiations)
  ∧ attempts (log (exec (get_hh_applications w) s))
    = attempts (log s)
      ++ GetMe (Some token) :: GetVacancies (Some token) employer_id 100 0
         :: negotiation_calls (Some token) vacancies.
Proof.
  intros (Htoken & Hne & Hfresh) (Hemp & (is_employer & email & Hme) & Hvac & Hneg).
  assert (Hh : get_auth_headers w s = (Ok (Some token), s)).
  { rewrite get_auth_headers_unfold.
    destruct (token_expires_at s) as [e|]; [|now rewrite Htoken].
    apply Z.leb_gt in Hfresh. now rewrite Hfresh, Htoken. }
  destruct (make_request_served _ _ s Hme) as (r1 & E1 & Hs1 & Hb1).
  set (s1 := called w (GetMe (Some token)) s) in *.
  destruct (make_request_served _ _ s1 Hvac) as (r2 & E2 & Hs2 & Hb2).
  set (s2 := called w (GetVacancies (Some token) employer_id 100 0) s1) in *.
  assert (Hp2 : processed_ids s2 = processed_ids s)
    by (unfold s2, s1; now rewrite !processed_ids_called).
  assert (Ha2 : attempts (log s2)
                = attempts (log s)
                  ++ [GetMe (Some token);
                      GetVacancies (Some token) employer_id 100 0]).
  { unfold s2, s1. rewrite !attempts_called, <- app_assoc. reflexivity. }
  destruct (for_vacancies_served (Some token) negotiations vacancies [] s2 Hneg)
    as (s3 & E3 & Hp3 & Ha3).
  rewrite Hp2 in E3. cbn [app] in E3.
  assert (E : get_hh_applications w s
              = (Ok (first_page_applications (processed_ids s) vacancies
                       negotiations),
                 match vacancies with [] => s2 | _ => s3 end)).
  { unfold get_hh_applications. unfold bind at 1, gets. rewrite Htoken.
    destruct token as [|c token]; [congruence|]. cbn [truthy_str negb].
    apply try_ok. unfold bind at 1. rewrite Hh.
    unfold bind at 1. rewrite E1.
    rewrite (ok_200 r1 Hs1), Hs1. cbn [negb orb Z.eqb Pos.eqb].
    unfold bind at 1, json. rewrite Hb1. unfold ret at 1. cbn [me_fields].
    rewrite bool_decide_eq_false_2 by exact Hemp.
    unfold bind at 1. fold s1. rewrite E2.
    rewrite (ok_200 r2 Hs2), Hs2. cbn [negb orb Z.eqb Pos.eqb].
    unfold bind at 1, json. rewrite Hb2. unfold ret at 1. cbn [vacancies_of].
    destruct vacancies as [|v rest]; [reflexivity|]. exact E3. }
  unfold exec. rewrite E. cbn [fst snd]. split; [reflexivity|].
  destruct vacancies as [|v rest].
  - rewrite Ha2. cbn. reflexivity.
  - rewrite Ha3, Ha2, <- app_assoc. reflexivity.
Qed.

End FirstPages.




(** * The access test and unauthorized answers *)

Lemma unauthorized_is_not_ok r : status_code r = 401 → response_ok r = false.
Proof. intros H. unfold response_ok. now rewrite H. Qed.

(** The branch of [test_api_access] for status 401 comes after the test
    [if not response], which a 401 answer already satisfies: the recursive
    call in that branch is never made, and one level of depth is all the
    method ever uses. *)
Lemma test_api_access_never_retries w depth s :
  test_api_access w (S depth) s = test_api_access w 1 s.
Proof.
  cbn [test_api_access].
  apply bind_ext; intros _ s1. apply bind_ext; intros token s2.
  destruct (negb (truthy_str token)); [reflexivity|].
  apply try_ext; intros s3. apply bind_ext; intros headers s4.
  apply bind_ext; intros [r|] s5; [|reflexivity].
  destruct (negb (response_ok r)) eqn:Hok; [reflexivity|].
  destruct (status_code r =? 200); [reflexivity|].
  destruct (status_code r =? 401) eqn:H401; [|reflexivity].
  apply Z.eqb_eq, unauthorized_is_not_ok in H401. rewrite H401 in Hok. discriminate.
Qed.

(** With one level of depth or more the access test always returns a value:
    the depth bound of the model is never what ends it. *)
Lemma returns_test_api_access w depth : returns (test_api_access w (S depth)).
Proof.
  intros s. rewrite test_api_access_never_retries. revert s.
  change (returns (test_api_access w 1)). cbn [test_api_access]. unfold emit.
  apply returns_bind; [apply returns_modify | intros _].
  apply returns_bind; [apply returns_gets | intros token].
  destruct (negb (truthy_str token)); [apply returns_ret|].
  apply returns_try; [|apply returns_ret].
  apply safe_bind; [apply safe_get_auth_headers | intros headers].
  apply safe_bind; [apply safe_make_request | intros [r|]]; [|apply safe_ret].
  destruct (negb (response_ok r)) eqn:Hok; [apply safe_ret|].
  destruct (status_code r =? 200).
  { apply safe_bind; [apply safe_json | intros user_data].
    destruct (me_fields user_data) as [[[] email] id]; apply safe_ret. }
  destruct (status_code r =? 401) eqn:H401.
  { apply Z.eqb_eq, unauthorized_is_not_ok in H401. rewrite H401 in Hok. discriminate. }
  destruct (status_code r =? 403); [apply safe_ret|].
  destruct (status_code r =? 404); apply safe_ret.
Qed.

(** C8, the code at the failing input.  The upstream answers 401 to [/me]
    and would grant a refresh; a refresh token is stored.  The access test
    makes one call to [/me], never enters [refresh_access_token], is itself
    entered once (there is no second, recursive run) and reports a
    failure. *)
Theorem unauthorized_answer_is_not_retried :
  (test_api_access unauthorized_upstream 5 fresh_state).1
    = Ok (false, "API ga so'rov yuborib bo'lmadi"%string)
  ∧ attempts (log (exec (test_api_access unauthorized_upstream 5) fresh_state))
    = [GetMe (Some "token"%string)]
  ∧ refreshes (log (exec (test_api_access unauthorized_upstream 5) fresh_state))
    = 0%nat
  ∧ access_tests (log (exec (test_api_access unauthorized_upstream 5) fresh_state))
    = 1%nat.
Proof. repeat split; vm_compute; reflexivity. Qed.

(** * Compaction of the ledger *)

Lemma with_io_with_backups_id s :
  with_io (n_io s) (with_backups (backup_files s) s) = s.
Proof. now destruct s. Qed.

(** What compaction does to a ledger within the size limit. *)
Lemma cleanup_small_ledger_shape w s :
  file_size (file_content (ledger_file s)) ≤ max_ledger_bytes →
  ∃ k backups,
    cleanup_old_processed_ids w s = (Ok tt, with_io k (with_backups backups s))
    ∧ (backups = backup_files s
       ∨ (backup_files s !! today s = None
          ∧ backups = <[today s := universal_newlines (file_content (ledger_file s))]>
                        (backup_files s))).
Proof.
  intros Hsize. apply Z.ltb_ge in Hsize.
  unfold cleanup_old_processed_ids, try_except, bind, gets, modify, ret, file_op.
  destruct (ledger_file s) as [content|] eqn:Hl; cbn [fst snd].
  2:{ exists (n_io s), (backup_files s). rewrite with_io_with_backups_id. auto. }
  cbn [file_content] in Hsize.
  destruct (backup_files s !! today s) as [old|] eqn:Hb; cbn [fst snd n_io with_clock].
  - destruct (io_ok w (n_io s)); cbn [any_exception n_io with_clock ledger_file file_content].
    + rewrite Hl. cbn [file_content]. rewrite Hsize.
      exists (S (n_io s)), (backup_files s). split; [|now left].
      now destruct s.
    + exists (S (n_io s)), (backup_files s). split; [|now left]. now destruct s.
  - destruct (io_ok w (n_io s)); cbn [any_exception n_io with_clock ledger_file file_content].
    2:{ exists (S (n_io s)), (backup_files s). split; [|now left]. now destruct s. }
    destruct (io_ok w (S (n_io s)));
      cbn [any_exception n_io with_clock with_files ledger_file file_content].
    2:{ exists (S (S (n_io s))), (backup_files s). split; [|now left]. now destruct s. }
    rewrite Hl. cbn [file_content].
    destruct (io_ok w (S (S (n_io s))));
      cbn [any_exception n_io with_clock with_files ledger_file file_content].
    + rewrite Hsize.
      eexists (S (S (S (n_io s)))), _. split; [|right; split; reflexivity].
      destruct s; simpl in *; subst; reflexivity.
    + eexists (S (S (S (n_io s)))), _. split; [|right; split; reflexivity].
      destruct s; simpl in *; subst; reflexivity.
Qed.



Lemma keep_lines_recent lines :
  ∃ dropped,
    lines = dropped ++ keep_lines lines
    ∧ (Z.of_nat (length (keep_lines lines)) = max_ledger_lines ∨ dropped = []).
Proof.
  unfold keep_lines. destruct (max_ledger_lines <? Z.of_nat (length lines)) eqn:E.
  - apply Z.ltb_lt in E. unfold last_n.
    exists (firstn (length lines - Z.to_nat max_ledger_lines) lines). split.
    + symmetry. apply firstn_skipn.
    + left. rewrite length_skipn. unfold max_ledger_lines in *. lia.
  - exists []. split; [reflexivity | now right].
Qed.

(** What compaction does to a ledger above the size limit when no file
    operation fails. *)
Lemma cleanup_large_ledger w s content :
  reliable_files w → ledger_file s = Some content →
  max_ledger_bytes < file_size content →
  ∃ k,
    cleanup_old_processed_ids w s =
    (Ok tt,
     with_processed_ids (ids_of_lines (keep_lines (readlines content)))
       (with_files (Some (writelines (keep_lines (readlines content))))
          match backup_files s !! today s with
          | Some _ => backup_files s
          | None => <[today s := universal_newlines content]> (backup_files s)
          end
          (config_file s) (with_io k s))).
Proof.
  intros Hio Hl Hsize. apply Z.ltb_lt in Hsize.
  unfold cleanup_old_processed_ids, try_except, bind, gets, modify, ret, file_op.
  rewrite Hl. cbn [fst snd].
  destruct (backup_files s !! today s) as [old|] eqn:Hb;
    rewrite ?Hio; cbn [fst snd n_io with_clock with_files ledger_file file_content];
    rewrite ?Hio; cbn [fst snd n_io with_clock with_files ledger_file file_content];
    rewrite ?Hl; cbn [file_content]; rewrite Hsize;
    rewrite ?Hio; cbn [fst snd n_io with_clock with_files ledger_file file_content];
    rewrite ?Hio; cbn [fst snd n_io with_clock with_files ledger_file file_content];
    rewrite ?Hl; cbn [file_content].
  - exists (S (S (S (n_io s)))). destruct s; simpl in *; subst; reflexivity.
  - exists (S (S (S (S (S (n_io s)))))). destruct s; simpl in *; subst; reflexivity.
Qed.

(** C9, as the code has it.  When the ledger file exceeds 10MB and no file
    operation fails, [cleanup_old_processed_ids] rewrites the file with its
    most recent 10000 lines (all its lines when it has no more than 10000),
    after having written a backup of the file under today's date unless a
    backup of that date already existed; afterwards [processed_ids] holds
    exactly the identifiers of the lines kept. *)
Theorem cleanup_compacts_large_ledger (w : World) (s : State) (content : string) :
  reliable_files w →
  ledger_file s = Some content →
  max_ledger_bytes < file_size content →
  (cleanup_old_processed_ids w s).1 = Ok tt
  ∧ ledger_file (exec (cleanup_old_processed_ids w) s)
    = Some (writelines (keep_lines (readlines content)))
  ∧ (∃ dropped,
       readlines content = dropped ++ keep_lines (readlines content)
       ∧ (Z.of_nat (length (keep_lines (readlines content))) = max_ledger_lines
          ∨ dropped = []))
  ∧ backup_files (exec (cleanup_old_processed_ids w) s)
    = match backup_files s !! today s with
      | Some _ => backup_files s
      | None => <[today s := universal_newlines content]> (backup_files s)
      end
  ∧ (∀ id, id ∈ processed_ids (exec (cleanup_old_processed_ids w) s)
           ↔ id ≠ EmptyString
             ∧ ∃ line, line ∈ keep_lines (readlines content) ∧ strip line = id).
Proof.
  intros Hio Hl Hsize.
  destruct (cleanup_large_ledger w s content Hio Hl Hsize) as [k E].
  unfold exec. rewrite E. cbn [fst snd]. split; [reflexivity|].
  split; [reflexivity|]. split; [apply keep_lines_recent|].
  split; [reflexivity|]. intros id. apply elem_of_ids_of_lines.
Qed.

Lemma file_size_huge_ledger : file_size huge_ledger = 12000002.
Proof.
  unfold file_size, huge_ledger, id_line, huge_id.
  rewrite !length_append, !length_string_repeat.
  change (String.length (String LF EmptyString)) with 1%nat. lia.
Qed.

Lemma readlines_huge_ledger : readlines huge_ledger = [id_line huge_id; id_line huge_id].
Proof.
  assert (H : no_line_break huge_id = true)
    by (apply no_line_break_repeat; reflexivity).
  unfold huge_ledger. rewrite readlines_line by exact H.
  replace (readlines (id_line huge_id))
    with (readlines (id_line huge_id +:+ EmptyString))
    by (rewrite append_nil_r; reflexivity).
  rewrite readlines_line by exact H. reflexivity.
Qed.

Lemma cleanup_compacts_large_ledger_witness :
  (cleanup_old_processed_ids calm_world large_ledger_state).1 = Ok tt
  ∧ ledger_file (exec (cleanup_old_processed_ids calm_world) large_ledger_state)
    = Some (writelines (keep_lines (readlines huge_ledger)))
  ∧ (∃ dropped,
       readlines huge_ledger = dropped ++ keep_lines (readlines huge_ledger)
       ∧ (Z.of_nat (length (keep_lines (readlines huge_ledger))) = max_ledger_lines
          ∨ dropped = []))
  ∧ backup_files (exec (cleanup_old_processed_ids calm_world) large_ledger_state)
    = match backup_files large_ledger_state !! today large_ledger_state with
      | Some _ => backup_files large_ledger_state
      | None => <[today large_ledger_state := universal_newlines huge_ledger]>
                  (backup_files large_ledger_state)
      end
  ∧ (∀ id, id ∈ processed_ids
                  (exec (cleanup_old_processed_ids calm_world) large_ledger_state)
           ↔ id ≠ EmptyString
             ∧ ∃ line, line ∈ keep_lines (readlines huge_ledger) ∧ strip line = id).
Proof.
  apply (cleanup_compacts_large_ledger calm_world large_ledger_state huge_ledger).
  - intros n. reflexivity.
  - reflexivity.
  - rewrite file_size_huge_ledger. reflexivity.
Defined.

(** Against C9 as stated.  The ledger of [backed_up_state] exceeds 10MB and
    a backup of today's date exists, holding something else: compaction
    writes no backup of the store it is about to rewrite.  And the ledger
    has two lines only: what compaction keeps is those two lines, not ten
    thousand entries. *)
Lemma compaction_may_skip_the_backup :
  max_ledger_bytes < file_size huge_ledger
  ∧ backup_files backed_up_state !! today backed_up_state = Some "stale"%string
  ∧ backup_files (exec (cleanup_old_processed_ids calm_world) backed_up_state)
    = backup_files backed_up_state
  ∧ huge_ledger ≠ "stale"%string
  ∧ keep_lines (readlines huge_ledger) = [id_line huge_id; id_line huge_id].
Proof.
  assert (Hsize : max_ledger_bytes < file_size huge_ledger)
    by (rewrite file_size_huge_ledger; reflexivity).
  assert (Hb : backup_files backed_up_state !! today backed_up_state
               = Some "stale"%string)
    by (apply (lookup_singleton_eq (M := gmap Z))).
  split; [exact Hsize|]. split; [exact Hb|]. split; [|split].
  - destruct (cleanup_large_ledger calm_world backed_up_state huge_ledger)
      as [k E]; [intros n; reflexivity | reflexivity | exact Hsize |].
    unfold exec. rewrite E. cbn [snd backup_files with_processed_ids with_files].
    rewrite Hb. reflexivity.
  - intros H. pose proof file_size_huge_ledger as F. rewrite H in F. discriminate F.
  - rewrite readlines_huge_ledger. reflexivity.
Qed.

(** * The ledger during a cycle *)

Section Cycle.

Variable w : World.

Lemma ledger_untouched_called req s : ledger_untouched s (called w req s).
Proof.
  unfold ledger_untouched, ledger_view, ledger_trace.
  rewrite omap_log_called by reflexivity.
  unfold called, requested, stamped. now destruct (_ <? _).
Qed.

Ltac ledger_side :=
  first
    [ exact I
    | reflexivity
    | intros; exact I
    | intros; reflexivity
    | (let H1 := fresh in let H2 := fresh in
       intros ? ? ? H1 H2; unfold ledger_untouched in *; rewrite H2; exact H1)
    | (let He := fresh in
       intros ? ? He; unfold ledger_untouched, ledger_view, ledger_trace;
       cbn [log with_log processed_ids ledger_file];
       rewrite omap_snoc_None by exact He; reflexivity)
    | (intros ? _ ?; rewrite exec_call; apply ledger_untouched_called) ].

Ltac ledger_frame L :=
  apply L with (allowed := λ e, ledger_of_event e = None)
               (allowed_req := λ _ : Request, True);
  ledger_side.

Lemma send_telegram_message_untouched m :
  preserves ledger_untouched (send_telegram_message w m).
Proof. ledger_frame preserves_send_telegram_message. Qed.

Lemma sleep_untouched k d : preserves ledger_untouched (sleep k d).
Proof.
  apply preserves_sleep with (allowed := λ e, ledger_of_event e = None);
    ledger_side.
Qed.

Lemma test_api_access_untouched depth :
  preserves ledger_untouched (test_api_access w depth).
Proof. ledger_frame preserves_test_api_access. Qed.

Lemma get_hh_applications_untouched :
  preserves ledger_untouched (get_hh_applications w).
Proof. ledger_frame preserves_get_hh_applications. Qed.

(** [create_bitrix_lead] adds its entry to the ledger trace and nothing
    else to the ledger. *)
Lemma create_bitrix_lead_effect a s :
  ledger_view (exec (create_bitrix_lead w a) s)
  = (processed_ids s, ledger_file s, ledger_trace (log s) ++ [EvCreateLead a]).
Proof.
  assert (H : ∃ body, create_bitrix_lead w a = (emit (EvCreateLead a) ;;; body)
                      ∧ preserves ledger_untouched body)
    by ledger_frame create_bitrix_lead_split.
  destruct H as (body & Heq & Hbody).
  rewrite Heq, exec_emit_bind. rewrite Hbody.
  unfold ledger_view, ledger_trace. cbn [log with_log processed_ids ledger_file].
  now rewrite (omap_snoc_Some _ _ _ (EvCreateLead a)).
Qed.

(** [save_processed_id] when the append goes through. *)
Lemma save_processed_id_appends id s :
  io_ok w (n_io s) = true →
  ∃ s',
    save_processed_id w id s = (Ok tt, s')
    ∧ ledger_view s'
      = (processed_ids s ∪ {[ id ]},
         Some (file_content (ledger_file s) +:+ id_line id),
         ledger_trace (log s) ++ [EvRecord id]).
Proof.
  intros Hio. unfold save_processed_id, emit, bind, try_except, modify, file_op.
  cbn [n_io with_log]. rewrite Hio. eexists. split; [reflexivity|].
  unfold ledger_view, ledger_trace.
  cbn [log with_log with_clock with_files with_processed_ids processed_ids ledger_file].
  now rewrite (omap_snoc_Some _ _ _ (EvRecord id)).
Qed.

(** [save_processed_id], whether the append goes through or not. *)
Lemma save_processed_id_effect id s :
  ∃ s',
    save_processed_id w id s = (Ok tt, s')
    ∧ ((io_ok w (n_io s) = true
        ∧ ledger_view s'
          = (processed_ids s ∪ {[ id ]},
             Some (file_content (ledger_file s) +:+ id_line id),
             ledger_trace (log s) ++ [EvRecord id]))
       ∨ (io_ok w (n_io s) = false
          ∧ ledger_view s'
            = (processed_ids s, ledger_file s,
               ledger_trace (log s) ++ [EvRecord id]))).
Proof.
  destruct (io_ok w (n_io s)) eqn:Hio.
  - destruct (save_processed_id_appends id s Hio) as (s' & E & Hv).
    exists s'. split; [exact E|]. now left.
  - unfold save_processed_id, emit. unfold bind at 1, modify.
    unfold try_except. unfold bind at 1, file_op. cbn [n_io with_log].
    rewrite Hio. cbn [any_exception].
    unfold send_telegram_error. rewrite send_telegram_message_ok.
    eexists. split; [reflexivity|]. right. split; [reflexivity|].
    rewrite send_telegram_message_untouched.
    unfold ledger_view, ledger_trace.
    cbn [log with_log with_clock processed_ids ledger_file].
    now rewrite (omap_snoc_Some _ _ _ (EvRecord id)).
Qed.


Lemma caught_ok {A} (m : M A) s a s' :
  m s = (Ok a, s') → caught m s = (Ok (Some a), s').
Proof. intros H. unfold caught, try_except, bind. now rewrite H. Qed.

(** An application whose identifier is in the set already is skipped. *)
Lemma process_one_seen a counts s :
  app_id a ∈ processed_ids s → process_one w a counts s = (Ok counts, s).
Proof.
  intros H. unfold process_one. destruct counts as [p sc].
  unfold bind, gets. fold (app_id a). now rewrite bool_decide_eq_true_2.
Qed.

(** An application whose identifier is new is handed to
    [create_bitrix_lead] and then recorded, whatever the delivery gave. *)
Lemma process_one_new a p sc s :
  reliable_files w → app_id a ∉ processed_ids s →
  ∃ ok s',
    (create_bitrix_lead w a s).1 = Ok ok
    ∧ process_one w a (p, sc) s = (Ok (S p, (succeeded_count ok + sc)%nat), s')
    ∧ ledger_view s'
      = (processed_ids s ∪ {[ app_id a ]},
         Some (file_content (ledger_file s) +:+ id_line (app_id a)),
         ledger_trace (log s) ++ delivery a).
Proof.
  intros Hio Hnew.
  destruct (returns_create_bitrix_lead w a s) as [ok Hok].
  pose proof (create_bitrix_lead_effect a s) as Hc. unfold exec in Hc.
  destruct (create_bitrix_lead w a s) as [r s1] eqn:E1. simpl in Hok, Hc. subst r.
  destruct (save_processed_id_appends (app_id a) s1 (Hio _)) as (s2 & E2 & Hs).
  pose proof (sleep_untouched BatchPause (seconds 2) s2) as Hz. unfold exec in Hz.
  assert (E3 : sleep BatchPause (seconds 2) s2
               = (Ok tt, (sleep BatchPause (seconds 2) s2).2)) by reflexivity.
  exists ok, (sleep BatchPause (seconds 2) s2).2. split; [reflexivity|]. split.
  - unfold process_one. unfold bind at 1, gets. fold (app_id a).
    rewrite bool_decide_eq_false_2 by exact Hnew.
    unfold bind at 1. rewrite (caught_ok _ _ _ _ E1).
    unfold bind at 1. rewrite (caught_ok _ _ _ _ E2).
    unfold bind at 1. rewrite (caught_ok _ _ _ _ E3).
    unfold ret. destruct ok; reflexivity.
  - rewrite Hz, Hs. unfold ledger_view in Hc. injection Hc as H1 H2 H3.
    rewrite H1, H2, H3. unfold delivery. now rewrite <- app_assoc.
Qed.

(** An application whose identifier is new is handed to
    [create_bitrix_lead] and then to [save_processed_id], whatever the
    delivery gave and whether the append goes through or not; it counts as
    processed either way. *)
Lemma process_one_taken_up a p sc s :
  app_id a ∉ processed_ids s →
  ∃ ok s',
    (create_bitrix_lead w a s).1 = Ok ok
    ∧ process_one w a (p, sc) s
      = (Ok (S p, (succeeded_count ok + sc)%nat), s')
    ∧ exec (process_one w a (O, O)) s = s'
    ∧ ledger_trace (log s') = ledger_trace (log s) ++ delivery a
    ∧ processed_ids s' = processed_ids s ∪ list_to_set (recorded_of w a s)
    ∧ file_content (ledger_file s')
      = file_content (ledger_file s) +:+ ledger_of (recorded_of w a s).
Proof.
  intros Hnew. unfold recorded_of.
  destruct (returns_create_bitrix_lead w a s) as [ok Hok].
  pose proof (create_bitrix_lead_effect a s) as Hc. unfold exec in Hc |- *.
  destruct (create_bitrix_lead w a s) as [r s1] eqn:E1. simpl in Hok, Hc. subst r.
  cbn [snd].
  destruct (save_processed_id_effect (app_id a) s1) as (s2 & E2 & Hs).
  pose proof (sleep_untouched BatchPause (seconds 2) s2) as Hz. unfold exec in Hz.
  assert (E3 : sleep BatchPause (seconds 2) s2
               = (Ok tt, (sleep BatchPause (seconds 2) s2).2)) by reflexivity.
  assert (E : ∀ p sc, process_one w a (p, sc) s
                      = (Ok (S p, (succeeded_count ok + sc)%nat),
                         (sleep BatchPause (seconds 2) s2).2)).
  { intros p' sc'. unfold process_one. unfold bind at 1, gets. fold (app_id a).
    rewrite bool_decide_eq_false_2 by exact Hnew.
    unfold bind at 1. rewrite (caught_ok _ _ _ _ E1).
    unfold bind at 1. rewrite (caught_ok _ _ _ _ E2).
    unfold bind at 1. rewrite (caught_ok _ _ _ _ E3).
    unfold ret. destruct ok; reflexivity. }
  unfold ledger_view in Hc. injection Hc as Hp1 Hf1 Ht1.
  unfold ledger_untouched in Hz.
  pose proof (f_equal (λ v, v.1.1) Hz) as Hp3.
  pose proof (f_equal (λ v, v.1.2) Hz) as Hf3.
  pose proof (f_equal snd Hz) as Ht3.
  unfold ledger_view in Hp3, Hf3, Ht3. cbn [fst snd] in Hp3, Hf3, Ht3.
  clear Hz.
  exists ok, (sleep BatchPause (seconds 2) s2).2.
  split; [reflexivity|]. split; [apply E|]. split; [now rewrite E|].
  destruct Hs as [[Hio Hv]|[Hio Hv]]; unfold ledger_view in Hv;
    injection Hv as Hp2 Hf2 Ht2; rewrite Hio;
    (split; [rewrite Ht3, Ht2, Ht1; unfold delivery; now rewrite <- app_assoc|]);
    split.
  - rewrite Hp3, Hp2, Hp1. cbn. now rewrite (right_id_L ∅ (∪)).
  - rewrite Hf3, Hf2, Hf1. cbn. now rewrite append_nil_r.
  - rewrite Hp3, Hp2, Hp1. cbn. now rewrite (right_id_L ∅ (∪)).
  - rewrite Hf3, Hf2, Hf1. cbn. now rewrite append_nil_r.
Qed.

Lemma recorded_of_sub a s : sublist (recorded_of w a s) [app_id a].
Proof.
  unfold recorded_of. destruct (io_ok w _);
    [reflexivity | apply sublist_nil_l].
Qed.

(** The loop over the fetched applications, whatever fails. *)
Lemma for_applications_taken_up apps s p sc :
  ∃ sc' s',
    for_applications w apps (p, sc) s
      = (Ok ((p + length (taken_up w apps s))%nat, sc'), s')
    ∧ (sc ≤ sc' ≤ sc + length (taken_up w apps s))%nat
    ∧ ledger_trace (log s')
      = ledger_trace (log s) ++ flat_map delivery (taken_up w apps s)
    ∧ sublist (recorded_ids w apps s) (map app_id (taken_up w apps s))
    ∧ (reliable_files w →
       recorded_ids w apps s = map app_id (taken_up w apps s))
    ∧ processed_ids s' = processed_ids s ∪ list_to_set (recorded_ids w apps s)
    ∧ file_content (ledger_file s')
      = file_content (ledger_file s) +:+ ledger_of (recorded_ids w apps s).
Proof.
  revert s p sc. induction apps as [|a rest IH]; intros s p sc.
  - exists sc, s. cbn [for_applications taken_up recorded_ids length map
                       list_to_set flat_map ledger_of fold_right].
    rewrite Nat.add_0_r, (right_id_L ∅ (∪)), append_nil_r, app_nil_r.
    repeat split; try lia. constructor.
  - cbn [for_applications taken_up recorded_ids].
    destruct (bool_decide (app_id a ∈ processed_ids s)) eqn:E.
    + apply bool_decide_eq_true in E. unfold bind at 1.
      rewrite (process_one_seen a (p, sc) s E). apply IH.
    + apply bool_decide_eq_false in E.
      destruct (process_one_taken_up a p sc s E)
        as (ok & s1 & _ & E1 & Hex & Ht & Hp & Hf).
      rewrite Hex.
      destruct (IH s1 (S p) (succeeded_count ok + sc)%nat)
        as (sc' & s' & E2 & Hsc & Ht' & Hsub & Hrel' & Hp' & Hf').
      exists sc', s'. unfold bind at 1. rewrite E1.
      cbn [length map flat_map].
      split; [rewrite E2; now rewrite Nat.add_succ_r|].
      split; [destruct ok; simpl in Hsc; lia|].
      split; [rewrite Ht', Ht; now rewrite <- app_assoc|].
      split.
      { change (app_id a :: map app_id (taken_up w rest s1))
          with ([app_id a] ++ map app_id (taken_up w rest s1)).
        apply sublist_app; [apply recorded_of_sub | exact Hsub]. }
      split.
      { intros Hio. rewrite (Hrel' Hio). unfold recorded_of.
        now rewrite Hio. }
      split.
      * rewrite Hp', Hp, list_to_set_app_L. now rewrite (assoc_L (∪)).
      * rewrite Hf', Hf, ledger_of_app. now rewrite append_assoc.
Qed.

End Cycle.

Lemma attempted_covers (seen : gset string) apps :
  seen ∪ list_to_set (map app_id (attempted seen apps))
  = seen ∪ list_to_set (map app_id apps).
Proof.
  revert seen. induction apps as [|a rest IH]; intros seen; [reflexivity|].
  cbn [attempted map list_to_set]. destruct (bool_decide (app_id a ∈ seen)) eqn:E.
  - apply bool_decide_eq_true in E. rewrite IH.
    rewrite (assoc_L (∪)). f_equal. symmetry.
    rewrite (comm_L (∪)). apply subseteq_union_1_L.
    intros x Hx. apply elem_of_singleton in Hx. now subst x.
  - cbn [map list_to_set]. rewrite !(assoc_L (∪)). rewrite IH. reflexivity.
Qed.

Lemma attempted_fresh (seen : gset string) apps :
  NoDup (map app_id (attempted seen apps))
  ∧ Forall (λ a, app_id a ∉ seen) (attempted seen apps).
Proof.
  revert seen. induction apps as [|a rest IH]; intros seen.
  - split; constructor.
  - cbn [attempted]. destruct (bool_decide (app_id a ∈ seen)) eqn:E; [apply IH|].
    apply bool_decide_eq_false in E. destruct (IH (seen ∪ {[ app_id a ]})) as [Hn Hf].
    split.
    + cbn [map]. constructor; [|exact Hn].
      intros Hin. apply list_elem_of_fmap in Hin as (b & Hb & Hin).
      rewrite Forall_forall in Hf. apply (Hf b Hin).
      rewrite <- Hb. apply elem_of_union_r, elem_of_singleton. reflexivity.
    + constructor; [exact E|]. eapply Forall_impl; [exact Hf|].
      intros b Hb Hin. apply Hb, elem_of_union_l, Hin.
Qed.

Section Batch.

Variable w : World.
Hypothesis files_ok : reliable_files w.

(** The loop over the fetched applications, when no append fails. *)
Lemma for_applications_reliable apps s p sc :
  ∃ sc' s',
    for_applications w apps (p, sc) s
      = (Ok ((p + length (attempted (processed_ids s) apps))%nat, sc'), s')
    ∧ (sc ≤ sc' ≤ sc + length (attempted (processed_ids s) apps))%nat
    ∧ processed_ids s'
      = processed_ids s ∪ list_to_set (map app_id (attempted (processed_ids s) apps))
    ∧ file_content (ledger_file s')
      = file_content (ledger_file s)
        +:+ ledger_of (map app_id (attempted (processed_ids s) apps))
    ∧ ledger_trace (log s')
      = ledger_trace (log s) ++ flat_map delivery (attempted (processed_ids s) apps).
Proof.
  revert s p sc. induction apps as [|a rest IH]; intros s p sc.
  - exists sc, s. cbn [for_applications attempted length map list_to_set flat_map ledger_of fold_right].
    rewrite Nat.add_0_r, (right_id_L ∅ (∪)), append_nil_r, app_nil_r.
    repeat split; lia.
  - cbn [for_applications attempted].
    destruct (bool_decide (app_id a ∈ processed_ids s)) eqn:E.
    + apply bool_decide_eq_true in E. unfold bind at 1.
      rewrite (process_one_seen w a (p, sc) s E). apply IH.
    + apply bool_decide_eq_false in E.
      destruct (process_one_new w a p sc s files_ok E) as (ok & s1 & _ & E1 & Hv).
      unfold ledger_view in Hv. injection Hv as Hp Hf Ht.
      destruct (IH s1 (S p) (succeeded_count ok + sc)%nat)
        as (sc' & s' & E2 & Hsc & Hp' & Hf' & Ht').
      rewrite Hp in E2, Hsc, Hp', Hf', Ht'.
      exists sc', s'. unfold bind at 1. rewrite E1.
      cbn [length map list_to_set flat_map ledger_of fold_right].
      fold (ledger_of (map app_id (attempted (processed_ids s ∪ {[app_id a]}) rest))).
      split.
      { rewrite E2. now rewrite Nat.add_succ_r. }
      split; [destruct ok; simpl in Hsc; lia|].
      split; [rewrite Hp', (assoc_L (∪)); reflexivity|].
      split.
      * rewrite Hf', Hf. cbn [file_content]. now rewrite append_assoc.
      * rewrite Ht', Ht. now rewrite <- app_assoc.
Qed.

(** Two new applications with different identifiers: both are delivered
    and recorded, and the count of successes is the number of deliveries
    that returned [True]. *)
Lemma for_applications_two_new a1 a2 s :
  app_id a1 ≠ app_id a2 →
  app_id a1 ∉ processed_ids s → app_id a2 ∉ processed_ids s →
  ∃ ok1 ok2 s',
    (create_bitrix_lead w a1 s).1 = Ok ok1
    ∧ (create_bitrix_lead w a2 (exec (process_one w a1 (O, O)) s)).1 = Ok ok2
    ∧ for_applications w [a1; a2] (O, O) s
      = (Ok (2%nat, (succeeded_count ok1 + succeeded_count ok2)%nat), s')
    ∧ app_id a1 ∈ processed_ids s' ∧ app_id a2 ∈ processed_ids s'.
Proof.
  intros Hne H1 H2.
  destruct (process_one_new w a1 O O s files_ok H1) as (ok1 & s1 & Hc1 & E1 & Hv1).
  unfold ledger_view in Hv1. injection Hv1 as Hp1 Hf1 Ht1.
  assert (H2' : app_id a2 ∉ processed_ids s1).
  { rewrite Hp1. intros Hin. apply elem_of_union in Hin as [Hin|Hin];
      [exact (H2 Hin) | apply elem_of_singleton in Hin; congruence]. }
  destruct (process_one_new w a2 1 (succeeded_count ok1 + 0) s1 files_ok H2')
    as (ok2 & s2 & Hc2 & E2 & Hv2).
  unfold ledger_view in Hv2. injection Hv2 as Hp2 Hf2 Ht2.
  exists ok1, ok2, s2. split; [exact Hc1|]. split.
  - unfold exec. rewrite E1. exact Hc2.
  - split.
    + cbn [for_applications]. unfold bind at 1. rewrite E1.
      unfold bind at 1. rewrite E2. unfold ret.
      replace (succeeded_count ok2 + (succeeded_count ok1 + 0))%nat
        with (succeeded_count ok1 + succeeded_count ok2)%nat by lia.
      reflexivity.
    + rewrite Hp2, Hp1. rewrite !elem_of_union, !elem_of_singleton. tauto.
Qed.

(** When no append fails, what the loop takes up is the first occurrence
    of every identifier that was not in the set. *)
Lemma taken_up_reliable apps s :
  taken_up w apps s = attempted (processed_ids s) apps.
Proof.
  revert s. induction apps as [|a rest IH]; intros s; [reflexivity|].
  cbn [taken_up attempted].
  destruct (bool_decide (app_id a ∈ processed_ids s)) eqn:E; [apply IH|].
  apply bool_decide_eq_false in E.
  destruct (process_one_new w a O O s files_ok E) as (ok & s1 & _ & E1 & Hv).
  unfold ledger_view in Hv. injection Hv as Hp _ _.
  unfold exec. rewrite E1. cbn [snd]. now rewrite IH, Hp.
Qed.

End Batch.

(** ** The cycle always comes to an end *)

Lemma returns_process_one w a counts : returns (process_one w a counts).
Proof.
  unfold process_one. destruct counts as [p sc].
  apply returns_bind; [apply returns_gets | intros seen].
  destruct seen; [apply returns_ret|].
  apply returns_bind;
    [apply returns_caught, returns_safe, returns_create_bitrix_lead|].
  intros [ok|]; [|apply returns_ret].
  apply returns_bind;
    [apply returns_caught, returns_safe, returns_save_processed_id|].
  intros [saved|]; [|apply returns_ret].
  apply returns_bind; [apply returns_caught, safe_sleep | intros _].
  apply returns_ret.
Qed.

Lemma returns_for_applications w apps counts :
  returns (for_applications w apps counts).
Proof.
  revert counts. induction apps as [|a rest IH]; intros counts; simpl.
  - apply returns_ret.
  - apply returns_bind; [apply returns_process_one | intros; apply IH].
Qed.

Lemma returns_process_batch w apps : returns (process_batch w apps).
Proof.
  unfold process_batch.
  apply returns_bind; [apply returns_for_applications | intros [p sc]].
  destruct (Nat.ltb 0 p); [apply returns_send_telegram_message | apply returns_ret].
Qed.

(** A cycle run with a depth of one or more returns: it neither raises nor
    stops at the depth bound of [test_api_access]. *)
Lemma returns_process_applications w depth :
  returns (process_applications w (S depth)).
Proof.
  unfold process_applications.
  apply returns_try; [|apply returns_send_telegram_error].
  apply safe_bind; [apply returns_safe, returns_test_api_access|].
  intros [api_ok api_message]. destruct api_ok; simpl.
  - apply safe_bind; [apply returns_safe, returns_get_hh_applications|].
    intros [|a rest]; [apply safe_ret | apply returns_safe, returns_process_batch].
  - apply returns_safe, returns_send_telegram_error.
Qed.




(** * No lead twice *)

Lemma leads_of_trace l : leads l = omap lead_of (ledger_trace l).
Proof.
  unfold leads, ledger_trace. induction l as [|e l IH]; [reflexivity|].
  change (e :: l) with ([e] ++ l). rewrite !omap_app, <- IH.
  f_equal. destruct e; reflexivity.
Qed.

Lemma leads_of_deliveries apps : omap lead_of (flat_map delivery apps) = apps.
Proof.
  induction apps as [|a apps IH]; [reflexivity|].
  cbn [flat_map]. rewrite omap_app, IH. reflexivity.
Qed.

Lemma attempted_sub (P : Application → Prop) seen apps :
  Forall P apps → Forall P (attempted seen apps).
Proof.
  intros H. revert seen. induction H as [|a apps Ha _ IH]; intros seen; [constructor|].
  cbn [attempted]. destruct (bool_decide _); [apply IH|]. constructor; [exact Ha | apply IH].
Qed.

Lemma consistent_untouched s s' :
  ledger_untouched s s' → consistent s → consistent s'.
Proof.
  intros Hu. unfold ledger_untouched, ledger_view in Hu. injection Hu as Hp Hf Ht.
  assert (Hl : lead_ids (log s') = lead_ids (log s))
    by (unfold lead_ids;
        now rewrite (leads_of_trace (log s')), (leads_of_trace (log s)), Ht).
  unfold consistent. now rewrite Hp, Hf, Hl.
Qed.

Section Once.

Variable w : World.
Hypothesis files_ok : reliable_files w.
Hypothesis upstream_ok : clean_upstream w.

Lemma fetched_clean a : fetched w a → clean_id (app_id a) = true.
Proof.
  intros [(n & h & v & r & Hr & Hin) Hne].
  exact (proj2 (upstream_ok _ _ _ _ Hr Hin Hne)).
Qed.

Lemma for_applications_consistent apps s :
  Forall (λ a, clean_id (app_id a) = true) apps →
  consistent s → consistent (exec (for_applications w apps (O, O)) s).
Proof.
  intros Hclean ((ids & Hids & Hfile & Hset) & Hnd & Hin).
  destruct (for_applications_reliable w files_ok apps s O O)
    as (sc & s' & E & _ & Hp & Hf & Ht).
  unfold exec. rewrite E. cbn [snd].
  set (tried := attempted (processed_ids s) apps) in *.
  destruct (attempted_fresh (processed_ids s) apps) as [Hnd' Hfresh].
  fold tried in Hnd', Hfresh.
  assert (Hl : lead_ids (log s') = lead_ids (log s) ++ map app_id tried).
  { unfold lead_ids.
    rewrite (leads_of_trace (log s')), (leads_of_trace (log s)), Ht.
    rewrite omap_app, leads_of_deliveries. now rewrite map_app. }
  split; [|split].
  - exists (ids ++ map app_id tried). split; [|split].
    + apply Forall_app. split; [exact Hids|].
      apply Forall_fmap. now apply attempted_sub.
    + now rewrite Hf, Hfile, ledger_of_app.
    + now rewrite Hp, Hset, list_to_set_app_L.
  - rewrite Hl. apply NoDup_app. split; [exact Hnd|]. split; [|exact Hnd'].
    intros id Hid Hid'. apply Hin in Hid.
    apply list_elem_of_fmap in Hid' as (a & -> & Ha).
    rewrite Forall_forall in Hfresh. exact (Hfresh a Ha Hid).
  - intros id. rewrite Hl, Hp, elem_of_app, elem_of_union, elem_of_list_to_set.
    intros [Hid|Hid]; [left; now apply Hin | now right].
Qed.

Lemma process_batch_consistent apps s :
  Forall (λ a, clean_id (app_id a) = true) apps →
  consistent s → consistent (exec (process_batch w apps) s).
Proof.
  intros Hclean Hs.
  pose proof (for_applications_consistent apps s Hclean Hs) as H1.
  unfold exec, process_batch, bind in *.
  destruct (for_applications w apps (O, O) s) as [[[p sc]|e|] s1]; simpl in *;
    try exact H1.
  destruct (Nat.ltb 0 p); [|exact H1].
  eapply consistent_untouched; [|exact H1].
  apply send_telegram_message_untouched.
Qed.

(** One cycle keeps the ledger consistent. *)
Lemma process_applications_consistent depth s :
  consistent s → consistent (exec (process_applications w depth) s).
Proof.
  intros Hs. unfold exec, process_applications, try_except, bind.
  pose proof (test_api_access_untouched w depth s) as H1. unfold exec in H1.
  destruct (test_api_access w depth s) as [[[api_ok msg]|e|] s1]; simpl in *.
  - apply (consistent_untouched _ _ H1) in Hs.
    destruct api_ok; simpl.
    + pose proof (get_hh_applications_untouched w s1) as H2. unfold exec in H2.
      pose proof (get_hh_applications_fetched w s1) as H3.
      destruct (get_hh_applications w s1) as [[apps|e|] s2]; simpl in *.
      * apply (consistent_untouched _ _ H2) in Hs.
        specialize (H3 apps s2 eq_refl).
        destruct apps as [|a apps]; [exact Hs|].
        pose proof (process_batch_consistent (a :: apps) s2) as H4.
        unfold exec in H4.
        destruct (process_batch w (a :: apps) s2) as [[[]|e|] s3]; simpl in *.
        -- apply H4; [|exact Hs]. eapply Forall_impl; [exact H3|].
           intros b Hb. now apply fetched_clean.
        -- eapply consistent_untouched;
             [apply send_telegram_message_untouched|].
           apply H4; [|exact Hs]. eapply Forall_impl; [exact H3|].
           intros b Hb. now apply fetched_clean.
        -- apply H4; [|exact Hs]. eapply Forall_impl; [exact H3|].
           intros b Hb. now apply fetched_clean.
      * eapply consistent_untouched; [apply send_telegram_message_untouched|].
        now apply (consistent_untouched _ _ H2).
      * now apply (consistent_untouched _ _ H2).
    + pose proof (send_telegram_message_untouched w
                    (MsgError ("API ga kira olmayapman: " +:+ msg)) s1) as H2.
      unfold exec, send_telegram_error in *.
      destruct (send_telegram_message w _ s1) as [[[]|e|] s2]; simpl in *.
      * now apply (consistent_untouched _ _ H2).
      * eapply consistent_untouched; [apply send_telegram_message_untouched|].
        now apply (consistent_untouched _ _ H2).
      * now apply (consistent_untouched _ _ H2).
  - eapply consistent_untouched; [apply send_telegram_message_untouched|].
    now apply (consistent_untouched _ _ H1).
  - now apply (consistent_untouched _ _ H1).
Qed.

(** A restart reads the set back from the ledger file. *)
Lemma startup_consistent s : consistent s → consistent (exec (startup w) s).
Proof.
  intros ((ids & Hids & Hfile & Hset) & Hnd & Hin).
  assert (E : ∃ s', startup w s = (Ok tt, s')
                    ∧ processed_ids s' = list_to_set ids
                    ∧ ledger_file s' = ledger_file s ∧ log s' = log s).
  { unfold startup, load_processed_ids, try_except, bind, modify, gets, ret, file_op.
    cbn [ledger_file with_tokens n_io].
    destruct (ledger_file s) as [content|] eqn:Hl; cbn [file_content] in Hfile.
    - rewrite files_ok. cbn [fst snd]. eexists. split; [reflexivity|].
      cbn [processed_ids with_last_request_time with_processed_ids ledger_file
           with_clock with_tokens log].
      split; [|split; [exact Hl | reflexivity]].
      unfold parse_ids. rewrite Hfile. now apply parse_ledger.
    - cbn [fst snd]. eexists. split; [reflexivity|].
      cbn [processed_ids with_last_request_time with_processed_ids ledger_file
           with_clock with_tokens log].
      split; [|split; [exact Hl | reflexivity]].
      rewrite <- (parse_ledger ids Hids), <- Hfile. reflexivity. }
  destruct E as (s' & E & Hp & Hf & Hl). unfold exec. rewrite E. cbn [snd].
  unfold consistent. rewrite Hp, Hf, Hl. rewrite <- Hset.
  split; [|split; assumption]. exists ids. now rewrite Hset.
Qed.

Lemma readlines_ledger_of ids :
  Forall (λ id, clean_id id = true) ids →
  readlines (ledger_of ids) = map id_line ids.
Proof.
  induction 1 as [|id ids Hid _ IH]; [reflexivity|].
  destruct (clean_id_spec id Hid) as (Hb & _ & _).
  cbn [ledger_of fold_right map]. fold (ledger_of ids).
  rewrite readlines_line by exact Hb. now rewrite IH.
Qed.

Lemma writelines_id_lines ids : writelines (map id_line ids) = ledger_of ids.
Proof.
  induction ids as [|id ids IH]; [reflexivity|].
  cbn [map writelines ledger_of fold_right]. fold (ledger_of ids).
  fold (writelines (map id_line ids)). now rewrite IH.
Qed.

(** A compaction that finds the ledger within limits throws nothing away. *)
Lemma cleanup_consistent s :
  within_limits s → consistent s →
  consistent (exec (cleanup_old_processed_ids w) s).
Proof.
  intros Hlim Hs.
  destruct (Z.le_gt_cases (file_size (file_content (ledger_file s)))
              max_ledger_bytes) as [Hsmall|Hlarge].
  - destruct (cleanup_small_ledger_shape w s Hsmall) as (k & backups & E & _).
    unfold exec. rewrite E. cbn [snd].
    eapply consistent_untouched; [|exact Hs]. reflexivity.
  - destruct Hlim as [Hlim|Hlines]; [lia|].
    destruct (ledger_file s) as [content|] eqn:Hl;
      [|unfold file_size, file_content, max_ledger_bytes in Hlarge;
        simpl in Hlarge; lia].
    cbn [file_content] in Hlarge, Hlines.
    destruct (cleanup_large_ledger w s content files_ok Hl Hlarge) as [k E].
    unfold exec. rewrite E. cbn [snd].
    destruct Hs as ((ids & Hids & Hfile & Hset) & Hnd & Hin).
    rewrite Hl in Hfile. cbn [file_content] in Hfile.
    assert (Hkeep : keep_lines (readlines content) = map id_line ids).
    { unfold keep_lines.
      assert (F : (max_ledger_lines <? Z.of_nat (length (readlines content)))
                  = false) by (apply Z.ltb_ge; exact Hlines).
      rewrite F, Hfile. now apply readlines_ledger_of. }
    rewrite Hkeep.
    assert (Hparse : ids_of_lines (map id_line ids) = list_to_set ids).
    { rewrite <- (readlines_ledger_of ids Hids). now apply parse_ledger. }
    unfold consistent.
    cbn [processed_ids ledger_file log with_processed_ids with_files with_io
         with_clock file_content].
    rewrite Hparse, writelines_id_lines, <- Hset.
    split; [|split; assumption]. exists ids. now rewrite Hset.
Qed.

Lemma run_consistent steps s :
  keeps_all_ids w steps s → consistent s → consistent (run w steps s).
Proof.
  revert s. induction steps as [|st rest IH]; intros s Hkeep Hs; cbn [run].
  - exact Hs.
  - destruct Hkeep as [Hst Hkeep]. apply IH; [exact Hkeep|].
    destruct st as [depth| |]; cbn [step].
    + now apply process_applications_consistent.
    + now apply cleanup_consistent.
    + now apply startup_consistent.
Qed.

End Once.




(** * The request layer: what a call can come to *)

(** X1.  Whatever the upstream does, one run of [make_request] makes at
    least one and at most three outbound calls, all of them the call it
    was asked for. *)
Theorem make_request_call_budget (w : World) (req : Request) (s : State) :
  ∃ k, (1 ≤ k ≤ 3)%nat
    ∧ n_requests (exec (make_request w req) s) = (n_requests s + k)%nat
    ∧ attempts (log (exec (make_request w req) s))
      = attempts (log s) ++ replicate k req.
Proof.
  destruct (make_request w req s) as [res s'] eqn:E.
  destruct (make_request_outcome w req s res s' E)
    as (k & Hk & Hn & Ha & _ & Hres).
  unfold exec. rewrite E. exists k. split; [|now split].
  split; [|exact Hk].
  destruct res as [[r|]|e|].
  - destruct Hres as (Hpos & _). lia.
  - destruct Hres as (_ & ->). lia.
  - destruct Hres as (Hpos & _). lia.
  - destruct Hres.
Qed.

(** X2.  A response that [make_request] returns is never a 429: it is the
    answer to the last call made, and every call before it failed at the
    transport level or was answered 429. *)
Theorem make_request_answer_is_final
    (w : World) (req : Request) (s : State) (r : Response) (s' : State) :
  make_request w req s = (Ok (Some r), s') →
  status_code r ≠ 429
  ∧ (n_requests s < n_requests s')%nat
  ∧ http w (pred (n_requests s')) req = Answers r
  ∧ ∀ n, (n_requests s ≤ n)%nat → (S n < n_requests s')%nat → retried w req n.
Proof.
  intros E.
  destruct (make_request_outcome w req s _ s' E)
    as (k & Hk & Hn & _ & Hre & Hpos & Hh & Hs).
  split; [exact Hs|]. split; [lia|]. split.
  - replace (pred (n_requests s')) with (n_requests s + pred k)%nat by lia.
    exact Hh.
  - intros n H1 H2.
    replace n with (n_requests s + (n - n_requests s))%nat by lia.
    apply Hre. lia.
Qed.

Lemma make_request_answer_is_final_witness :
  status_code (answer 200 EmptyObject) ≠ 429
  ∧ (n_requests fresh_state
     < n_requests (exec (make_request rate_limited_once (GetMe None)) fresh_state))%nat
  ∧ http rate_limited_once
      (pred (n_requests (exec (make_request rate_limited_once (GetMe None))
                           fresh_state)))
      (GetMe None)
    = Answers (answer 200 EmptyObject)
  ∧ ∀ n, (n_requests fresh_state ≤ n)%nat →
         (S n < n_requests (exec (make_request rate_limited_once (GetMe None))
                              fresh_state))%nat →
         retried rate_limited_once (GetMe None) n.
Proof.
  apply (make_request_answer_is_final rate_limited_once (GetMe None) fresh_state).
  vm_compute. reflexivity.
Defined.

(** X3.  [make_request] returns [None] only when its three calls are used
    up: exactly three calls were made, and each of them failed at the
    transport level or was answered 429. *)
Theorem make_request_gives_up_after_three_calls
    (w : World) (req : Request) (s s' : State) :
  make_request w req s = (Ok None, s') →
  n_requests s' = (n_requests s + 3)%nat
  ∧ ∀ i, (i < 3)%nat → retried w req (n_requests s + i).
Proof.
  intros E.
  destruct (make_request_outcome w req s _ s' E)
    as (k & _ & Hn & _ & _ & Hall & ->).
  split; [exact Hn | exact Hall].
Qed.

Lemma make_request_gives_up_after_three_calls_witness :
  n_requests (exec (make_request always_rate_limited (GetMe None)) fresh_state)
  = (n_requests fresh_state + 3)%nat
  ∧ ∀ i, (i < 3)%nat →
         retried always_rate_limited (GetMe None) (n_requests fresh_state + i).
Proof.
  apply (make_request_gives_up_after_three_calls always_rate_limited (GetMe None)
           fresh_state).
  vm_compute. reflexivity.
Defined.

(** X4.  The only exceptions that leave [make_request] come from the
    [Retry-After] header of a 429 answer to the last call it made: the
    [ValueError] of a header that [int] rejects or of a negative wait, the
    [OverflowError] of a wait that the clock of [time.sleep] does not hold,
    or the [OSError] of a wait that the system refuses.  Such an answer
    ends the call at once, without a further attempt, and nothing else
    makes [make_request] raise. *)
Theorem make_request_raises_only_on_retry_after
    (w : World) (req : Request) (s : State) :
  (∀ e s', make_request w req s = (Raise e, s') →
     (e = ValueError ∨ e = OverflowError ∨ e = OSError)
     ∧ ∃ r, http w (pred (n_requests s')) req = Answers r
            ∧ status_code r = 429 ∧ retry_after_wait w r = inl e)
  ∧ (∀ r e, http w (n_requests s) req = Answers r →
            status_code r = 429 → retry_after_wait w r = inl e →
            make_request w req s = (Raise e, called w req s))
  ∧ (∀ r, retry_after_wait w r = inl ValueError
          ↔ retry_after r = BadRetryAfter
            ∨ (∃ n, retry_after r = RetryAfterSeconds n
                    ∧ n < 0 ∧ Z.abs (seconds n) ≤ clock_limit))
  ∧ (∀ r, retry_after_wait w r = inl OverflowError
          ↔ ∃ n, retry_after r = RetryAfterSeconds n
                 ∧ clock_limit < Z.abs (seconds n))
  ∧ (∀ r, retry_after_wait w r = inl OSError
          ↔ (retry_after r = NoRetryAfter ∧ sleep_limit w < retry_delay)
            ∨ (∃ n, retry_after r = RetryAfterSeconds n
                    ∧ 0 ≤ n ∧ seconds n ≤ clock_limit
                    ∧ sleep_limit w < seconds n)).
Proof.
  split; [|split; [|split; [|split]]].
  - intros e s' E.
    destruct (make_request_outcome w req s _ s' E)
      as (k & _ & Hn & _ & _ & Hpos & r & Hh & Hs & Hd).
    split; [now apply (retry_after_wait_raises w r)|]. exists r.
    replace (pred (n_requests s')) with (n_requests s + pred k)%nat by lia.
    auto.
  - intros r e Hh Hs Hd.
    rewrite make_request_rounds, for_attempts_cons, attempt_request_unfold.
    rewrite Hh, Hd. apply Z.eqb_eq in Hs. now rewrite Hs.
  - intros r. unfold retry_after_wait. destruct (retry_after r) as [| |n].
    + rewrite (proj1 (proj2 (accepted_wait_spec w retry_delay))). split.
      * unfold retry_delay, seconds. lia.
      * intros [H|(n & H & _)]; discriminate H.
    + split; [now left | reflexivity].
    + rewrite (proj1 (proj2 (accepted_wait_spec w (seconds n)))). split.
      * intros [H1 H2]. right. exists n. unfold seconds in *.
        split; [reflexivity | lia].
      * intros [H|(m & [= <-] & H1 & H2)]; [discriminate H|].
        unfold seconds in *. lia.
  - intros r. unfold retry_after_wait. destruct (retry_after r) as [| |n].
    + rewrite (proj1 (accepted_wait_spec w retry_delay)). split.
      * unfold retry_delay, clock_limit, seconds. lia.
      * intros (n & H & _). discriminate H.
    + split; [discriminate | intros (n & H & _); discriminate H].
    + rewrite (proj1 (accepted_wait_spec w (seconds n))). split.
      * intros H. now exists n.
      * intros (m & [= <-] & H). exact H.
  - intros r. unfold retry_after_wait. destruct (retry_after r) as [| |n].
    + rewrite (proj2 (proj2 (accepted_wait_spec w retry_delay))). split.
      * intros (_ & _ & H). left. now split.
      * intros [[_ H]|(n & H & _)]; [|discriminate H].
        unfold retry_delay, clock_limit, seconds in *. lia.
    + split; [discriminate | intros [[H _]|(n & H & _)]; discriminate H].
    + rewrite (proj2 (proj2 (accepted_wait_spec w (seconds n)))). split.
      * intros (H1 & H2 & H3). right. exists n. unfold seconds in *.
        split; [reflexivity | lia].
      * intros [[H _]|(m & [= <-] & H1 & H2 & H3)]; [discriminate H|].
        unfold seconds in *. lia.
Qed.

(** A 429 answer with a date in its header, and one that asks for a wait
    of 10^20 seconds. *)
Lemma make_request_raises_only_on_retry_after_witness :
  make_request dated_retry_after (GetMe None) fresh_state
  = (Raise ValueError, called dated_retry_after (GetMe None) fresh_state)
  ∧ make_request endless_retry_after (GetMe None) fresh_state
    = (Raise OverflowError, called endless_retry_after (GetMe None) fresh_state).
Proof.
  split.
  - eapply (proj1 (proj2 (make_request_raises_only_on_retry_after
                            dated_retry_after (GetMe None) fresh_state)));
      reflexivity.
  - eapply (proj1 (proj2 (make_request_raises_only_on_retry_after
                            endless_retry_after (GetMe None) fresh_state)));
      reflexivity.
Defined.

(** * Notifications and the token refresh: what they leave alone *)

Section Holdings.

Variable w : World.

Lemma holdings_called req s : holdings (called w req s) = holdings s.
Proof. unfold called, requested, stamped. now destruct (_ <? _). Qed.

Lemma make_request_keeps_holdings req :
  preserves (λ s s', holdings s' = holdings s) (make_request w req).
Proof.
  apply preserves_make_request
    with (allowed := λ _, True) (allowed_req := λ _ : Request, True); auto.
  - intros s1 s2 s3 H1 H2. now rewrite H2.
  - intros r _ s. rewrite exec_call. apply holdings_called.
Qed.

Lemma send_telegram_message_keeps_holdings m :
  preserves (λ s s', holdings s' = holdings s) (send_telegram_message w m).
Proof.
  apply preserves_send_telegram_message
    with (allowed := λ _, True) (allowed_req := λ _ : Request, True); auto.
  - intros s1 s2 s3 H1 H2. now rewrite H2.
  - intros r _ s. rewrite exec_call. apply holdings_called.
Qed.


End Holdings.

Lemma send_telegram_message_calls w m s :
  ∃ k, (1 ≤ k ≤ 3)%nat
    ∧ attempts (log (exec (send_telegram_message w m) s))
      = attempts (log s) ++ replicate k (PostTelegram m).
Proof.
  assert (E : exec (send_telegram_message w m) s
              = exec (make_request w (PostTelegram m)) s).
  { unfold exec, send_telegram_message, try_except, bind.
    destruct (make_request w (PostTelegram m) s) as [[o|e|] s']; reflexivity. }
  rewrite E.
  destruct (make_request w (PostTelegram m) s) as [res s'] eqn:E1.
  destruct (make_request_outcome w _ s res s' E1)
    as (k & Hk & _ & Ha & _ & Hres).
  unfold exec. rewrite E1. exists k. split; [|exact Ha].
  split; [|exact Hk].
  destruct res as [[r|]|e|].
  - destruct Hres as (Hpos & _). lia.
  - destruct Hres as (_ & ->). lia.
  - destruct Hres as (Hpos & _). lia.
  - destruct Hres.
Qed.

(** X5.  Sending a Telegram message never raises and never touches what the
    process holds: whatever Telegram answers, the tokens, the set of
    processed identifiers, the configuration and the files are as before,
    and the calls made are one to three calls that carry the message to
    Telegram. *)
Theorem send_telegram_message_is_harmless (w : World) (m : Message) (s : State) :
  (send_telegram_message w m s).1 = Ok tt
  ∧ holdings (exec (send_telegram_message w m) s) = holdings s
  ∧ ∃ k, (1 ≤ k ≤ 3)%nat
      ∧ attempts (log (exec (send_telegram_message w m) s))
        = attempts (log s) ++ replicate k (PostTelegram m).
Proof.
  split; [now rewrite send_telegram_message_ok|].
  split; [apply send_telegram_message_keeps_holdings|].
  apply send_telegram_message_calls.
Qed.

Section Refresh.

Variable w : World.

Lemma send_telegram_error_step {A} reason (k : M A) s :
  (send_telegram_error w reason ;;; k) s
  = k (exec (send_telegram_error w reason) s).
Proof.
  unfold bind. unfold send_telegram_error at 1.
  now rewrite send_telegram_message_ok.
Qed.

Lemma holdings_after_error reason s :
  holdings (exec (send_telegram_error w reason) s) = holdings s.
Proof. apply send_telegram_message_keeps_holdings. Qed.

(** [save_token_to_config] changes neither token attribute that
    [refresh_access_token] sets afterwards. *)
Lemma save_token_to_config_effect a r e s :
  ∃ s', save_token_to_config w a r e s = (Ok tt, s')
        ∧ hh_access_token s' = hh_access_token s
        ∧ hh_refresh_token s' = hh_refresh_token s
        ∧ processed_ids s' = processed_ids s
        ∧ ledger_file s' = ledger_file s
        ∧ log s' = log s
        ∧ (truthy_int e = false → token_expires_at s' = token_expires_at s).
Proof.
  unfold save_token_to_config, try_except, bind, modify, gets, file_op, ret.
  destruct (truthy_str r), (truthy_int e); cbn;
    destruct (io_ok w (n_io s)); cbn; eexists; (split; [reflexivity|]);
    repeat split; intros H; discriminate H.
Qed.


(** What a refresh comes to. *)
Lemma refresh_access_token_outcome s :
  match refresh_access_token w s with
  | (Ok true, s') =>
      ∃ n r a rt e,
        http w n (PostToken (RefreshGrant (hh_refresh_token s))) = Answers r
        ∧ status_code r = 200
        ∧ body r = TokenBody (Some a) rt e
        ∧ a ≠ EmptyString
        ∧ hh_access_token s' = Some a
        ∧ hh_refresh_token s'
          = (if truthy_str rt then default EmptyString rt
             else hh_refresh_token s)
        ∧ (truthy_int e = false → token_expires_at s' = token_expires_at s)
  | (Ok false, s') => holdings s' = holdings s
  | _ => False
  end.
Proof.
  unfold refresh_access_token, emit. unfold bind at 1, modify.
  set (s0 := with_log (log s ++ [EvRefresh]) s).
  assert (H0 : holdings s0 = holdings s) by reflexivity.
  unfold bind at 1, gets. change (hh_refresh_token s0) with (hh_refresh_token s).
  destruct (bool_decide (hh_refresh_token s = EmptyString)); [exact H0|].
  unfold try_except. unfold bind at 1.
  destruct (make_request w (PostToken (RefreshGrant (hh_refresh_token s))) s0)
    as [res s1] eqn:E1.
  pose proof (make_request_keeps_holdings w
                (PostToken (RefreshGrant (hh_refresh_token s))) s0) as H1.
  unfold exec in H1. rewrite E1 in H1. simpl in H1. rewrite H0 in H1.
  destruct (make_request_outcome w _ s0 res s1 E1)
    as (k & _ & _ & _ & _ & Hres).
  assert (Htail : ∀ reason,
            (send_telegram_error w reason ;;; ret false) s1
            = (Ok false, exec (send_telegram_error w reason) s1)).
  { intros reason. now rewrite send_telegram_error_step. }
  assert (Hheld : ∀ reason,
            holdings (exec (send_telegram_error w reason) s1) = holdings s).
  { intros reason. now rewrite holdings_after_error. }
  destruct res as [[r|]|e|].
  - destruct (negb (response_ok r)); [exact H1|].
    unfold bind at 1.
    destruct (status_code r =? 200) eqn:Hs;
      [|unfold ret at 1; cbv iota beta; rewrite Htail; apply Hheld].
    unfold bind at 1, json.
    destruct (body r) as [| |a rt e| | | |] eqn:Hb;
      try (unfold raise; cbn [any_exception]; rewrite Htail; apply Hheld);
      try (unfold ret at 1; cbn [token_fields truthy_str]; unfold ret at 1;
           cbv iota beta; rewrite Htail; apply Hheld).
    unfold ret at 1. cbn [token_fields].
    destruct (truthy_str a) eqn:Ha;
      [|unfold ret at 1; cbv iota beta; rewrite Htail; apply Hheld].
    destruct (save_token_to_config_effect (default EmptyString a) rt e s1)
      as (s2 & E2 & Ha2 & Hr2 & _ & _ & _ & He2).
    unfold bind at 1. rewrite E2. unfold bind at 1. unfold bind at 1.
    set (s3 := with_tokens a (hh_refresh_token s2) (token_expires_at s2)
                 (config s2) s2).
    assert (Hr : hh_refresh_token s = hh_refresh_token s1).
    { now injection H1 as _ -> _. }
    assert (He : token_expires_at s = token_expires_at s1).
    { now injection H1 as _ _ -> _. }
    destruct Hres as (_ & Hh & _).
    destruct a as [a|]; [|discriminate Ha].
    assert (Hne : a ≠ EmptyString) by (intros ->; discriminate Ha).
    apply Z.eqb_eq in Hs.
    destruct (truthy_str rt) eqn:Hrt; [|unfold ret at 1];
      cbv beta iota; unfold bind at 1; unfold send_telegram_log;
      rewrite send_telegram_message_ok; unfold ret; cbv iota beta;
      exists (n_requests s0 + pred k)%nat, r, a, rt, e; rewrite Hrt;
      (split; [exact Hh|]); (split; [exact Hs|]); (split; [exact Hb|]);
      (split; [exact Hne|]);
      match goal with
      | |- context [exec (send_telegram_message w ?m) ?s4] =>
          pose proof (send_telegram_message_keeps_holdings w m s4) as H5
      end;
      cbv beta in H5; injection H5 as Hx Hy Hz _;
      (split; [etransitivity; [exact Hx | reflexivity]|]);
      (split; [etransitivity; [exact Hy|]
              | intros Hfalse; etransitivity; [exact Hz|];
                rewrite He; exact (He2 Hfalse)]);
      [reflexivity | cbn; congruence].
  - exact H1.
  - cbn [any_exception]. rewrite Htail. apply Hheld.
  - destruct Hres.
Qed.

End Refresh.

(** X6.  A token refresh is all or nothing.  When [refresh_access_token]
    returns [True], the token endpoint answered the refresh grant with a 200
    that carries a non-empty access token, which is now the access token of
    the instance, and the refresh token is the one granted, or the previous
    one when none came.  When it returns [False], the tokens, the expiry,
    the configuration and the files are what they were.  It never raises. *)
Theorem refresh_access_token_all_or_nothing (w : World) (s : State) :
  match refresh_access_token w s with
  | (Ok true, s') =>
      ∃ n r a rt e,
        http w n (PostToken (RefreshGrant (hh_refresh_token s))) = Answers r
        ∧ status_code r = 200
        ∧ body r = TokenBody (Some a) rt e
        ∧ a ≠ EmptyString
        ∧ hh_access_token s' = Some a
        ∧ hh_refresh_token s'
          = (if truthy_str rt then default EmptyString rt
             else hh_refresh_token s)
  | (Ok false, s') => holdings s' = holdings s
  | _ => False
  end.
Proof.
  pose proof (refresh_access_token_outcome w s) as H.
  destruct (refresh_access_token w s) as [[[]|e|] s']; try exact H.
  destruct H as (n & r & a & rt & e & H1 & H2 & H3 & H4 & H5 & H6 & _).
  now exists n, r, a, rt, e.
Qed.

(** X24.  A refresh whose answer brings no [expires_in] keeps the old
    expiry: when the token endpoint never gives a truthy [expires_in] and
    [refresh_access_token] returns [True], [token_expires_at] is what it
    was, so a token that was due for refresh is still due with the new
    token in place. *)
Theorem refresh_without_expires_in_keeps_the_expiry
    (w : World) (s s' : State) :
  (∀ n r a rt e,
     http w n (PostToken (RefreshGrant (hh_refresh_token s))) = Answers r →
     body r = TokenBody a rt e → truthy_int e = false) →
  refresh_access_token w s = (Ok true, s') →
  token_expires_at s' = token_expires_at s.
Proof.
  intros Hnone E.
  pose proof (refresh_access_token_outcome w s) as H. rewrite E in H.
  destruct H as (n & r & a & rt & e & H1 & _ & H3 & _ & _ & _ & He).
  apply He. exact (Hnone n r (Some a) rt e H1 H3).
Qed.


Lemma refresh_without_expires_in_keeps_the_expiry_witness :
  token_expires_at (exec (refresh_access_token silent_on_expiry) expiring_state)
  = token_expires_at expiring_state.
Proof.
  apply (refresh_without_expires_in_keeps_the_expiry silent_on_expiry expiring_state).
  - intros n r a rt e H. injection H as <-. intros H. now injection H as _ _ <-.
  - vm_compute. reflexivity.
Defined.

(** * The ledger across a cycle, whatever fails *)

Section Growth.

Variable w : World.

Lemma grows_refl s : ledger_grows s s.
Proof.
  exists []. split; [|split].
  - cbn. now rewrite (right_id_L ∅ (∪)).
  - cbn. now rewrite append_nil_r.
  - exists []. split; [now rewrite app_nil_r | constructor].
Qed.

Lemma grows_trans s1 s2 s3 : ledger_grows s1 s2 → ledger_grows s2 s3 → ledger_grows s1 s3.
Proof.
  intros (ids1 & Hp1 & Hf1 & more1 & Hl1 & Hm1)
         (ids2 & Hp2 & Hf2 & more2 & Hl2 & Hm2).
  exists (ids1 ++ ids2). split; [|split].
  - rewrite Hp2, Hp1, list_to_set_app_L. now rewrite (assoc_L (∪)).
  - rewrite Hf2, Hf1, ledger_of_app. now rewrite append_assoc.
  - exists (more1 ++ more2). split; [now rewrite Hl2, Hl1, app_assoc|].
    apply Forall_app. split.
    + eapply Forall_impl; [exact Hm1|]. intros id Hid. apply elem_of_app. now left.
    + eapply Forall_impl; [exact Hm2|]. intros id Hid. apply elem_of_app. now right.
Qed.

Lemma lead_ids_of_trace s s' :
  ledger_trace (log s') = ledger_trace (log s) →
  lead_ids (log s') = lead_ids (log s).
Proof.
  intros Ht. unfold lead_ids.
  now rewrite (leads_of_trace (log s')), (leads_of_trace (log s)), Ht.
Qed.

Lemma untouched_grows s s' : ledger_untouched s s' → ledger_grows s s'.
Proof.
  intros Hu. unfold ledger_untouched, ledger_view in Hu.
  injection Hu as Hp Hf Ht.
  exists []. split; [|split].
  - cbn. now rewrite (right_id_L ∅ (∪)).
  - cbn. now rewrite append_nil_r, Hf.
  - exists []. split; [|constructor].
    now rewrite app_nil_r, (lead_ids_of_trace s s').
Qed.

Lemma process_one_grows a counts : preserves ledger_grows (process_one w a counts).
Proof.
  intros s. unfold exec, process_one. destruct counts as [p sc].
  unfold bind at 1, gets. fold (app_id a).
  destruct (bool_decide (app_id a ∈ processed_ids s)); [apply grows_refl|].
  destruct (returns_create_bitrix_lead w a s) as [ok Hok].
  pose proof (create_bitrix_lead_effect w a s) as Hc. unfold exec in Hc.
  destruct (create_bitrix_lead w a s) as [r s1] eqn:E1. simpl in Hok, Hc. subst r.
  unfold bind at 1. rewrite (caught_ok _ _ _ _ E1).
  destruct (save_processed_id_effect w (app_id a) s1) as (s2 & E2 & Hs).
  unfold bind at 1. rewrite (caught_ok _ _ _ _ E2).
  pose proof (sleep_untouched BatchPause (seconds 2) s2) as Hz. unfold exec in Hz.
  assert (E3 : sleep BatchPause (seconds 2) s2
               = (Ok tt, (sleep BatchPause (seconds 2) s2).2)) by reflexivity.
  unfold bind at 1. rewrite (caught_ok _ _ _ _ E3). unfold ret. cbn [snd].
  apply grows_trans with s2; [|apply untouched_grows; exact Hz].
  unfold ledger_view in Hc. injection Hc as Hp1 Hf1 Ht1.
  assert (Hlead : ∀ t, ledger_trace (log s2)
                       = ledger_trace (log s) ++ [EvCreateLead a] ++ t →
                       omap lead_of t = [] →
                       lead_ids (log s2) = lead_ids (log s) ++ [app_id a]).
  { intros t Ht Hnone. unfold lead_ids.
    rewrite (leads_of_trace (log s2)), (leads_of_trace (log s)), Ht.
    rewrite !omap_app, Hnone. cbn. now rewrite map_app. }
  destruct Hs as [[_ Hv]|[_ Hv]];
    unfold ledger_view in Hv; injection Hv as Hp Hf Ht;
    rewrite Ht1, <- app_assoc in Ht.
  - exists [app_id a]. split; [|split].
    + rewrite Hp, Hp1. cbn. now rewrite (right_id_L ∅ (∪)).
    + rewrite Hf, Hf1. cbn. now rewrite append_nil_r.
    + exists [app_id a]. split; [now apply (Hlead _ Ht)|].
      constructor; [|constructor]. apply list_elem_of_singleton. reflexivity.
  - exists []. split; [|split].
    + rewrite Hp, Hp1. cbn. now rewrite (right_id_L ∅ (∪)).
    + rewrite Hf, Hf1. cbn. now rewrite append_nil_r.
    + exists [app_id a]. split; [now apply (Hlead _ Ht) | constructor].
Qed.

Lemma for_applications_grows apps counts :
  preserves ledger_grows (for_applications w apps counts).
Proof.
  revert counts. induction apps as [|a rest IH]; intros counts; cbn.
  - intros s. apply grows_refl.
  - apply preserves_bind; [exact grows_trans | apply process_one_grows | exact IH].
Qed.

Lemma process_applications_grows depth :
  preserves ledger_grows (process_applications w depth).
Proof.
  assert (Ht : ∀ m, preserves ledger_grows (send_telegram_message w m)).
  { intros m s. apply untouched_grows, send_telegram_message_untouched. }
  unfold process_applications.
  apply preserves_try; [exact grows_trans | | apply Ht].
  apply preserves_bind; [exact grows_trans | |].
  - intros s. apply untouched_grows, test_api_access_untouched.
  - intros [api_ok msg]. destruct api_ok; cbn [negb]; [|apply Ht].
    apply preserves_bind; [exact grows_trans | |].
    + intros s. apply untouched_grows, get_hh_applications_untouched.
    + intros [|a rest]; [intros s; apply grows_refl|].
      unfold process_batch.
      apply preserves_bind; [exact grows_trans | apply for_applications_grows|].
      intros [p sc]. destruct (Nat.ltb 0 p); [apply Ht|].
      intros s. apply grows_refl.
Qed.

End Growth.



(** X9.  When the access test fails, the cycle ends there: it reports the
    failure to Telegram and returns, without a call to the listings or to
    the sink, and the ledger is as it was. *)
Theorem failed_access_test_ends_the_cycle
    (w : World) (depth : nat) (s : State) (message : string) :
  (test_api_access w depth s).1 = Ok (false, message) →
  (process_applications w depth s).1 = Ok tt
  ∧ ledger_view (exec (process_applications w depth) s) = ledger_view s
  ∧ ∃ k, (1 ≤ k ≤ 3)%nat
      ∧ attempts (log (exec (process_applications w depth) s))
        = attempts (log (exec (test_api_access w depth) s))
          ++ replicate k
               (PostTelegram (MsgError ("API ga kira olmayapman: " +:+ message))).
Proof.
  intros H.
  pose proof (test_api_access_untouched w depth s) as Hu. unfold exec in *.
  destruct (test_api_access w depth s) as [res s1] eqn:E1. simpl in H, Hu. subst res.
  assert (E : process_applications w depth s
              = (Ok tt, exec (send_telegram_error w
                                ("API ga kira olmayapman: " +:+ message)) s1)).
  { unfold process_applications, try_except, bind. rewrite E1. cbn [negb].
    unfold send_telegram_error. now rewrite send_telegram_message_ok. }
  rewrite E. cbn [fst snd]. split; [reflexivity|].
  destruct (send_telegram_message_calls w
              (MsgError ("API ga kira olmayapman: " +:+ message)) s1) as (k & Hk & Ha).
  split.
  - unfold send_telegram_error. rewrite send_telegram_message_untouched. exact Hu.
  - exists k. split; [exact Hk | exact Ha].
Qed.

Lemma failed_access_test_ends_the_cycle_witness :
  (process_applications unauthorized_upstream 5 fresh_state).1 = Ok tt
  ∧ ledger_view (exec (process_applications unauthorized_upstream 5) fresh_state)
    = ledger_view fresh_state
  ∧ ∃ k, (1 ≤ k ≤ 3)%nat
      ∧ attempts (log (exec (process_applications unauthorized_upstream 5)
                         fresh_state))
        = attempts (log (exec (test_api_access unauthorized_upstream 5)
                           fresh_state))
          ++ replicate k
               (PostTelegram
                  (MsgError ("API ga kira olmayapman: "
                             +:+ "API ga so'rov yuborib bo'lmadi"))).
Proof.
  apply (failed_access_test_ends_the_cycle unauthorized_upstream 5 fresh_state).
  vm_compute. reflexivity.
Defined.

(** X10.  A cycle always returns: no exception leaves
    [process_applications], whatever the upstream, the sink, Telegram and
    the disk do. *)
Theorem process_applications_always_returns (w : World) (depth : nat) (s : State) :
  (process_applications w (S depth) s).1 = Ok tt.
Proof.
  destruct (returns_process_applications w depth s) as [[] H]. exact H.
Qed.

Lemma test_api_access_confirmed w depth :
  yields (confirmed_by w) (test_api_access w depth).
Proof.
  assert (Hno : ∀ message, confirmed_by w (false, message))
    by (intros message H; discriminate H).
  induction depth as [|depth IH]; [intros s a s' H; discriminate H|].
  cbn [test_api_access].
  apply (yields_bind (λ _, True)); [apply yields_any | intros _ _].
  apply (yields_bind (λ _, True)); [apply yields_any | intros token _].
  destruct (negb (truthy_str token)); [apply yields_ret, Hno|].
  apply yields_try; [|apply yields_ret, Hno].
  apply (yields_bind (λ _, True)); [apply yields_any | intros headers _].
  eapply yields_bind; [apply make_request_answer_of_upstream|].
  intros [r|] Hr; [|apply yields_ret, Hno].
  destruct (Hr r eq_refl) as [n Hn].
  destruct (negb (response_ok r)); [apply yields_ret, Hno|].
  destruct (status_code r =? 200) eqn:Hs.
  - apply Z.eqb_eq in Hs.
    eapply yields_bind; [apply yields_json|]. intros b ->.
    destruct (body r) as [| | | is_employer email id | | |] eqn:Hb;
      cbn [me_fields]; try (apply yields_ret, Hno).
    destruct is_employer; [|apply yields_ret, Hno].
    apply yields_ret. intros _. exists n, headers, r, email, id. auto.
  - destruct (status_code r =? 401).
    + apply (yields_bind (λ _, True)); [apply yields_any | intros current _].
      destruct (bool_decide (current = EmptyString)); [apply yields_ret, Hno|].
      apply (yields_bind (λ _, True)); [apply yields_any | intros ok _].
      destruct ok; [exact IH | apply yields_ret, Hno].
    + destruct (status_code r =? 403); [apply yields_ret, Hno|].
      destruct (status_code r =? 404); apply yields_ret, Hno.
Qed.

(** X11.  The access test succeeds only for an employer: when
    [test_api_access] returns [True], the upstream answered [/me] with a 200
    whose body says [is_employer], and the message names the e-mail address
    of that account. *)
Theorem test_api_access_confirms_employers
    (w : World) (depth : nat) (s : State) (message : string) (s' : State) :
  test_api_access w depth s = (Ok (true, message), s') →
  ∃ n token r email id,
    http w n (GetMe token) = Answers r
    ∧ status_code r = 200
    ∧ body r = MeBody true email id
    ∧ message = "Employer account tasdiqlandi: " +:+ email.
Proof.
  intros E. apply (test_api_access_confirmed w depth s _ s' E). reflexivity.
Qed.

Lemma test_api_access_confirms_employers_witness :
  ∃ n token r email id,
    http (one_candidate "7" true) n (GetMe token) = Answers r
    ∧ status_code r = 200
    ∧ body r = MeBody true email id
    ∧ ("Employer account tasdiqlandi: " +:+ "hr@example.org")%string
      = "Employer account tasdiqlandi: " +:+ email.
Proof.
  apply (test_api_access_confirms_employers (one_candidate "7" true) 1 fresh_state
           _ (exec (test_api_access (one_candidate "7" true) 1) fresh_state)).
  vm_compute. reflexivity.
Defined.

Lemma create_bitrix_lead_accepted w a :
  yields (accepted_by w a) (create_bitrix_lead w a).
Proof.
  assert (Hno : accepted_by w a false) by (intros H; discriminate H).
  assert (Herr : ∀ reason,
            yields (accepted_by w a) (send_telegram_error w reason ;;; ret false)).
  { intros reason. apply (yields_bind (λ _, True)); [apply yields_any|].
    intros _ _. apply yields_ret, Hno. }
  unfold create_bitrix_lead.
  apply (yields_bind (λ _, True)); [apply yields_any | intros _ _].
  apply yields_try; [|apply Herr].
  eapply yields_bind; [apply make_request_answer_of_upstream|].
  intros [r|] Hr; [|apply Herr].
  destruct (Hr r eq_refl) as [n Hn].
  destruct (negb (response_ok r)); [apply Herr|].
  destruct (status_code r =? 200) eqn:Hs; [|apply Herr].
  apply Z.eqb_eq in Hs.
  eapply yields_bind; [apply yields_json|]. intros b ->.
  destruct (truthy_int (lead_result (body r))) eqn:Ht; [|apply Herr].
  apply (yields_bind (λ _, True)); [apply yields_any | intros _ _].
  apply yields_ret. intros _.
  destruct (body r) as [| | | | | |[lead_id|]] eqn:Hb; try discriminate Ht.
  exists n, r, lead_id. repeat split; auto.
  intros ->. discriminate Ht.
Qed.

(** X14.  A delivery counts as a success only when the sink confirmed it:
    when [create_bitrix_lead] returns [True], the sink answered the lead
    with a 200 whose body carries a result that is not zero.  A transport
    failure, an error status, a body without a result or an exception all
    give [False]; nothing is raised. *)
Theorem create_bitrix_lead_succeeds_only_when_accepted
    (w : World) (a : Application) (s : State) :
  (∃ ok, (create_bitrix_lead w a s).1 = Ok ok)
  ∧ ((create_bitrix_lead w a s).1 = Ok true →
     ∃ n r lead_id,
       http w n (PostLead (lead_fields_of a)) = Answers r
       ∧ status_code r = 200
       ∧ body r = LeadBody (Some lead_id)
       ∧ lead_id ≠ 0).
Proof.
  split; [apply returns_create_bitrix_lead|].
  intros H. destruct (create_bitrix_lead w a s) as [res s'] eqn:E.
  simpl in H. subst res.
  now apply (create_bitrix_lead_accepted w a s true s' E).
Qed.

(** * The ledger file, read back *)

Section Lines.

Lemma lstrip_idem s : lstrip (lstrip s) = lstrip s.
Proof. apply lstrip_fixed, leading_space_lstrip. Qed.

Lemma rstrip_idem s : rstrip (rstrip s) = rstrip s.
Proof.
  induction s as [|c s IH]; [reflexivity|]. cbn [rstrip]. cbv zeta.
  destruct (is_white (String c (rstrip s))) eqn:E; [reflexivity|].
  cbn [rstrip]. cbv zeta. now rewrite IH, E.
Qed.

(** A text that does not start with white space still does not once white
    space is taken off its end. *)
Lemma lstrip_rstrip s : lstrip s = s → lstrip (rstrip s) = rstrip s.
Proof.
  intros H. apply lstrip_fixed in H. apply lstrip_fixed.
  destruct (leading_space (rstrip s)) as [rest|] eqn:E; [|reflexivity].
  destruct (rstrip_prefix s) as [q Hq].
  apply (leading_space_app _ q) in E. rewrite <- Hq, H in E. discriminate E.
Qed.

Lemma strip_idem s : strip (strip s) = strip s.
Proof.
  unfold strip. rewrite (lstrip_rstrip (lstrip s)) by apply lstrip_idem.
  apply rstrip_idem.
Qed.

Lemma no_line_break_lstrip s :
  no_line_break s = true → no_line_break (lstrip s) = true.
Proof.
  destruct (lstrip_suffix s) as [p Hp]. rewrite Hp at 1.
  rewrite no_line_break_app. intros H. now apply andb_prop in H as [_ H].
Qed.

Lemma no_line_break_rstrip s :
  no_line_break s = true → no_line_break (rstrip s) = true.
Proof.
  destruct (rstrip_prefix s) as [q Hq]. rewrite Hq at 1.
  rewrite no_line_break_app. intros H. now apply andb_prop in H as [H _].
Qed.

(** An end of a line with its line feed is empty or an end of the line with
    the line feed. *)
Lemma suffix_of_line p x stem :
  p +:+ x = stem +:+ String LF EmptyString →
  x = EmptyString ∨ ∃ t, x = t +:+ String LF EmptyString ∧ stem = p +:+ t.
Proof.
  revert stem. induction p as [|c p IH]; intros stem H.
  - right. exists stem. now rewrite append_nil_l in *.
  - destruct stem as [|d stem].
    + rewrite append_nil_l, append_cons in H. injection H as _ H.
      destruct p; [|discriminate H]. rewrite append_nil_l in H. now left.
    + rewrite !append_cons in H. injection H as -> H.
      destruct (IH stem H) as [->|(t & -> & ->)]; [now left|].
      right. now exists t.
Qed.

Lemma line_shaped_lstrip l : line_shaped l → line_shaped (lstrip l).
Proof.
  intros (stem & Hstem & [->| ->]).
  - exists (lstrip stem). split; [now apply no_line_break_lstrip | now left].
  - destruct (lstrip_suffix (stem +:+ String LF EmptyString)) as [p Hp].
    symmetry in Hp. destruct (suffix_of_line _ _ _ Hp) as [E|(t & E & Hs)];
      rewrite E.
    + exists EmptyString. split; [reflexivity | now left].
    + exists t. split; [|now right].
      rewrite Hs, no_line_break_app in Hstem.
      now apply andb_prop in Hstem as [_ H].
Qed.

Lemma line_shaped_rstrip l :
  line_shaped l → no_line_break (rstrip l) = true.
Proof.
  intros (stem & Hstem & [->| ->]).
  - now apply no_line_break_rstrip.
  - rewrite rstrip_line. now apply no_line_break_rstrip.
Qed.

Lemma line_shaped_strip l : line_shaped l → no_line_break (strip l) = true.
Proof. intros H. apply line_shaped_rstrip, line_shaped_lstrip, H. Qed.

Lemma line_shaped_cons c l :
  is_lf c = false → is_cr c = false → line_shaped l → line_shaped (String c l).
Proof.
  intros Hl Hc (stem & Hstem & Hshape). exists (String c stem). split.
  - cbn [no_line_break]. now rewrite Hl, Hc, Hstem.
  - destruct Hshape as [->| ->]; [now left | now right].
Qed.

Lemma line_shaped_single c :
  is_cr c = false → line_shaped (String c EmptyString).
Proof.
  intros Hc. destruct (is_lf c) eqn:Hl.
  - exists EmptyString. split; [reflexivity|]. right.
    unfold is_lf in Hl. apply Nat.eqb_eq in Hl.
    rewrite append_nil_l. f_equal.
    rewrite <- (ascii_nat_embedding c), Hl. reflexivity.
  - exists (String c EmptyString). split; [|now left].
    cbn [no_line_break]. now rewrite Hl, Hc.
Qed.

Lemma split_lines_shaped t :
  no_cr t = true → Forall line_shaped (split_lines t).
Proof.
  induction t as [|c t IH]; intros Hcr; [constructor|].
  cbn [no_cr] in Hcr. apply andb_prop in Hcr as [Hc Hcr].
  apply negb_true_iff in Hc. specialize (IH Hcr).
  cbn [split_lines]. destruct (is_lf c) eqn:Hl.
  - constructor; [|exact IH]. apply line_shaped_single, Hc.
  - destruct (split_lines t) as [|l ls].
    + constructor; [|constructor]. apply line_shaped_single, Hc.
    + inversion IH as [|? ? Hl1 Hls]; subst. constructor; [|exact Hls].
      now apply line_shaped_cons.
Qed.

(** Reading in text mode leaves no CR. *)
Lemma universal_newlines_no_cr content :
  no_cr (universal_newlines content) = true.
Proof.
  assert (H : ∀ n c, (String.length c ≤ n)%nat →
                no_cr (universal_newlines c) = true).
  { induction n as [|n IH]; intros c Hlen.
    - destruct c; [reflexivity | simpl in Hlen; lia].
    - destruct c as [|x c]; [reflexivity|]. simpl in Hlen.
      cbn [universal_newlines]. destruct (is_cr x) eqn:Hx.
      + cbn [no_cr]. rewrite is_cr_LF. cbn [negb andb].
        destruct c as [|y c]; [reflexivity|]. simpl in Hlen.
        destruct (is_lf y); apply IH; simpl; lia.
      + cbn [no_cr]. rewrite Hx. cbn [negb andb]. apply IH. lia. }
  now apply (H (String.length content)).
Qed.

Lemma readlines_shaped content : Forall line_shaped (readlines content).
Proof. apply split_lines_shaped, universal_newlines_no_cr. Qed.

(** Whatever the file holds, the identifiers read from it are clean. *)
Lemma parse_ids_clean content id :
  id ∈ parse_ids content → clean_id id = true.
Proof.
  unfold parse_ids. rewrite elem_of_ids_of_lines.
  intros (Hne & line & Hin & <-).
  pose proof (readlines_shaped content) as Hall.
  rewrite Forall_forall in Hall. specialize (Hall line Hin).
  unfold clean_id. rewrite (line_shaped_strip line Hall), strip_idem.
  rewrite bool_decide_eq_true_2 by reflexivity.
  now rewrite bool_decide_eq_false_2.
Qed.

End Lines.

(** X12.  Loading the ledger never raises, and whatever the file holds,
    every identifier it gives is clean: not empty, without white space at
    either end, and without a line break.  A missing or unreadable file
    gives the empty set. *)
Theorem load_processed_ids_gives_clean_ids (w : World) (s : State) :
  ∃ ids,
    (load_processed_ids w s).1 = Ok ids
    ∧ (∀ id, id ∈ ids → clean_id id = true)
    ∧ (ledger_file s = None ∨ io_ok w (n_io s) = false → ids = ∅).
Proof.
  unfold load_processed_ids, try_except, bind, gets, file_op, ret.
  destruct (ledger_file s) as [content|].
  - destruct (io_ok w (n_io s)); cbn.
    + exists (parse_ids content). split; [reflexivity|]. split.
      * intros id. apply parse_ids_clean.
      * intros [H|H]; discriminate H.
    + exists ∅. split; [reflexivity|]. split; [|reflexivity].
      intros id Hid. now apply not_elem_of_empty in Hid.
  - exists ∅. split; [reflexivity|]. split; [|reflexivity].
    intros id Hid. now apply not_elem_of_empty in Hid.
Qed.

Section Appending.

Lemma line_terminated_tail c s :
  line_terminated (String c s) = true → line_terminated s = true.
Proof. destruct s; [reflexivity | exact id]. Qed.

Lemma universal_newlines_app a b :
  line_terminated a = true →
  universal_newlines (a +:+ b) = universal_newlines a +:+ universal_newlines b
  ∧ line_terminated (universal_newlines a) = true.
Proof.
  assert (H : ∀ n a, (String.length a ≤ n)%nat → line_terminated a = true →
                universal_newlines (a +:+ b)
                = universal_newlines a +:+ universal_newlines b
                ∧ line_terminated (universal_newlines a) = true).
  { clear a. induction n as [|n IH]; intros a Hlen Ht.
    - destruct a; [now split | simpl in Hlen; lia].
    - destruct a as [|x a]; [now split|]. simpl in Hlen.
      pose proof (line_terminated_tail x a Ht) as Ha.
      rewrite append_cons. cbn [universal_newlines].
      destruct (is_cr x) eqn:Hx.
      + destruct a as [|y a].
        * cbn [line_terminated] in Ht. unfold is_cr, is_lf in *.
          apply Nat.eqb_eq in Hx, Ht. congruence.
        * simpl in Hlen. rewrite append_cons.
          pose proof (line_terminated_tail y a Ha) as Ha'.
          destruct (is_lf y).
          -- destruct (IH a ltac:(lia) Ha') as [E T]. rewrite E. split.
             ++ reflexivity.
             ++ cbn [line_terminated].
                destruct (universal_newlines a); [apply is_lf_LF | exact T].
          -- destruct (IH (String y a) ltac:(simpl; lia) Ha) as [E T].
             rewrite <- append_cons, E. split; [reflexivity|].
             cbn [line_terminated].
             destruct (universal_newlines (String y a));
               [apply is_lf_LF | exact T].
      + destruct (IH a ltac:(lia) Ha) as [E T]. rewrite E.
        split; [reflexivity|]. cbn [line_terminated].
        destruct a as [|y a]; [exact Ht|].
        destruct (universal_newlines (String y a)) eqn:Eu; [|exact T].
        exfalso. cbn [universal_newlines] in Eu.
        destruct (is_cr y); discriminate Eu. }
  now apply (H (String.length a)).
Qed.

Lemma split_lines_nonempty c s : split_lines (String c s) ≠ [].
Proof.
  cbn [split_lines]. destruct (is_lf c); [discriminate|].
  destruct (split_lines s); discriminate.
Qed.

Lemma split_lines_app a b :
  line_terminated a = true →
  split_lines (a +:+ b) = split_lines a ++ split_lines b.
Proof.
  induction a as [|x a IH]; intros Ht; [reflexivity|].
  pose proof (line_terminated_tail x a Ht) as Ha.
  rewrite append_cons. cbn [split_lines]. rewrite (IH Ha).
  destruct (is_lf x) eqn:Hx; [reflexivity|].
  destruct a as [|y a]; [cbn [line_terminated] in Ht; congruence|].
  pose proof (split_lines_nonempty y a) as Hne.
  destruct (split_lines (String y a)); [congruence | reflexivity].
Qed.

Lemma ids_of_lines_app l1 l2 :
  ids_of_lines (l1 ++ l2) = ids_of_lines l1 ∪ ids_of_lines l2.
Proof.
  unfold ids_of_lines. now rewrite map_app, filter_app, list_to_set_app_L.
Qed.

(** Appending the line of a clean identifier to a file that ends with a
    line break adds the identifier to what the file reads as. *)
Lemma parse_ids_appended content id :
  line_terminated content = true → clean_id id = true →
  parse_ids (content +:+ id_line id) = parse_ids content ∪ {[ id ]}.
Proof.
  intros Ht Hid. destruct (clean_id_spec id Hid) as (Hb & _ & _).
  unfold parse_ids, readlines.
  destruct (universal_newlines_app content (id_line id) Ht) as [E T].
  rewrite E, (split_lines_app _ _ T), ids_of_lines_app. f_equal.
  change (split_lines (universal_newlines (id_line id)))
    with (readlines (id_line id)).
  rewrite <- (append_nil_r (id_line id)), (readlines_line id _ Hb).
  rewrite (ids_of_lines_cons_clean id _ Hid). cbn.
  now rewrite (right_id_L ∅ (∪)).
Qed.

End Appending.

(** X13.  An identifier that [save_processed_id] has written is there after
    a restart.  When the ledger file is empty or ends with a line break, the
    identifier is a text that is clean (not empty, no line break in it, no
    white space of [str.isspace] at either end) and the two file operations
    go through, the set loaded at the next start is what the file read as
    before, with the identifier added. *)
Theorem saved_id_survives_restart (w : World) (id : string) (s : State) :
  line_terminated (file_content (ledger_file s)) = true →
  utf8 id = true →
  clean_id id = true →
  io_ok w (n_io s) = true →
  io_ok w (S (n_io s)) = true →
  processed_ids (exec (startup w) (exec (save_processed_id w id) s))
  = parse_ids (file_content (ledger_file s)) ∪ {[ id ]}.
Proof.
  intros Ht _ Hid Hio1 Hio2.
  rewrite <- (parse_ids_appended _ id Ht Hid).
  unfold exec, save_processed_id, emit, try_except, bind, modify, file_op.
  cbn [n_io with_log]. rewrite Hio1. cbn.
  unfold startup, load_processed_ids, try_except, bind, modify, gets, file_op, ret.
  cbn. rewrite Hio2. reflexivity.
Qed.

Lemma saved_id_survives_restart_witness :
  processed_ids (exec (startup calm_world)
                   (exec (save_processed_id calm_world "14") small_ledger_state))
  = parse_ids (file_content (ledger_file small_ledger_state)) ∪ {[ "14"%string ]}.
Proof.
  apply (saved_id_survives_restart calm_world "14" small_ledger_state);
    reflexivity.
Defined.

(** * Compaction: the backups *)

Lemma cleanup_backups w s :
  (cleanup_old_processed_ids w s).1 = Ok tt
  ∧ (backup_files (exec (cleanup_old_processed_ids w) s) = backup_files s
     ∨ (backup_files s !! today s = None
        ∧ backup_files (exec (cleanup_old_processed_ids w) s)
          = <[today s := universal_newlines (file_content (ledger_file s))]>
              (backup_files s))).
Proof.
  unfold exec, cleanup_old_processed_ids, try_except, bind, gets, modify, ret,
    file_op.
  destruct (ledger_file s) as [content|] eqn:Hl; cbn [fst snd]; [|auto].
  destruct (backup_files s !! today s) as [old|] eqn:Hb;
    cbn [fst snd n_io with_clock].
  - destruct (io_ok w (n_io s));
      cbn [any_exception fst snd n_io with_clock ledger_file file_content
           backup_files]; [|auto].
    destruct (max_ledger_bytes <? _); cbn [fst snd n_io with_clock]; [|auto].
    destruct (io_ok w (S (n_io s)));
      cbn [any_exception fst snd n_io with_clock ledger_file file_content
           backup_files]; [|auto].
    destruct (io_ok w (S (S (n_io s))));
      cbn [any_exception fst snd n_io with_clock with_files with_processed_ids
           ledger_file file_content backup_files]; auto.
  - destruct (io_ok w (n_io s));
      cbn [any_exception fst snd n_io with_clock ledger_file file_content
           backup_files]; [|auto].
    destruct (io_ok w (S (n_io s)));
      cbn [any_exception fst snd n_io with_clock with_files ledger_file
           file_content backup_files]; [|auto].
    rewrite Hl. cbn [file_content].
    destruct (io_ok w (S (S (n_io s))));
      cbn [any_exception fst snd n_io with_clock with_files ledger_file
           file_content backup_files]; [|auto].
    destruct (max_ledger_bytes <? _); cbn [fst snd n_io with_clock]; [|auto].
    destruct (io_ok w (S (S (S (n_io s)))));
      cbn [any_exception fst snd n_io with_clock with_files ledger_file
           file_content backup_files]; [|auto].
    destruct (io_ok w (S (S (S (S (n_io s))))));
      cbn [any_exception fst snd n_io with_clock with_files with_processed_ids
           ledger_file file_content backup_files]; auto.
Qed.

(** X15.  Compaction never raises, and it never removes or overwrites a
    backup: every backup on disk before [cleanup_old_processed_ids] is on
    disk afterwards, with the same content.  The only backup it can add is
    today's, when none of that date exists. *)
Theorem cleanup_keeps_every_backup (w : World) (s : State) :
  (cleanup_old_processed_ids w s).1 = Ok tt
  ∧ (∀ day content,
       backup_files s !! day = Some content →
       backup_files (exec (cleanup_old_processed_ids w) s) !! day = Some content)
  ∧ (∀ day,
       day ≠ today s →
       backup_files (exec (cleanup_old_processed_ids w) s) !! day
       = backup_files s !! day).
Proof.
  destruct (cleanup_backups w s) as [Hok [E|[Hnone E]]]; rewrite E;
    (split; [exact Hok|]); split; try tauto.
  - intros day content Hday. rewrite lookup_insert_ne; [exact Hday|].
    intros <-. congruence.
  - intros day Hday. now rewrite lookup_insert_ne.
Qed.

(** * Compaction: the file written is the set kept *)

Section Rewriting.

Lemma no_line_break_no_cr s : no_line_break s = true → no_cr s = true.
Proof.
  induction s as [|c s IH]; [reflexivity|]. cbn [no_line_break no_cr].
  intros H. apply andb_prop in H as [H Hs]. apply andb_prop in H as [_ Hc].
  now rewrite Hc, (IH Hs).
Qed.

Lemma no_cr_app a b : no_cr (a +:+ b) = no_cr a && no_cr b.
Proof.
  induction a as [|c a IH]; [reflexivity|].
  rewrite append_cons. cbn [no_cr]. rewrite IH. now rewrite andb_assoc.
Qed.

Lemma line_shaped_no_cr l : line_shaped l → no_cr l = true.
Proof.
  intros (stem & Hstem & [->| ->]).
  - now apply no_line_break_no_cr.
  - rewrite no_cr_app, (no_line_break_no_cr _ Hstem). reflexivity.
Qed.

Lemma universal_newlines_id t : no_cr t = true → universal_newlines t = t.
Proof.
  induction t as [|c t IH]; [reflexivity|]. cbn [no_cr universal_newlines].
  intros H. apply andb_prop in H as [Hc Ht]. apply negb_true_iff in Hc.
  now rewrite Hc, (IH Ht).
Qed.

Lemma split_lines_plain s :
  no_line_break s = true → s ≠ EmptyString → split_lines s = [s].
Proof.
  induction s as [|c s IH]; [congruence|]. intros H _.
  cbn [no_line_break] in H. apply andb_prop in H as [H Hs].
  apply andb_prop in H as [Hlf _]. apply negb_true_iff in Hlf.
  cbn [split_lines]. rewrite Hlf.
  destruct s as [|d s]; [reflexivity|]. now rewrite IH.
Qed.

Lemma split_lines_well_lined t : no_cr t = true → well_lined (split_lines t).
Proof.
  induction t as [|c t IH]; intros Hcr; [exact I|].
  cbn [no_cr] in Hcr. apply andb_prop in Hcr as [Hc Hcr].
  apply negb_true_iff in Hc. specialize (IH Hcr).
  cbn [split_lines]. destruct (is_lf c) eqn:Hl.
  - assert (E : String c EmptyString = EmptyString +:+ String LF EmptyString).
    { unfold is_lf in Hl. apply Nat.eqb_eq in Hl. rewrite append_nil_l. f_equal.
      rewrite <- (ascii_nat_embedding c), Hl. reflexivity. }
    cbn [well_lined]. destruct (split_lines t) as [|l ls].
    + split; [now apply line_shaped_single | discriminate].
    + split; [|exact IH]. exists EmptyString. now split.
  - destruct (split_lines t) as [|l ls].
    + cbn [well_lined]. split; [now apply line_shaped_single | discriminate].
    + cbn [well_lined] in *. destruct ls as [|l' ls].
      * destruct IH as [Hshape _].
        split; [now apply line_shaped_cons | discriminate].
      * destruct IH as [(stem & Hstem & ->) Hrest]. split; [|exact Hrest].
        exists (String c stem). split; [|reflexivity].
        cbn [no_line_break]. now rewrite Hl, Hc, Hstem.
Qed.

Lemma well_lined_tail l rest : well_lined (l :: rest) → well_lined rest.
Proof. destruct rest; [intros _; exact I | now intros [_ H]]. Qed.

Lemma well_lined_drop n lines : well_lined lines → well_lined (drop n lines).
Proof.
  revert lines. induction n as [|n IH]; intros [|l rest] H; try exact H.
  cbn [drop]. apply IH. now apply well_lined_tail in H.
Qed.

Lemma well_lined_no_cr lines : well_lined lines → no_cr (writelines lines) = true.
Proof.
  induction lines as [|l rest IH]; [reflexivity|]. intros H.
  pose proof (well_lined_tail _ _ H) as Hrest.
  cbn [writelines fold_right]. fold (writelines rest).
  rewrite no_cr_app, (IH Hrest), andb_true_r.
  cbn [well_lined] in H. destruct rest.
  - now apply line_shaped_no_cr.
  - destruct H as [(stem & Hstem & ->) _].
    rewrite no_cr_app, (no_line_break_no_cr _ Hstem). reflexivity.
Qed.

Lemma split_lines_writelines lines :
  well_lined lines → split_lines (writelines lines) = lines.
Proof.
  induction lines as [|l rest IH]; [reflexivity|]. intros H.
  pose proof (well_lined_tail _ _ H) as Hrest.
  cbn [writelines fold_right]. fold (writelines rest).
  cbn [well_lined] in H. destruct rest as [|l' rest].
  - destruct H as [(stem & Hstem & [->| ->]) Hne]; cbn [writelines fold_right].
    + rewrite append_nil_r. now apply split_lines_plain.
    + rewrite append_assoc, append_cons, append_nil_l.
      now rewrite split_lines_line.
  - destruct H as [(stem & Hstem & ->) _].
    rewrite append_assoc, append_cons, append_nil_l.
    rewrite split_lines_line by exact Hstem. now rewrite (IH Hrest).
Qed.

(** Reading back what compaction writes gives the lines it kept. *)
Lemma readlines_kept content :
  readlines (writelines (keep_lines (readlines content)))
  = keep_lines (readlines content).
Proof.
  assert (H : well_lined (keep_lines (readlines content))).
  { unfold keep_lines. pose proof (split_lines_well_lined _
      (universal_newlines_no_cr content)) as Hw. fold (readlines content) in Hw.
    destruct (_ <? _); [|exact Hw]. unfold last_n. now apply well_lined_drop. }
  unfold readlines at 1.
  rewrite (universal_newlines_id _ (well_lined_no_cr _ H)).
  now apply split_lines_writelines.
Qed.

End Rewriting.

(** X23.  After a compaction the file and the set in memory agree: when the
    ledger file exceeds 10MB and no file operation fails, a restart that
    follows [cleanup_old_processed_ids] loads from the rewritten file
    exactly the set that compaction left in memory. *)
Theorem restart_after_compaction_loads_the_same_set
    (w : World) (s : State) (content : string) :
  reliable_files w →
  ledger_file s = Some content →
  max_ledger_bytes < file_size content →
  processed_ids (exec (startup w) (exec (cleanup_old_processed_ids w) s))
  = processed_ids (exec (cleanup_old_processed_ids w) s).
Proof.
  intros Hio Hl Hsize.
  destruct (cleanup_large_ledger w s content Hio Hl Hsize) as [k E].
  unfold exec at 2 3. rewrite E. cbn [snd].
  unfold exec, startup, load_processed_ids, try_except, bind, modify, gets,
    file_op, ret.
  cbn [fst snd ledger_file with_tokens with_processed_ids with_files
       processed_ids n_io with_clock with_last_request_time].
  rewrite Hio.
  cbn [fst snd ledger_file with_tokens with_processed_ids with_files
       processed_ids n_io with_clock with_last_request_time].
  unfold parse_ids. now rewrite readlines_kept.
Qed.

Lemma restart_after_compaction_loads_the_same_set_witness :
  processed_ids (exec (startup calm_world)
                   (exec (cleanup_old_processed_ids calm_world) large_ledger_state))
  = processed_ids (exec (cleanup_old_processed_ids calm_world) large_ledger_state).
Proof.
  apply (restart_after_compaction_loads_the_same_set calm_world large_ledger_state
           huge_ledger).
  - intros n. reflexivity.
  - reflexivity.
  - rewrite file_size_huge_ledger. reflexivity.
Defined.

(** * Compaction twice *)

Section Twice.

Variable w : World.
Hypothesis files_ok : reliable_files w.

(** What compaction does to a ledger within the size limit when no file
    operation fails. *)
Lemma cleanup_small_ledger s content :
  ledger_file s = Some content →
  file_size content ≤ max_ledger_bytes →
  ∃ k,
    cleanup_old_processed_ids w s =
    (Ok tt,
     with_files (Some content)
       match backup_files s !! today s with
       | Some _ => backup_files s
       | None => <[today s := universal_newlines content]> (backup_files s)
       end
       (config_file s) (with_io k s)).
Proof.
  intros Hl Hsize. apply Z.ltb_ge in Hsize.
  unfold cleanup_old_processed_ids, try_except, bind, gets, modify, ret, file_op.
  rewrite Hl. cbn [fst snd].
  destruct (backup_files s !! today s) as [old|] eqn:Hb;
    rewrite ?files_ok;
    cbn [fst snd n_io with_clock with_files ledger_file file_content];
    rewrite ?files_ok;
    cbn [fst snd n_io with_clock with_files ledger_file file_content];
    rewrite ?Hl; cbn [file_content]; rewrite ?files_ok;
    cbn [fst snd n_io with_clock with_files ledger_file file_content];
    rewrite Hsize.
  - exists (S (n_io s)). destruct s; simpl in *; subst; reflexivity.
  - exists (S (S (S (n_io s)))). destruct s; simpl in *; subst; reflexivity.
Qed.

Lemma keep_lines_idem lines : keep_lines (keep_lines lines) = keep_lines lines.
Proof.
  unfold keep_lines.
  destruct (max_ledger_lines <? Z.of_nat (length lines)) eqn:E; [|now rewrite E].
  apply Z.ltb_lt in E.
  assert (F : (max_ledger_lines
               <? Z.of_nat (length (last_n (Z.to_nat max_ledger_lines) lines)))
              = false).
  { apply Z.ltb_ge. unfold last_n. rewrite length_skipn.
    unfold max_ledger_lines in *. lia. }
  now rewrite F.
Qed.

(** The ledger, the set and the backups after a run of compaction, by the
    content the file had. *)
Lemma cleanup_reliable s content :
  ledger_file s = Some content →
  ∃ s1 file,
    cleanup_old_processed_ids w s = (Ok tt, s1)
    ∧ ledger_file s1 = Some file
    ∧ today s1 = today s
    ∧ is_Some (backup_files s1 !! today s)
    ∧ ((max_ledger_bytes < file_size content
        ∧ file = writelines (keep_lines (readlines content))
        ∧ processed_ids s1 = ids_of_lines (keep_lines (readlines content)))
       ∨ (file_size content ≤ max_ledger_bytes
          ∧ file = content ∧ processed_ids s1 = processed_ids s
          ∧ (is_Some (backup_files s !! today s) →
             backup_files s1 = backup_files s))).
Proof.
  intros Hl.
  assert (Hb : ∀ v, is_Some (match backup_files s !! today s with
                             | Some _ => backup_files s
                             | None => <[today s := v]> (backup_files s)
                             end !! today s)).
  { intros v. destruct (backup_files s !! today s) eqn:E.
    - rewrite E. eauto.
    - rewrite lookup_insert_eq. eauto. }
  destruct (Z.lt_ge_cases max_ledger_bytes (file_size content)) as [Hbig|Hsmall].
  - destruct (cleanup_large_ledger w s content files_ok Hl Hbig) as [k E].
    eexists _, _. split; [exact E|]. split; [reflexivity|].
    split; [reflexivity|]. split; [apply Hb|]. left. now repeat split.
  - destruct (cleanup_small_ledger s content Hl Hsmall) as [k E].
    eexists _, _. split; [exact E|]. split; [reflexivity|].
    split; [reflexivity|]. split; [apply Hb|]. right.
    repeat split; [exact Hsmall|].
    intros [old Hold]. cbn [backup_files with_files]. now rewrite Hold.
Qed.

End Twice.

(** X25.  Compaction is idempotent: when no file operation fails, a second
    run of [cleanup_old_processed_ids] right after the first changes
    neither the ledger file, nor the set in memory, nor the backups. *)
Theorem compaction_is_idempotent (w : World) (s : State) :
  reliable_files w →
  ledger_file (exec (cleanup_old_processed_ids w)
                 (exec (cleanup_old_processed_ids w) s))
  = ledger_file (exec (cleanup_old_processed_ids w) s)
  ∧ processed_ids (exec (cleanup_old_processed_ids w)
                     (exec (cleanup_old_processed_ids w) s))
    = processed_ids (exec (cleanup_old_processed_ids w) s)
  ∧ backup_files (exec (cleanup_old_processed_ids w)
                    (exec (cleanup_old_processed_ids w) s))
    = backup_files (exec (cleanup_old_processed_ids w) s).
Proof.
  intros Hio. destruct (ledger_file s) as [content|] eqn:Hl.
  - destruct (cleanup_reliable w Hio s content Hl)
      as (s1 & file & E1 & Hl1 & Ht1 & Hb1 & Hcase).
    assert (X1 : exec (cleanup_old_processed_ids w) s = s1)
      by (unfold exec; now rewrite E1).
    rewrite !X1.
    destruct (cleanup_reliable w Hio s1 file Hl1)
      as (s2 & file' & E2 & Hl2 & _ & _ & Hcase2).
    assert (X2 : exec (cleanup_old_processed_ids w) s1 = s2)
      by (unfold exec; now rewrite E2).
    rewrite !X2. rewrite Ht1 in Hcase2.
    destruct Hcase2 as [(Hbig2 & -> & Hp2)|(_ & -> & Hp2 & Hb2)].
    + destruct Hcase as [(_ & -> & Hp1)|(Hsmall & -> & _)]; [|lia].
      rewrite readlines_kept, keep_lines_idem in Hp2.
      rewrite Hl2, Hl1, readlines_kept, keep_lines_idem, Hp2, Hp1.
      split; [reflexivity|]. split; [reflexivity|].
      destruct (cleanup_large_ledger w s1 _ Hio Hl1 Hbig2) as [k E].
      rewrite E2 in E. injection E as ->.
      cbn [backup_files with_processed_ids with_files]. rewrite Ht1.
      destruct Hb1 as [old ->]. reflexivity.
    + rewrite Hl2, Hl1, Hp2, (Hb2 Hb1). auto.
  - assert (E : exec (cleanup_old_processed_ids w) s = s).
    { unfold exec, cleanup_old_processed_ids, try_except, bind, gets, ret.
      now rewrite Hl. }
    rewrite !E. auto.
Qed.

Lemma compaction_is_idempotent_witness :
  ledger_file (exec (cleanup_old_processed_ids calm_world)
                 (exec (cleanup_old_processed_ids calm_world) small_ledger_state))
  = ledger_file (exec (cleanup_old_processed_ids calm_world) small_ledger_state)
  ∧ processed_ids (exec (cleanup_old_processed_ids calm_world)
                     (exec (cleanup_old_processed_ids calm_world) small_ledger_state))
    = processed_ids (exec (cleanup_old_processed_ids calm_world) small_ledger_state)
  ∧ backup_files (exec (cleanup_old_processed_ids calm_world)
                    (exec (cleanup_old_processed_ids calm_world) small_ledger_state))
    = backup_files (exec (cleanup_old_processed_ids calm_world) small_ledger_state).
Proof.
  apply (compaction_is_idempotent calm_world small_ledger_state).
  intros n. reflexivity.
Defined.

(** * The lead payload *)

Section PayloadFacts.

Variable repr : Json → string.

Lemma dict_get_is_Some d key fallback :
  is_Some (dict_get d key fallback) ↔ is_dict d = true.
Proof.
  destruct d; cbn; split; intros H; try discriminate H; try reflexivity;
    try (now apply is_Some_None in H); eauto.
Qed.

Lemma read_contact_is_Some found contact :
  is_Some (read_contact found contact) ↔ is_dict contact = true.
Proof.
  destruct found as [email phone]. split.
  - intros [r H]. destruct contact; try discriminate H. reflexivity.
  - intros H. destruct contact as [| | | | |fc]; try discriminate H.
    cbn. destruct (default (JObj []) (item "type" fc)) as [| | | | |ft]; cbn; eauto.
    destruct (is_str "email" _); cbn; eauto.
    destruct (_ || _); cbn; eauto.
Qed.

Lemma for_contacts_is_Some contacts found :
  is_Some (for_contacts contacts found)
  ↔ Forall (λ contact, is_dict contact = true) contacts.
Proof.
  revert found. induction contacts as [|c cs IH]; intros found; cbn.
  - split; [constructor | eauto].
  - split.
    + intros [r H]. destruct (read_contact found c) as [found'|] eqn:E;
        [|discriminate H].
      constructor.
      * apply (read_contact_is_Some found c). rewrite E. eauto.
      * apply (IH found'). cbn in H. eauto.
    + intros H. inversion H as [|? ? Hc Hcs]; subst.
      destruct (proj2 (read_contact_is_Some found c) Hc) as [found' E].
      rewrite E. cbn. now apply IH.
Qed.

Lemma salary_comment_is_Some salary :
  is_Some (salary_comment repr salary)
  ↔ (truthy salary = true → is_dict salary = true).
Proof.
  unfold salary_comment. destruct (truthy salary) eqn:Ht.
  - destruct salary; cbn; split; intros H; try reflexivity; eauto;
      try (now apply is_Some_None in H);
      try (specialize (H eq_refl); discriminate H).
  - split; [intros _ H; discriminate H | eauto].
Qed.

Lemma format_comments_is_Some fn :
  is_Some (format_comments repr (JObj fn))
  ↔ ∃ fr, default (JObj []) (item "resume" fn) = JObj fr
          ∧ is_dict (default (JObj []) (item "area" fr)) = true
          ∧ (truthy (default JNull (item "salary" fr)) = true →
             is_dict (default JNull (item "salary" fr)) = true).
Proof.
  unfold format_comments. cbn [dict_get mbind option_bind].
  destruct (default (JObj []) (item "resume" fn)) as [| | | | |fr] eqn:Er;
    try (split; [intros H; now apply is_Some_None in H
                | intros (fr & H & _); discriminate H]).
  cbn [dict_get mbind option_bind].
  split.
  - intros H. exists fr. split; [reflexivity|].
    destruct (default (JObj []) (item "area" fr)) as [| | | | |fa];
      try (now apply is_Some_None in H).
    split; [reflexivity|]. cbn [dict_get mbind option_bind] in H.
    apply salary_comment_is_Some.
    destruct (salary_comment repr _); [eauto | now apply is_Some_None in H].
  - intros (fr' & E & Ha & Hs). injection E as <-.
    destruct (default (JObj []) (item "area" fr)) as [| | | | |fa];
      try discriminate Ha.
    cbn [dict_get mbind option_bind].
    apply salary_comment_is_Some in Hs. destruct Hs as [lines ->]. cbn. eauto.
Qed.

End PayloadFacts.

(** X16.  [create_bitrix_lead] can build its payload exactly from a
    readable [application_data]: the negotiation and its resume are dicts,
    every entry of a list of contacts is a dict, the area is a dict where
    there is one, and so is a salary that is not falsy.  On any other shape,
    a resume that is [null] for one, building the payload raises, and the
    delivery is reported as failed before a request is made. *)
Theorem lead_data_needs_a_readable_payload
    (repr : Json → string) (application_data : Json) :
  is_Some (lead_data repr application_data) ↔ readable application_data.
Proof.
  unfold lead_data, readable.
  destruct application_data as [| | | | |fa];
    try (split; [intros H; now apply is_Some_None in H
                | intros (? & ? & H & _); discriminate H]).
  cbn [dict_get mbind option_bind member].
  destruct (default (JObj []) (item "negotiation" fa)) as [| | | | |fn] eqn:En;
    try (split; [intros H; now apply is_Some_None in H
                | intros (? & ? & _ & H & _); discriminate H]).
  cbn [dict_get mbind option_bind].
  pose proof (format_comments_is_Some repr fn) as Hfc.
  destruct (default (JObj []) (item "resume" fn)) as [| | | | |fr] eqn:Er;
    try (split; [intros H; now apply is_Some_None in H
                | intros (? & ? & _ & E & H & _); injection E as <-;
                  rewrite Er in H; discriminate H]).
  cbn [dict_get mbind option_bind].
  set (contact := default JNull (item "contact" fr)).
  assert (Hcontacts :
    is_Some (if truthy contact
             then match contact with
                  | JList contacts => for_contacts contacts (JStr "", JStr "")
                  | _ => Some (JStr "", JStr "")
                  end
             else Some (JStr "", JStr ""))
    ↔ (∀ contacts, item "contact" fr = Some (JList contacts) →
                   Forall (λ c, is_dict c = true) contacts)).
  { subst contact. destruct (item "contact" fr) as [c|] eqn:Ec;
      unfold default, from_option, id.
    - destruct (truthy c) eqn:Ht.
      + destruct c as [| | | |cs|];
          try solve [split; [intros _ ? [=] | eauto]].
        cbv beta iota. rewrite for_contacts_is_Some.
        split; [intros H ? [= <-]; exact H | eauto].
      + split; [|eauto]. intros _ cs [= ->]. cbn in Ht.
        destruct cs; [constructor | discriminate Ht].
    - cbn. split; [intros _ ? [=] | eauto]. }
  split.
  - intros H. exists fn, fr. split; [reflexivity|]. split; [reflexivity|].
    split; [exact Er|].
    match type of H with
    | is_Some (?m ≫= _) => destruct m as [[email phone]|] eqn:Ef
    end; [|now apply is_Some_None in H].
    split; [apply Hcontacts; eauto|].
    cbn [mbind option_bind] in H.
    destruct (format_comments repr (JObj fn)) as [comments|] eqn:Ec;
      [|now apply is_Some_None in H].
    destruct (proj1 Hfc (mk_is_Some _ _ eq_refl)) as (fr' & [= <-] & Ha & Hs).
    split.
    + intros area E. now rewrite E in Ha.
    + intros salary E. now rewrite E in Hs.
  - intros (fn' & fr' & _ & [= <-] & E & Hc & Ha & Hs).
    rewrite Er in E. injection E as <-.
    apply Hcontacts in Hc. destruct Hc as [[email phone] ->].
    cbn [mbind option_bind].
    assert (Hf : is_Some (format_comments repr (JObj fn))).
    { apply Hfc. exists fr. split; [reflexivity|]. split.
      - destruct (item "area" fr) as [area|] eqn:E; [now apply Ha | reflexivity].
      - destruct (item "salary" fr) as [salary|] eqn:E;
          [now apply Hs | intros H; discriminate H]. }
    destruct Hf as [comments ->]. cbn. eauto.
Qed.

Lemma lead_data_needs_a_readable_payload_witness :
  readable sample_application ∧ ¬ readable hidden_resume_application.
Proof.
  split.
  - apply (lead_data_needs_a_readable_payload no_repr sample_application).
    vm_compute. eauto.
  - intros H.
    apply (lead_data_needs_a_readable_payload no_repr hidden_resume_application) in H.
    vm_compute in H. now apply is_Some_None in H.
Defined.

Section Contacts.

Lemma read_contact_by_kind found contact :
  is_dict contact = true →
  read_contact found contact
  = Some (if is_email contact then (contact_value contact, found.2)
          else if is_phone contact then (found.1, contact_value contact)
          else found).
Proof.
  destruct found as [email phone].
  destruct contact as [| | | | |fc]; try discriminate. intros _.
  unfold read_contact, is_email, is_phone, contact_kind, contact_value.
  cbn [dict_get member mbind option_bind fst snd].
  destruct (item "type" fc) as [[| | | | |ft]|]; cbn; try reflexivity.
  destruct (is_str "email" _); [reflexivity|].
  destruct (_ || _); reflexivity.
Qed.

Lemma email_is_no_phone contact : is_email contact = true → is_phone contact = false.
Proof.
  unfold is_email, is_phone. destruct (contact_kind contact); try discriminate.
  cbn. intros H. apply bool_decide_eq_true in H. subst. reflexivity.
Qed.

Lemma latest_cons {A} (value : A → Json) (keep : A → bool) fallback c cs :
  from_option value fallback (last (List.filter keep (c :: cs)))
  = from_option value (if keep c then value c else fallback)
      (last (List.filter keep cs)).
Proof.
  cbn [List.filter]. destruct (keep c); [|reflexivity].
  rewrite last_cons. now destruct (last (List.filter keep cs)).
Qed.

End Contacts.

(** X17.  Of several contacts of one kind the lead takes the last: after
    the loop over a list of contacts that are all dicts, [email] is the
    value of the last contact whose type is ['email'], [phone] the value of
    the last one whose type is ['cell'] or ['phone'], and each is left as it
    was when the list has no contact of its kind. *)
Theorem lead_takes_the_last_contact_of_a_kind
    (contacts : list Json) (email phone : Json) :
  Forall (λ contact, is_dict contact = true) contacts →
  for_contacts contacts (email, phone)
  = Some (from_option contact_value email (last (List.filter is_email contacts)),
          from_option contact_value phone (last (List.filter is_phone contacts))).
Proof.
  intros H. revert email phone.
  induction H as [|c cs Hc _ IH]; intros email phone; [reflexivity|].
  cbn [for_contacts]. rewrite (read_contact_by_kind _ _ Hc).
  cbn [mbind option_bind fst snd]. rewrite !latest_cons.
  destruct (is_email c) eqn:He.
  - rewrite (email_is_no_phone c He). apply IH.
  - destruct (is_phone c); apply IH.
Qed.

Lemma lead_takes_the_last_contact_of_a_kind_witness :
  for_contacts sample_contacts (JStr "", JStr "")
  = Some (from_option contact_value (JStr "")
            (last (List.filter is_email sample_contacts)),
          from_option contact_value (JStr "")
            (last (List.filter is_phone sample_contacts)))
  ∧ for_contacts sample_contacts (JStr "", JStr "")
    = Some (JStr "new@example.org", JStr "+998901234567").
Proof.
  split; [|vm_compute; reflexivity].
  apply (lead_takes_the_last_contact_of_a_kind sample_contacts (JStr "") (JStr "")).
  repeat constructor.
Defined.

Lemma lead_data_fields repr application_data data :
  lead_data repr application_data = Some data →
  ∃ first_name last_name email phone title comments,
    data = JObj [("fields"%string,
             JObj [("NAME"%string, first_name);
                   ("LAST_NAME"%string, last_name);
                   ("EMAIL"%string, work_value email);
                   ("PHONE"%string, work_value phone);
                   ("TITLE"%string, title);
                   ("COMMENTS"%string, JStr comments);
                   ("SOURCE_ID"%string, JStr "OTHER");
                   ("SOURCE_DESCRIPTION"%string, JStr "HeadHunter.uz");
                   ("ASSIGNED_BY_ID"%string, JNum 1)])].
Proof.
  unfold lead_data. intros H.
  destruct (dict_get application_data "negotiation" _) as [negotiation|];
    [|discriminate H]; cbn [mbind option_bind] in H.
  destruct (dict_get application_data "vacancy_name" _) as [title|];
    [|discriminate H]; cbn [mbind option_bind] in H.
  destruct (dict_get negotiation "resume" _) as [resume|];
    [|discriminate H]; cbn [mbind option_bind] in H.
  destruct (dict_get resume "first_name" _) as [first_name|];
    [|discriminate H]; cbn [mbind option_bind] in H.
  destruct (dict_get resume "last_name" _) as [last_name|];
    [|discriminate H]; cbn [mbind option_bind] in H.
  destruct (dict_get resume "contact" _) as [contact|];
    [|discriminate H]; cbn [mbind option_bind] in H.
  match type of H with
  | (?m ≫= _) = _ => destruct m as [[email phone]|]
  end; [|discriminate H]; cbn [mbind option_bind] in H.
  destruct (format_comments repr negotiation) as [comments|];
    [|discriminate H]; cbn [mbind option_bind] in H.
  injection H as <-. now exists first_name, last_name, email, phone, title, comments.
Qed.

Lemma shown_work_value key before after v :
  item key before = None →
  shown_value key (JObj (before ++ (key, work_value v) :: after))
  = Some (if truthy v then v else JStr "N/A").
Proof.
  intros Hb.
  assert (E : item key (before ++ (key, work_value v) :: after)
              = Some (work_value v)).
  { induction before as [|[k x] before IH]; cbn [app item].
    - now rewrite bool_decide_eq_true_2.
    - cbn [item] in Hb. destruct (bool_decide (k = key)); [discriminate Hb|].
      now apply IH. }
  unfold shown_value. cbn [dict_get mbind option_bind]. rewrite E.
  unfold work_value. cbn [default from_option id].
  destruct (truthy v) eqn:Hv; cbn; [|reflexivity].
  now rewrite bool_decide_eq_true_2.
Qed.

(** X18.  The success message can always be written for the payload that
    [create_bitrix_lead] has built: reading the e-mail address and the
    telephone number off [lead_data['fields']] as [send_telegram_success]
    does raises nothing, and gives the value that was put in, or ['N/A']
    where the value was falsy and the list was left empty. *)
Theorem success_message_reads_the_built_payload
    (repr : Json → string) (application_data data : Json) :
  lead_data repr application_data = Some data →
  ∃ lead_fields email phone,
    member "fields" data = Some lead_fields
    ∧ member "EMAIL" lead_fields = Some (work_value email)
    ∧ member "PHONE" lead_fields = Some (work_value phone)
    ∧ email_value lead_fields = Some (if truthy email then email else JStr "N/A")
    ∧ phone_value lead_fields = Some (if truthy phone then phone else JStr "N/A").
Proof.
  intros H.
  destruct (lead_data_fields repr _ _ H)
    as (first_name & last_name & email & phone & title & comments & ->).
  eexists _, email, phone. split; [reflexivity|].
  split; [reflexivity|]. split; [reflexivity|]. split.
  - apply (shown_work_value "EMAIL"
             [("NAME"%string, first_name); ("LAST_NAME"%string, last_name)]).
    reflexivity.
  - apply (shown_work_value "PHONE"
             [("NAME"%string, first_name); ("LAST_NAME"%string, last_name);
              ("EMAIL"%string, work_value email)]).
    reflexivity.
Qed.

Lemma success_message_reads_the_built_payload_witness :
  ∃ lead_fields email phone,
    member "fields"
      (default JNull (lead_data no_repr sample_application)) = Some lead_fields
    ∧ member "EMAIL" lead_fields = Some (work_value email)
    ∧ member "PHONE" lead_fields = Some (work_value phone)
    ∧ email_value lead_fields = Some (if truthy email then email else JStr "N/A")
    ∧ phone_value lead_fields = Some (if truthy phone then phone else JStr "N/A").
Proof.
  apply (success_message_reads_the_built_payload no_repr sample_application).
  vm_compute. reflexivity.
Defined.

Section Salary.

Variable repr : Json → string.

Lemma append_fixed (p x : string) : p +:+ x = p → x = EmptyString.
Proof.
  induction p as [|c p IH]; [exact id|].
  rewrite append_cons. intros H. injection H as H. now apply IH.
Qed.

Lemma append_char_nonempty (a : string) c b : a +:+ String c b ≠ EmptyString.
Proof. destruct a; discriminate. Qed.

Lemma salary_text_differs (x : string) :
  x ≠ EmptyString → bool_decide (("Maosh: " +:+ x)%string = "Maosh: "%string) = false.
Proof.
  intros Hx. apply bool_decide_eq_false_2. intros H.
  now apply append_fixed in H.
Qed.

End Salary.

(** X21.  The comment on the salary needs a bound.  A salary that is a dict
    with something in it adds one line when its [from] or its [to] is
    truthy, and no line when both are missing, [null] or zero, whatever the
    currency says; a salary that is falsy adds no line either; and nothing
    is raised in any of these cases. *)
Theorem salary_comment_needs_a_bound (repr : Json → string) (salary : Json) :
  (truthy salary = false → salary_comment repr salary = Some [])
  ∧ (∀ fields,
       salary = JObj fields → fields ≠ [] →
       ∃ lines,
         salary_comment repr salary = Some lines
         ∧ (length lines ≤ 1)%nat
         ∧ (lines = []
            ↔ truthy (default JNull (item "from" fields)) = false
              ∧ truthy (default JNull (item "to" fields)) = false)).
Proof.
  split.
  - intros H. unfold salary_comment. now rewrite H.
  - intros fields -> Hne. unfold salary_comment.
    assert (Ht : truthy (JObj fields) = true).
    { cbn. now rewrite bool_decide_eq_false_2. }
    rewrite Ht. cbn [dict_get mbind option_bind].
    assert (N1 : ∀ a r : string, (a +:+ "-" +:+ r)%string ≠ EmptyString).
    { intros a r. rewrite (append_cons "-"). apply append_char_nonempty. }
    assert (N2 : ∀ r : string, ("dan " +:+ r)%string ≠ EmptyString).
    { intros r. rewrite append_cons. discriminate. }
    assert (N3 : ∀ r : string, ("gacha " +:+ r)%string ≠ EmptyString).
    { intros r. rewrite append_cons. discriminate. }
    destruct (truthy (default JNull (item "from" fields))) eqn:Hfrom;
      destruct (truthy (default JNull (item "to" fields))) eqn:Hto;
      cbn [andb];
      [rewrite (salary_text_differs _ (N1 _ _))
      |rewrite (salary_text_differs _ (N2 _))
      |rewrite (salary_text_differs _ (N3 _))
      |rewrite bool_decide_eq_true_2 by reflexivity];
      (eexists; split; [reflexivity|]; split; [cbn; lia|]);
      [split; [discriminate | intros [? ?]; discriminate]..
      |now split].
Qed.

Lemma salary_comment_needs_a_bound_witness :
  salary_comment no_repr
    (JObj [("from"%string, JNum 0); ("to"%string, JNum 900);
           ("currency"%string, JStr "USD")])
  = Some ["Maosh: gacha 900 USD"%string]
  ∧ salary_comment no_repr (JObj [("currency"%string, JStr "USD")]) = Some [].
Proof.
  split; [vm_compute; reflexivity|].
  destruct (proj2 (salary_comment_needs_a_bound no_repr
                     (JObj [("currency"%string, JStr "USD")]))
              [("currency"%string, JStr "USD")] eq_refl ltac:(discriminate))
    as (lines & -> & _ & Hnone).
  f_equal. apply Hnone. split; reflexivity.
Defined.

(** * The authorization URL *)

Section Quoting.

Lemma occurrences_app c a b :
  occurrences c (a +:+ b) = (occurrences c a + occurrences c b)%nat.
Proof.
  induction a as [|d a IH]; [reflexivity|].
  rewrite append_cons. cbn [occurrences]. rewrite IH. lia.
Qed.

(** The characters that give a query string its structure never come out
    of [quote_plus]. *)
Lemma quoted_clear c d :
  d ∈ ["&"; "="; "?"; "#"; " "]%char → occurrences d (quoted c) = 0%nat.
Proof.
  intros Hd. repeat (apply elem_of_cons in Hd as [->|Hd]);
    [..|now apply elem_of_nil in Hd];
    destruct c as [[] [] [] [] [] [] [] []]; reflexivity.
Qed.

Lemma quote_plus_clear s d :
  d ∈ ["&"; "="; "?"; "#"; " "]%char → occurrences d (quote_plus s) = 0%nat.
Proof.
  intros Hd. induction s as [|c s IH]; [reflexivity|].
  cbn [quote_plus]. now rewrite occurrences_app, (quoted_clear c d Hd), IH.
Qed.

End Quoting.

Lemma get_hh_authorization_url_unfold hh_client_id hh_redirect_uri :
  get_hh_authorization_url hh_client_id hh_redirect_uri
  = "https://hh.ru/oauth/authorize?response_type=code&client_id="
    +:+ quote_plus hh_client_id
    +:+ "&redirect_uri=" +:+ quote_plus hh_redirect_uri
    +:+ "&scope=employer_vacancies+employer_negotiations".
Proof.
  unfold get_hh_authorization_url, urlencode, hh_oauth_base.
  cbn [map join].
  change (quote_plus "response_type") with "response_type"%string.
  change (quote_plus "code") with "code"%string.
  change (quote_plus "client_id") with "client_id"%string.
  change (quote_plus "redirect_uri") with "redirect_uri"%string.
  change (quote_plus "scope") with "scope"%string.
  change (quote_plus "employer_vacancies employer_negotiations")
    with "employer_vacancies+employer_negotiations"%string.
  rewrite !append_assoc. reflexivity.
Qed.

(** X19.  Whatever the configured client identifier and redirect URI hold,
    the authorization URL keeps its shape: one [?], the four parameters
    [response_type], [client_id], [redirect_uri] and [scope] in this order,
    separated by three [&], each with one [=], and no space and no [#]
    anywhere; a value cannot add a parameter or cut the query short. *)
Theorem authorization_url_keeps_its_shape (hh_client_id hh_redirect_uri : string) :
  get_hh_authorization_url hh_client_id hh_redirect_uri
  = "https://hh.ru/oauth/authorize?response_type=code&client_id="
    +:+ quote_plus hh_client_id
    +:+ "&redirect_uri=" +:+ quote_plus hh_redirect_uri
    +:+ "&scope=employer_vacancies+employer_negotiations"
  ∧ occurrences "?" (get_hh_authorization_url hh_client_id hh_redirect_uri) = 1%nat
  ∧ occurrences "&" (get_hh_authorization_url hh_client_id hh_redirect_uri) = 3%nat
  ∧ occurrences "=" (get_hh_authorization_url hh_client_id hh_redirect_uri) = 4%nat
  ∧ occurrences "#" (get_hh_authorization_url hh_client_id hh_redirect_uri) = 0%nat
  ∧ occurrences " " (get_hh_authorization_url hh_client_id hh_redirect_uri) = 0%nat.
Proof.
  split; [apply get_hh_authorization_url_unfold|].
  rewrite get_hh_authorization_url_unfold.
  repeat split; rewrite !occurrences_app, !quote_plus_clear;
    try reflexivity; set_solver.
Qed.

Section Injective.

Lemma hex_value_digit i : (i < 16)%nat → hex_value (hex_digit i) = i.
Proof.
  intros H. do 16 (destruct i as [|i]; [reflexivity|]). lia.
Qed.

Lemma percent_encoded_inj c d : percent_encoded c = percent_encoded d → c = d.
Proof.
  unfold percent_encoded.
  pose proof (nat_ascii_bounded c) as Hc. pose proof (nat_ascii_bounded d) as Hd.
  pose proof (Nat.div_mod_eq (nat_of_ascii c) 16) as Ec.
  pose proof (Nat.div_mod_eq (nat_of_ascii d) 16) as Ed.
  assert (Bc : (nat_of_ascii c / 16 < 16 ∧ nat_of_ascii c mod 16 < 16)%nat).
  { split; [apply Nat.Div0.div_lt_upper_bound; lia | apply Nat.mod_upper_bound; lia]. }
  assert (Bd : (nat_of_ascii d / 16 < 16 ∧ nat_of_ascii d mod 16 < 16)%nat).
  { split; [apply Nat.Div0.div_lt_upper_bound; lia | apply Nat.mod_upper_bound; lia]. }
  remember (nat_of_ascii c / 16)%nat as hc. remember (nat_of_ascii c mod 16)%nat as lc.
  remember (nat_of_ascii d / 16)%nat as hd. remember (nat_of_ascii d mod 16)%nat as ld.
  intros H. injection H as Hhi Hlo.
  apply (f_equal hex_value) in Hhi, Hlo.
  rewrite !hex_value_digit in Hhi, Hlo by tauto.
  rewrite <- (ascii_nat_embedding c), <- (ascii_nat_embedding d). f_equal. lia.
Qed.

Lemma quoted_cases c :
  (always_safe c = true ∧ quoted c = String c EmptyString)
  ∨ (nat_of_ascii c = 32%nat ∧ quoted c = "+"%string)
  ∨ (always_safe c = false ∧ quoted c = percent_encoded c).
Proof.
  unfold quoted. destruct (always_safe c); [now left|].
  destruct (Nat.eqb (nat_of_ascii c) 32) eqn:E.
  - right; left. now apply Nat.eqb_eq in E.
  - now right; right.
Qed.

Lemma percent_encoded_app c d s t :
  percent_encoded c +:+ s = percent_encoded d +:+ t →
  percent_encoded c = percent_encoded d ∧ s = t.
Proof.
  unfold percent_encoded.
  remember (hex_digit (nat_of_ascii c / 16)) as x1.
  remember (hex_digit (nat_of_ascii c mod 16)) as x2.
  remember (hex_digit (nat_of_ascii d / 16)) as y1.
  remember (hex_digit (nat_of_ascii d mod 16)) as y2.
  rewrite !append_cons, !append_nil_l. intros H. injection H as -> -> ->.
  now split.
Qed.

Lemma percent_encoded_head c s :
  ∃ rest, percent_encoded c +:+ s = String "%" rest.
Proof. unfold percent_encoded. rewrite append_cons. eauto. Qed.

Lemma quoted_inj c d s t :
  quoted c +:+ s = quoted d +:+ t → c = d ∧ s = t.
Proof.
  destruct (percent_encoded_head c s) as [rc Pc].
  destruct (percent_encoded_head d t) as [rd Pd].
  destruct (quoted_cases c) as [[Hc ->]|[[Hc ->]|[Hc ->]]];
    destruct (quoted_cases d) as [[Hd ->]|[[Hd ->]|[Hd ->]]]; intros H.
  - rewrite !append_cons, !append_nil_l in H. now injection H as -> ->.
  - rewrite !append_cons, !append_nil_l in H. injection H as -> _. discriminate Hc.
  - rewrite Pd, append_cons in H. injection H as -> _. discriminate Hc.
  - rewrite !append_cons, !append_nil_l in H. injection H as <- _. discriminate Hd.
  - rewrite !append_cons, !append_nil_l in H. injection H as ->.
    split; [|reflexivity].
    rewrite <- (ascii_nat_embedding c), <- (ascii_nat_embedding d). congruence.
  - rewrite Pd, append_cons in H. discriminate H.
  - rewrite Pc, append_cons in H. injection H as <- _. discriminate Hd.
  - rewrite Pc, append_cons in H. discriminate H.
  - apply percent_encoded_app in H as [H ->].
    split; [now apply percent_encoded_inj | reflexivity].
Qed.

Lemma quoted_nonempty c s : quoted c +:+ s ≠ EmptyString.
Proof.
  destruct (percent_encoded_head c s) as [rc Pc].
  destruct (quoted_cases c) as [[_ ->]|[[_ ->]|[_ ->]]];
    rewrite ?Pc; discriminate.
Qed.

Lemma quote_plus_inj a b : quote_plus a = quote_plus b → a = b.
Proof.
  revert b. induction a as [|c a IH]; intros [|d b] H; cbn [quote_plus] in H.
  - reflexivity.
  - symmetry in H. now apply quoted_nonempty in H.
  - now apply quoted_nonempty in H.
  - apply quoted_inj in H as [-> H]. f_equal. now apply IH.
Qed.

(** Two texts without [&], each followed by [&] and more, are equal when the
    wholes are. *)
Lemma cut_at_ampersand a a' r r' :
  occurrences "&" a = 0%nat → occurrences "&" a' = 0%nat →
  a +:+ String "&" r = a' +:+ String "&" r' → a = a' ∧ r = r'.
Proof.
  revert a'. induction a as [|c a IH]; intros [|c' a'] Ha Ha' H;
    rewrite ?append_cons, ?append_nil_l in H.
  - now injection H as ->.
  - injection H as <- _. discriminate Ha'.
  - injection H as -> _. discriminate Ha.
  - injection H as -> H. cbn [occurrences] in Ha, Ha'.
    destruct (IH a') as [-> ->]; auto; lia.
Qed.

End Injective.

(** X20.  The authorization URL tells the configured values apart: two
    pairs of client identifier and redirect URI that give the same URL are
    the same pair. *)
Theorem authorization_url_determines_its_values
    (hh_client_id hh_redirect_uri hh_client_id' hh_redirect_uri' : string) :
  get_hh_authorization_url hh_client_id hh_redirect_uri
  = get_hh_authorization_url hh_client_id' hh_redirect_uri' →
  hh_client_id = hh_client_id' ∧ hh_redirect_uri = hh_redirect_uri'.
Proof.
  rewrite !get_hh_authorization_url_unfold. intros H.
  rewrite !append_cons, !append_nil_l in H.
  injection H as H.
  apply cut_at_ampersand in H as [Hid H];
    [|apply quote_plus_clear; set_solver..].
  change ("redirect_uri=" +:+ ?x)%string
    with (String "r" (String "e" (String "d" (String "i" (String "r"
           (String "e" (String "c" (String "t" (String "_" (String "u"
           (String "r" (String "i" (String "=" x))))))))))))) in H.
  injection H as H.
  apply cut_at_ampersand in H as [Huri _];
    [|apply quote_plus_clear; set_solver..].
  split; now apply quote_plus_inj.
Qed.

Lemma authorization_url_determines_its_values_witness :
  "my app"%string = "my app"%string
  ∧ "http://localhost:8000/callback"%string = "http://localhost:8000/callback"%string.
Proof.
  apply (authorization_url_determines_its_values
           "my app" "http://localhost:8000/callback"
           "my app" "http://localhost:8000/callback").
  reflexivity.
Defined.

(** * The fetch: only what is new *)

Section OnlyNew.

Variable w : World.
Variable P : gset string.

Lemma fetches_ret {A} (Q : A → Prop) a : Q a → fetches P Q (ret a).
Proof.
  intros H s Hs. split; [exact Hs|]. intros a' s' [= <- <-]. exact H.
Qed.

Lemma fetches_bind {A B} (Q1 : A → Prop) (Q2 : B → Prop) (m : M A) (f : A → M B) :
  fetches P Q1 m → (∀ a, Q1 a → fetches P Q2 (f a)) → fetches P Q2 (bind m f).
Proof.
  intros Hm Hf s Hs. destruct (Hm s Hs) as [Hp Hq].
  unfold exec, bind in *. destruct (m s) as [[a|e|] s1]; cbn [snd] in *.
  - apply (Hf a (Hq a s1 eq_refl) s1 Hp).
  - split; [exact Hp | discriminate].
  - split; [exact Hp | discriminate].
Qed.

Lemma fetches_try {A} (Q : A → Prop) (m : M A) handles (h : M A) :
  fetches P Q m → fetches P Q h → fetches P Q (try_except m handles h).
Proof.
  intros Hm Hh s Hs. destruct (Hm s Hs) as [Hp Hq].
  unfold exec, try_except in *. destruct (m s) as [[a|e|] s1]; cbn [snd] in *.
  - split; [exact Hp|]. intros a' s' [= <- <-]. now apply (Hq a s1).
  - destruct (handles e); [apply (Hh s1 Hp)|]. split; [exact Hp | discriminate].
  - split; [exact Hp | discriminate].
Qed.

(** A computation that keeps the set and whose values satisfy [Q] whatever
    the state. *)
Lemma fetches_of {A} (Q : A → Prop) (m : M A) :
  preserves (λ s s', processed_ids s' = processed_ids s) m → yields Q m →
  fetches P Q m.
Proof.
  intros Hk Hy s Hs. split; [now rewrite Hk|]. intros a s' E. exact (Hy s a s' E).
Qed.

Lemma fetches_processed_ids : fetches P (λ x, x = P) (gets processed_ids).
Proof. intros s Hs. split; [exact Hs|]. now intros a s' [= <- <-]. Qed.

Lemma keeps_processed_ids : ∀ s1 s2 s3 : State,
  processed_ids s2 = processed_ids s1 → processed_ids s3 = processed_ids s2 →
  processed_ids s3 = processed_ids s1.
Proof. intros s1 s2 s3 H1 H2. now rewrite H2. Qed.

Lemma make_request_keeps_processed_ids req :
  preserves (λ s s', processed_ids s' = processed_ids s) (make_request w req).
Proof.
  intros s. pose proof (make_request_keeps_holdings w req s) as H.
  cbv beta in H. now injection H.
Qed.

Lemma send_telegram_error_keeps_processed_ids reason :
  preserves (λ s s', processed_ids s' = processed_ids s)
            (send_telegram_error w reason).
Proof.
  intros s. pose proof (send_telegram_message_keeps_holdings w (MsgError reason) s) as H.
  cbv beta in H. now injection H.
Qed.

Lemma get_auth_headers_keeps_processed_ids :
  preserves (λ s s', processed_ids s' = processed_ids s) (get_auth_headers w).
Proof.
  apply preserves_get_auth_headers
    with (allowed := λ _, True) (allowed_req := λ _ : Request, True); auto.
  - exact keeps_processed_ids.
  - intros req _ s. rewrite exec_call.
    pose proof (holdings_called w req s) as H. now injection H.
Qed.

Lemma collect_negotiations_new name negs apps :
  Forall (new_to P) apps →
  Forall (new_to P) (collect_negotiations P name negs apps).
Proof.
  revert apps. induction negs as [|n negs IH]; intros apps Happs; [exact Happs|].
  cbn [collect_negotiations].
  destruct (bool_decide (neg_id n = EmptyString)) eqn:E1; cbn [negb andb];
    [now apply IH|].
  destruct (bool_decide (neg_id n ∈ P)) eqn:E2; cbn [negb]; [now apply IH|].
  apply IH, Forall_app. split; [exact Happs|].
  constructor; [|constructor]. split.
  - now apply bool_decide_eq_false in E1.
  - now apply bool_decide_eq_false in E2.
Qed.

Lemma fetches_error reason :
  fetches P (Forall (new_to P)) (send_telegram_error w reason ;;; ret []).
Proof.
  apply (fetches_bind (λ _, True)).
  - apply fetches_of; [apply send_telegram_error_keeps_processed_ids | apply yields_any].
  - intros _ _. apply fetches_ret. constructor.
Qed.

Lemma fetch_negotiations_new h v apps :
  Forall (new_to P) apps →
  fetches P (Forall (new_to P)) (fetch_negotiations w h v apps).
Proof.
  intros Happs. unfold fetch_negotiations.
  destruct (bool_decide (vac_id v = EmptyString)); [now apply fetches_ret|].
  apply fetches_try; [|now apply fetches_ret].
  apply (fetches_bind (λ _, True)).
  - apply fetches_of; [apply make_request_keeps_processed_ids | apply yields_any].
  - intros [r|] _; [|now apply fetches_ret].
    destruct (response_ok r && (status_code r =? 200)); [|now apply fetches_ret].
    apply (fetches_bind (λ _, True)).
    + apply fetches_of; [|apply yields_any].
      intros s. unfold exec, json. now destruct (body r).
    + intros negotiations_data _.
      eapply fetches_bind; [apply fetches_processed_ids|].
      intros processed ->. apply fetches_ret.
      now apply collect_negotiations_new.
Qed.

Lemma for_vacancies_new h vs apps :
  Forall (new_to P) apps →
  fetches P (Forall (new_to P)) (for_vacancies w h vs apps).
Proof.
  revert apps. induction vs as [|v vs IH]; intros apps Happs; cbn [for_vacancies].
  - now apply fetches_ret.
  - eapply fetches_bind; [now apply fetch_negotiations_new|]. exact IH.
Qed.

Lemma get_hh_applications_new :
  fetches P (Forall (new_to P)) (get_hh_applications w).
Proof.
  assert (Hjson : ∀ r, fetches P (λ _ : Body, True) (json r)).
  { intros r. apply fetches_of; [|apply yields_any].
    intros s. unfold exec, json. now destruct (body r). }
  assert (Hcall : ∀ req, fetches P (λ _ : option Response, True) (make_request w req)).
  { intros req. apply fetches_of;
      [apply make_request_keeps_processed_ids | apply yields_any]. }
  unfold get_hh_applications.
  apply (fetches_bind (λ _, True)).
  { intros s Hs. split; [exact Hs | auto]. }
  intros token _. destruct (negb (truthy_str token)); [apply fetches_error|].
  apply fetches_try; [|apply fetches_error].
  apply (fetches_bind (λ _, True)).
  { apply fetches_of; [apply get_auth_headers_keeps_processed_ids | apply yields_any]. }
  intros headers _.
  apply (fetches_bind (λ _, True)); [apply Hcall|].
  intros [me_r|] _; [|apply fetches_error].
  destruct (negb (response_ok me_r) || negb (status_code me_r =? 200));
    [apply fetches_error|].
  apply (fetches_bind (λ _, True)); [apply Hjson|].
  intros employer_data _. destruct (me_fields employer_data) as [[? ?] employer_id].
  destruct (bool_decide (employer_id = EmptyString)); [apply fetches_error|].
  apply (fetches_bind (λ _, True)); [apply Hcall|].
  intros [v_r|] _; [|apply fetches_error].
  destruct (negb (response_ok v_r) || negb (status_code v_r =? 200));
    [apply fetches_error|].
  apply (fetches_bind (λ _, True)); [apply Hjson|].
  intros vacancies_data _.
  destruct (vacancies_of vacancies_data) as [|v vs];
    [apply fetches_ret; constructor|].
  apply for_vacancies_new. constructor.
Qed.

End OnlyNew.

(** X22.  [get_hh_applications] never raises, leaves the set of processed
    identifiers as it is, and returns only what is new: every application
    in its list has an identifier that is not empty and not in the set.
    Whatever goes wrong on the way, a missing token, a failed call, an
    answer that cannot be read, ends in a list, possibly empty. *)
Theorem get_hh_applications_returns_only_new_ids (w : World) (s : State) :
  processed_ids (exec (get_hh_applications w) s) = processed_ids s
  ∧ ∃ applications,
      (get_hh_applications w s).1 = Ok applications
      ∧ Forall (new_to (processed_ids s)) applications.
Proof.
  destruct (get_hh_applications_new w (processed_ids s) s eq_refl) as [Hp Hq].
  split; [exact Hp|].
  destruct (returns_get_hh_applications w s) as [apps Hok].
  exists apps. split; [exact Hok|].
  destruct (get_hh_applications w s) as [res s'] eqn:E. simpl in Hok. subst res.
  now apply (Hq apps s').
Qed.
